(** * CPP-course: binder, poly and funclist

    A shallow embedding of three headers of the repository:
    - [poly.h]: fixed-size polynomials, evaluation and product;
    - [funclist.h]: lists encoded as their own right folds;
    - [binder.h]: the copy-on-write ordered key-value container.

    Each module first transcribes the source functions, then states and
    proves the properties of the specification about them. *)

From Stdlib Require Import ZArith List String Ascii Lia.
From stdpp Require Import base option list gmap strings fin_maps.

(* ===================================================================== *)
(** * poly.h *)
(* ===================================================================== *)

Module Poly.

Local Open Scope Z_scope.

(** [poly<T, N>] for an exact integer scalar [T]: the array
    [coefficients] of length [N]; [N] is the length of the list. *)
Abbreviation poly := (list Z).

(** [operator[]] : [coefficients[i]]. *)
Definition coeff (p : poly) (i : nat) : Z := nth i p 0.

(** [size()] returns the template argument [N]. *)
Definition size (p : poly) : nat := length p.

(** [at_loop<U, I>(arg)]: the template recursion runs [I = I0 .. N-1];
    [steps] is the number of recursive instantiations left, [N - 1 - I].

    [if constexpr (I == N - 1) return coefficients[I];
     else return coefficients[I] + arg * at_loop<U, I + 1>(arg);] *)
Fixpoint at_loop (p : poly) (arg : Z) (steps : nat) (I : nat) : Z :=
  match steps with
  | O => coeff p I
  | S steps' => coeff p I + arg * at_loop p arg steps' (S I)
  end.

(** [at(arg)] for a scalar coefficient type:
    [if constexpr (N == 0) return T{}; else return at_loop<U>(arg);] *)
Definition at_ (p : poly) (arg : Z) : Z :=
  match size p with
  | O => 0
  | S n => at_loop p arg n 0
  end.

(** [result[k] += x]. *)
Definition add_at (result : poly) (k : nat) (x : Z) : poly :=
  <[k := coeff result k + x]> result.

(** [mul_type<poly<U,N>, poly<V,M>>::poly_size]:
    [N * M > 0 ? N + M - 1 : 0]. *)
Definition poly_size (N M : nat) : nat :=
  if (0 <? N * M)%nat then (N + M - 1)%nat else 0%nat.

(** The inner loop [for (j = 0; j < M; ++j) result[i + j] += a[i] * b[j];] *)
Definition mul_inner (a b : poly) (i : nat) (result : poly) : poly :=
  fold_left (fun r j => add_at r (i + j) (coeff a i * coeff b j))
            (seq 0 (size b)) result.

(** [operator*(const poly<T,N>& a, const poly<U,M>& b)]. *)
Definition mul (a b : poly) : poly :=
  if ((size a =? 0)%nat || (size b =? 0)%nat)%bool then []
  else
    fold_left (fun r i => mul_inner a b i r)
              (seq 0 (size a))
              (replicate (poly_size (size a) (size b)) 0).

(** ** Construction, assignment and the compound operators *)

(** One round [coefficients[i] = x;] of a loop over the array. *)
Definition set_at (c : poly) (i : nat) (x : Z) : poly := <[i := x]> c.

(** The converting constructor [poly(const poly<U, M>& other)] of
    [poly<T, N>]: [coefficients{}] starts from zeros, then
    [for (i = 0; i < M; ++i) coefficients[i] = other[i];].
    Its constraint [std::is_convertible_v<poly<U, M>, poly>] asks for
    [M <= N]. *)
Definition convert (N : nat) (other : poly) : poly :=
  fold_left (fun c i => set_at c i (coeff other i))
            (seq 0 (size other)) (replicate N 0).

(** [poly(U&& arg)] of [poly<T, N>], [N > 0]: [coefficients[0] = arg;]. *)
Definition of_scalar (N : nat) (arg : Z) : poly :=
  set_at (replicate N 0) 0 arg.

(** [operator=(const poly<U, M>& other)], constrained like the constructor:
    [for (i = 0; i < M; ++i) coefficients[i] = other[i];
     for (i = M; i < N; ++i) coefficients[i] = T{};] *)
Definition assign (this other : poly) : poly :=
  let c := fold_left (fun c i => set_at c i (coeff other i))
                     (seq 0 (size other)) this in
  fold_left (fun c i => set_at c i 0)
            (seq (size other) (size this - size other)) c.

(** [operator+=(const poly<U, M>& other)]:
    [for (i = 0; i < M; ++i) coefficients[i] += other[i];] *)
Definition add_assign (this other : poly) : poly :=
  fold_left (fun c i => add_at c i (coeff other i)) (seq 0 (size other)) this.

(** [operator+=(const U& other)]: [coefficients[0] += other;] *)
Definition add_assign_scalar (this : poly) (other : Z) : poly :=
  add_at this 0 other.

(** [operator-=(const poly<U, M>& other)] and [operator-=(const U& other)]. *)
Definition sub_assign (this other : poly) : poly :=
  fold_left (fun c i => set_at c i (coeff c i - coeff other i))
            (seq 0 (size other)) this.

Definition sub_assign_scalar (this : poly) (other : Z) : poly :=
  set_at this 0 (coeff this 0 - other).

(** [operator*=(const U& x)]:
    [for (i = 0; i < N; ++i) coefficients[i] *= x;] *)
Definition mul_assign (this : poly) (x : Z) : poly :=
  fold_left (fun c i => set_at c i (coeff c i * x)) (seq 0 (size this)) this.

(** ** The binary operators *)

(** The size of [std::common_type_t<poly<T, N>, poly<U, M>>] is
    [max(N1, N2)], the size of [std::common_type_t<poly<Tp, N>, U>] is
    [N > 0 ? N : 1]. *)
Definition common_size (N M : nat) : nat := Nat.max N M.

Definition scalar_common_size (N : nat) : nat :=
  if (0 <? N)%nat then N else 1%nat.

(** [operator+(a, b)]: [std::common_type_t<...>(a) += b]. *)
Definition add (a b : poly) : poly :=
  add_assign (convert (common_size (size a) (size b)) a) b.

(** [operator+(polynomial, value)] and [operator+(value, polynomial)]. *)
Definition add_scalar (polynomial : poly) (value : Z) : poly :=
  add_assign_scalar
    (convert (scalar_common_size (size polynomial)) polynomial) value.

Definition scalar_add (value : Z) (polynomial : poly) : poly :=
  add_scalar polynomial value.

(** [operator-(a, b)]: [std::common_type_t<...>(a) -= b]. *)
Definition sub (a b : poly) : poly :=
  sub_assign (convert (common_size (size a) (size b)) a) b.

(** [operator-(polynomial, value)]. *)
Definition sub_scalar (polynomial : poly) (value : Z) : poly :=
  sub_assign_scalar
    (convert (scalar_common_size (size polynomial)) polynomial) value.

(** [operator-(value, polynomial)]: [poly(value) - polynomial], where the
    deduction guide makes [poly(value)] a [poly<U, 1>]. *)
Definition scalar_sub (value : Z) (polynomial : poly) : poly :=
  sub (of_scalar 1 value) polynomial.

(** Unary [operator-]: [result{}] and
    [for (i = 0; i < N; ++i) result[i] = -p[i];] *)
Definition neg (p : poly) : poly :=
  fold_left (fun result i => set_at result i (- coeff p i))
            (seq 0 (size p)) (replicate (size p) 0).

(** [std::common_type_t<poly<T, N>, U>(polynomial) *= value], the
    expression of the second [return] of [operator*(polynomial, value)]. *)
Definition scaled (polynomial : poly) (value : Z) : poly :=
  mul_assign (convert (scalar_common_size (size polynomial)) polynomial) value.

(** [operator*(polynomial, value)]:
    [if constexpr (N == 0) return poly<..., 0>{};
     return std::common_type_t<poly<T, N>, U>(polynomial) *= value;]
    The [if constexpr] has no [else]: at [N == 0] both [return]s are
    instantiated, the first deduces [poly<..., 0>] and the second
    [poly<..., 1>], and the instantiation is ill-formed.  [None] stands for
    the call that has no instance; at [N > 0] the first [return] is
    discarded.  [operator*(value, polynomial)] is [polynomial * value]. *)
Definition mul_scalar (polynomial : poly) (value : Z) : option poly :=
  if (size polynomial =? 0)%nat then None
  else Some (scaled polynomial value).

Definition scalar_mul (value : Z) (polynomial : poly) : option poly :=
  mul_scalar polynomial value.

(** ** Polynomials in two variables *)

(** [poly<poly<T, M>, N>]: the coefficients are polynomials of size [M] in
    the second variable. *)
Abbreviation poly2 := (list (list Z)).

Definition coeff2 (M : nat) (p : poly2) (i : nat) : poly :=
  nth i p (replicate M 0).

(** [at_loop<U, I>(arg)] at a coefficient type that is a polynomial: the
    sum is [operator+] on polynomials and the product
    [operator*(value, polynomial)], which has no instance at a polynomial
    of size 0. *)
Fixpoint at_loop2 (M : nat) (p : poly2) (arg : Z) (steps : nat) (I : nat)
  : option poly :=
  match steps with
  | O => Some (coeff2 M p I)
  | S steps' =>
      rest ← at_loop2 M p arg steps' (S I);
      t ← scalar_mul arg rest;
      Some (add (coeff2 M p I) t)
  end.

(** [at(arg, args...)] with two arguments on [poly<poly<T, M>, N>]:
    [if constexpr (N == 0) return T{}.at(args...);
     else return at_loop<U>(arg).at(args...);] *)
Definition at2 (M : nat) (p : poly2) (x y : Z) : option Z :=
  match length p with
  | O => Some (at_ (replicate M 0) y)
  | S n => r ← at_loop2 M p x n 0; Some (at_ r y)
  end.

(** [at(const std::array<U, K>& arr)] is [at(arr[0], ..., arr[K-1])]. *)
Definition at_array2 (M : nat) (p : poly2) (arr : Z * Z) : option Z :=
  at2 M p (fst arr) (snd arr).

(** [const_poly(p)]: [poly<std::decay_t<T>, 1>(p)], the polynomial of size
    1 whose coefficient is [p]. *)
Definition const_poly (p : poly) : poly2 := [p].

(** [poly_detail::shift(a, p)] for [a] with a scalar coefficient type:
    [const_poly(shift(Tp{}, p))], and [shift(Tp{}, p)] is [p]. *)
Definition shift (a p : poly) : poly2 := const_poly p.

(** [operator*(a, b)] at [a : poly<T, N>] and [b : poly<poly<U, M>, K>]:
    the coefficients of the result have the type
    [std::common_type_t<T, poly<U, M>>], of size [M > 0 ? M : 1];
    [result[i + j] += a[i] * b[j]] multiplies the scalar [a[i]] by the
    polynomial [b[j]], which has no instance at [M == 0], and adds
    polynomials. *)
Definition mul2 (M : nat) (a : poly) (b : poly2) : option poly2 :=
  if ((size a =? 0)%nat || (length b =? 0)%nat)%bool then Some []
  else
    let M' := scalar_common_size M in
    fold_left
      (fun r i =>
         fold_left
           (fun r j =>
              result ← r;
              t ← scalar_mul (coeff a i) (coeff2 M b j);
              Some (<[(i + j)%nat :=
                        add_assign (coeff2 M' result (i + j)) t]> result))
           (seq 0 (length b)) r)
      (seq 0 (size a))
      (Some (replicate (poly_size (size a) (length b)) (replicate M' 0))).

(** [cross(a, b)]: [a * poly_detail::shift(a, b)]. *)
Definition cross (a b : poly) : option poly2 := mul2 (size b) a (shift a b).

(** ** Evaluation as a sum of monomials *)

(** [psum p x n] is the sum of [coeff p j * x^j] for [j < n]. *)
Fixpoint psum (p : poly) (x : Z) (n : nat) : Z :=
  match n with
  | O => 0
  | S n' => psum p x n' + coeff p n' * x ^ Z.of_nat n'
  end.

(** [csum a b k n] is the sum of [a[i] * b[k - i]] for [i < n], [i <= k]:
    the part of the coefficient [k] of the product that the rounds
    [i < n] of the outer loop add up. *)
Fixpoint csum (a b : poly) (k n : nat) : Z :=
  match n with
  | O => 0
  | S n' => csum a b k n'
            + (if (n' <=? k)%nat then coeff a n' * coeff b (k - n') else 0)
  end.

(** The sum of [f i] for [i < n]. *)
Fixpoint sumf (f : nat -> Z) (n : nat) : Z :=
  match n with
  | O => 0
  | S n' => sumf f n' + f n'
  end.

Lemma at_loop_shift (c : Z) (p : poly) arg steps I :
  at_loop (c :: p) arg steps (S I) = at_loop p arg steps I.
Proof.
  revert I. induction steps as [|steps IH]; intros I; simpl.
  - reflexivity.
  - rewrite IH. reflexivity.
Qed.

Lemma psum_shift (c : Z) (p : poly) x n :
  psum (c :: p) x (S n) = c + x * psum p x n.
Proof.
  induction n as [|n IH].
  - cbn [psum]. unfold coeff. cbn [nth Z.of_nat]. rewrite Z.pow_0_r. ring.
  - change (psum (c :: p) x (S (S n)))
      with (psum (c :: p) x (S n) + coeff (c :: p) (S n) * x ^ Z.of_nat (S n)).
    rewrite IH. cbn [psum]. unfold coeff. cbn [nth].
    rewrite Nat2Z.inj_succ, Z.pow_succ_r by lia. ring.
Qed.

(** Horner's scheme of [at_loop] computes the sum of monomials. *)
Lemma at_psum (p : poly) x : at_ p x = psum p x (size p).
Proof.
  unfold at_, size. induction p as [|c p IH].
  - reflexivity.
  - simpl length. rewrite psum_shift.
    destruct p as [|d p].
    + simpl. unfold coeff. simpl. ring.
    + simpl length in *. simpl at_loop. rewrite at_loop_shift.
      rewrite <- IH. unfold coeff at 1. simpl. reflexivity.
Qed.

Lemma coeff_add_at_eq r k v :
  (k < length r)%nat -> coeff (add_at r k v) k = coeff r k + v.
Proof.
  intros Hk. unfold add_at, coeff.
  rewrite (nth_lookup (<[_ := _]> r)), list_lookup_insert_eq by exact Hk.
  reflexivity.
Qed.

Lemma coeff_add_at_ne r k v j :
  j <> k -> coeff (add_at r k v) j = coeff r j.
Proof.
  intros Hne. unfold add_at, coeff.
  rewrite !nth_lookup, list_lookup_insert_ne by congruence. reflexivity.
Qed.

Lemma length_add_at r k v : length (add_at r k v) = length r.
Proof. unfold add_at. apply length_insert. Qed.

Lemma psum_add_at_below r k v x n :
  (n <= k)%nat -> psum (add_at r k v) x n = psum r x n.
Proof.
  induction n as [|n IH]; intros Hn; simpl.
  - reflexivity.
  - rewrite IH by lia. rewrite coeff_add_at_ne by lia. reflexivity.
Qed.

Lemma psum_add_at r k v x n :
  (k < n)%nat -> (k < length r)%nat ->
  psum (add_at r k v) x n = psum r x n + v * x ^ Z.of_nat k.
Proof.
  induction n as [|n IH]; intros Hn Hk; [lia|].
  simpl. destruct (decide (k = n)) as [->|Hne].
  - rewrite psum_add_at_below by lia. rewrite coeff_add_at_eq by lia. ring.
  - rewrite IH by lia. rewrite coeff_add_at_ne by lia. ring.
Qed.

Lemma psum_replicate x n m : psum (replicate m 0) x n = 0.
Proof.
  induction n as [|n IH]; simpl; [reflexivity|].
  rewrite IH. unfold coeff.
  destruct (decide (n < m)%nat) as [Hn|Hn].
  - rewrite (nth_lookup_Some _ _ 0 0); [ring|]. now apply lookup_replicate_2.
  - rewrite nth_overflow; [ring|]. rewrite length_replicate. lia.
Qed.

(** The inner loop, run for the first [m] values of [j]. *)
Lemma mul_inner_prefix a b i r x L m :
  (i + m <= L)%nat -> (L <= length r)%nat ->
  let r' := fold_left (fun r j => add_at r (i + j) (coeff a i * coeff b j))
                      (seq 0 m) r in
  length r' = length r /\
  psum r' x L = psum r x L + coeff a i * x ^ Z.of_nat i * psum b x m.
Proof.
  induction m as [|m IH]; intros Hm HL; cbv zeta.
  - simpl. split; [reflexivity|ring].
  - rewrite seq_S, fold_left_app. simpl.
    destruct IH as [Hlen Hsum]; [lia|lia|].
    split.
    + rewrite length_add_at. exact Hlen.
    + destruct (decide (m < L - i)%nat) as [Hlt|Hge].
      * rewrite psum_add_at by lia. rewrite Hsum.
        rewrite Nat2Z.inj_add, Z.pow_add_r by lia. ring.
      * lia.
Qed.

Lemma mul_inner_sum a b i r x L :
  (i + size b <= L)%nat -> (L <= length r)%nat ->
  length (mul_inner a b i r) = length r /\
  psum (mul_inner a b i r) x L
  = psum r x L + coeff a i * x ^ Z.of_nat i * psum b x (size b).
Proof. intros H1 H2. unfold mul_inner. now apply mul_inner_prefix. Qed.

(** The outer loop, run for the first [n] values of [i]. *)
Lemma mul_outer_prefix a b r x L n :
  (0 < size b)%nat -> (n + size b <= S L)%nat -> (L <= length r)%nat ->
  let r' := fold_left (fun r i => mul_inner a b i r) (seq 0 n) r in
  length r' = length r /\
  psum r' x L = psum r x L + psum a x n * psum b x (size b).
Proof.
  induction n as [|n IH]; intros Hb Hn HL; cbv zeta.
  - simpl. split; [reflexivity|ring].
  - rewrite seq_S, fold_left_app. simpl.
    destruct IH as [Hlen Hsum]; [lia|lia|lia|].
    destruct (mul_inner_sum a b n
                (fold_left (fun r i => mul_inner a b i r) (seq 0 n) r) x L)
      as [Hlen' Hsum']; [lia|lia|].
    split; [congruence|].
    rewrite Hsum', Hsum. ring.
Qed.

Lemma size_mul (a b : poly) : size (mul a b) = poly_size (size a) (size b).
Proof.
  unfold mul, poly_size.
  destruct a as [|a0 a]; [reflexivity|].
  destruct b as [|b0 b]; [simpl; now rewrite Nat.mul_0_r|].
  cbn [size length Nat.eqb orb].
  replace (0 <? S (length a) * S (length b))%nat with true
    by (symmetry; apply Nat.ltb_lt; lia).
  destruct (mul_outer_prefix (a0 :: a) (b0 :: b)
              (replicate (S (length a) + S (length b) - 1) 0) 0
              (S (length a) + S (length b) - 1) (S (length a)))
    as [Hlen _].
  - unfold size. simpl. lia.
  - unfold size. simpl. lia.
  - rewrite length_replicate. lia.
  - unfold size in *. cbn [length] in Hlen. rewrite Hlen.
    apply length_replicate.
Qed.

(** C9: evaluation is multiplicative.  For all coefficient arrays [a], [b]
    over the integers and every scalar [x], [(a * b).at(x)] equals
    [a.at(x) * b.at(x)]; the product has [poly_size N M] coefficients, it is
    the size-0 polynomial as soon as [N == 0] or [M == 0], and the size-0
    polynomial evaluates to zero. *)
Theorem at_mul (a b : poly) (x : Z) :
  at_ (mul a b) x = at_ a x * at_ b x /\
  size (mul a b) = poly_size (size a) (size b) /\
  mul [] b = [] /\ mul a [] = [] /\ at_ [] x = 0.
Proof.
  assert (Hr : mul a [] = []).
  { unfold mul. simpl. now rewrite orb_true_r. }
  split; [|split; [apply size_mul|split; [reflexivity|split; [exact Hr|reflexivity]]]].
  destruct a as [|a0 a]; [reflexivity|].
  destruct b as [|b0 b].
  { rewrite Hr. unfold at_ at 1 3. simpl. ring. }
  rewrite !at_psum, size_mul.
  unfold mul, poly_size. cbn [size length Nat.eqb orb].
  replace (0 <? S (length a) * S (length b))%nat with true
    by (symmetry; apply Nat.ltb_lt; lia).
  destruct (mul_outer_prefix (a0 :: a) (b0 :: b)
              (replicate (S (length a) + S (length b) - 1) 0) x
              (S (length a) + S (length b) - 1) (S (length a)))
    as [_ Hsum].
  - unfold size. simpl. lia.
  - unfold size. simpl. lia.
  - rewrite length_replicate. lia.
  - unfold size in Hsum. cbn [length] in Hsum.
    rewrite Hsum, psum_replicate. ring.
Qed.

(** ** Coefficients of the other operators *)

Lemma coeff_overflow (p : poly) i : (length p <= i)%nat -> coeff p i = 0.
Proof. intros Hi. unfold coeff. now apply nth_overflow. Qed.

Lemma coeff_replicate N i : coeff (replicate N 0) i = 0.
Proof.
  unfold coeff. destruct (decide (i < N)%nat) as [Hi|Hi].
  - apply nth_lookup_Some with (d := 0). now apply lookup_replicate_2.
  - apply nth_overflow. rewrite length_replicate. lia.
Qed.

Lemma length_set_at c i x : length (set_at c i x) = length c.
Proof. apply length_insert. Qed.

Lemma coeff_set_at c i x j :
  coeff (set_at c i x) j
  = if decide (j = i /\ (i < length c)%nat) then x else coeff c j.
Proof.
  unfold set_at, coeff. destruct (decide (j = i /\ (i < length c)%nat)) as [[-> Hi]|Hn].
  - rewrite (nth_lookup (<[_ := _]> c)), list_lookup_insert_eq by exact Hi.
    reflexivity.
  - destruct (decide (j = i)) as [->|Hne].
    + rewrite list_insert_ge by lia. reflexivity.
    + rewrite !nth_lookup, list_lookup_insert_ne by congruence. reflexivity.
Qed.

(** A loop over [i = a .. a + m - 1] that stores in [coefficients[i]] a
    value computed from [coefficients[i]] and [i]. *)
Lemma loop_coeff (g : Z -> nat -> Z) a m (c : poly) :
  let r := fold_left (fun c i => set_at c i (g (coeff c i) i)) (seq a m) c in
  length r = length c /\
  forall j, coeff r j
            = if decide ((a <= j < a + m)%nat /\ (j < length c)%nat)
              then g (coeff c j) j else coeff c j.
Proof.
  induction m as [|m IH]; cbv zeta.
  - simpl. split; [reflexivity|]. intros j.
    destruct (decide _) as [[Hj _]|_]; [lia|reflexivity].
  - rewrite seq_S, fold_left_app. cbn [fold_left].
    cbv zeta in IH. destruct IH as [Hlen Hc].
    set (r := fold_left _ (seq a m) c) in *.
    split; [rewrite length_set_at; exact Hlen|].
    intros j. rewrite coeff_set_at, Hlen, !Hc.
    destruct (decide (j = (a + m)%nat /\ (a + m < length c)%nat))
      as [[-> Hm]|Hne];
      repeat destruct (decide _); try reflexivity; lia.
Qed.

Lemma length_convert N p : length (convert N p) = N.
Proof.
  unfold convert.
  rewrite (proj1 (loop_coeff (fun _ i => coeff p i) 0 (size p) (replicate N 0))).
  apply length_replicate.
Qed.

Lemma coeff_convert N p j :
  (size p <= N)%nat -> coeff (convert N p) j = coeff p j.
Proof.
  intros HN. unfold convert.
  rewrite (proj2 (loop_coeff (fun _ i => coeff p i) 0 (size p) (replicate N 0))).
  rewrite length_replicate, coeff_replicate.
  destruct (decide _) as [_|Hn]; [reflexivity|].
  symmetry. apply coeff_overflow. unfold size in *. lia.
Qed.

Lemma length_add_assign c o : length (add_assign c o) = length c.
Proof.
  exact (proj1 (loop_coeff (fun ci i => ci + coeff o i) 0 (size o) c)).
Qed.

Lemma coeff_add_assign c o j :
  (size o <= length c)%nat ->
  coeff (add_assign c o) j = coeff c j + coeff o j.
Proof.
  intros Ho.
  rewrite (proj2 (loop_coeff (fun ci i => ci + coeff o i) 0 (size o) c) j
           : coeff (add_assign c o) j = _).
  destruct (decide _) as [_|Hn]; [reflexivity|].
  destruct (decide (j < size o)%nat) as [Hj|Hj]; [lia|].
  rewrite (coeff_overflow o) by (unfold size in *; lia). ring.
Qed.

Lemma length_sub_assign c o : length (sub_assign c o) = length c.
Proof.
  exact (proj1 (loop_coeff (fun ci i => ci - coeff o i) 0 (size o) c)).
Qed.

Lemma coeff_sub_assign c o j :
  (size o <= length c)%nat ->
  coeff (sub_assign c o) j = coeff c j - coeff o j.
Proof.
  intros Ho.
  rewrite (proj2 (loop_coeff (fun ci i => ci - coeff o i) 0 (size o) c) j
           : coeff (sub_assign c o) j = _).
  destruct (decide _) as [_|Hn]; [reflexivity|].
  destruct (decide (j < size o)%nat) as [Hj|Hj]; [lia|].
  rewrite (coeff_overflow o) by (unfold size in *; lia). ring.
Qed.

Lemma length_mul_assign c x : length (mul_assign c x) = length c.
Proof.
  exact (proj1 (loop_coeff (fun ci _ => ci * x) 0 (size c) c)).
Qed.

Lemma coeff_mul_assign c x j : coeff (mul_assign c x) j = coeff c j * x.
Proof.
  rewrite (proj2 (loop_coeff (fun ci _ => ci * x) 0 (size c) c) j
           : coeff (mul_assign c x) j = _).
  destruct (decide _) as [_|Hn]; [reflexivity|].
  rewrite coeff_overflow by (unfold size in *; lia). ring.
Qed.

Lemma length_neg p : length (neg p) = length p.
Proof.
  unfold neg.
  rewrite (proj1 (loop_coeff (fun _ i => - coeff p i) 0 (size p)
                    (replicate (size p) 0))).
  apply length_replicate.
Qed.

Lemma coeff_neg p j : coeff (neg p) j = - coeff p j.
Proof.
  unfold neg.
  rewrite (proj2 (loop_coeff (fun _ i => - coeff p i) 0 (size p)
                    (replicate (size p) 0))).
  rewrite length_replicate, coeff_replicate.
  destruct (decide _) as [_|Hn]; [reflexivity|].
  rewrite coeff_overflow by (unfold size in *; lia). ring.
Qed.

Lemma length_assign this other : length (assign this other) = length this.
Proof.
  unfold assign. cbv zeta.
  rewrite (proj1 (loop_coeff (fun _ _ => 0) (size other)
                    (size this - size other) _)).
  exact (proj1 (loop_coeff (fun _ i => coeff other i) 0 (size other) this)).
Qed.

Lemma coeff_assign this other j :
  (size other <= size this)%nat ->
  coeff (assign this other) j = coeff other j.
Proof.
  intros Hle. unfold assign. cbv zeta.
  rewrite (proj2 (loop_coeff (fun _ _ => 0) (size other)
                    (size this - size other) _)).
  rewrite (proj1 (loop_coeff (fun _ i => coeff other i) 0 (size other) this)).
  rewrite (proj2 (loop_coeff (fun _ i => coeff other i) 0 (size other) this)).
  unfold size in *.
  destruct (decide _) as [Hhigh|Hhigh].
  - symmetry. apply coeff_overflow. lia.
  - destruct (decide _) as [Hlow|Hlow]; [reflexivity|].
    rewrite !coeff_overflow by lia. reflexivity.
Qed.

(** ** Evaluation is linear in the coefficients *)

Lemma psum_ext (p q : poly) x n :
  (forall j, (j < n)%nat -> coeff p j = coeff q j) ->
  psum p x n = psum q x n.
Proof.
  induction n as [|n IH]; intros Hc; simpl; [reflexivity|].
  rewrite IH by (intros j Hj; apply Hc; lia). rewrite Hc by lia. reflexivity.
Qed.

Lemma psum_linear (r p q : poly) (u v : Z) x n :
  (forall j, (j < n)%nat -> coeff r j = u * coeff p j + v * coeff q j) ->
  psum r x n = u * psum p x n + v * psum q x n.
Proof.
  induction n as [|n IH]; intros Hc; simpl; [ring|].
  rewrite IH by (intros j Hj; apply Hc; lia). rewrite Hc by lia. ring.
Qed.

Lemma psum_overflow (p : poly) x n :
  (length p <= n)%nat -> psum p x n = psum p x (length p).
Proof.
  induction n as [|n IH]; intros Hn.
  - destruct p; [reflexivity|simpl in Hn; lia].
  - destruct (decide (length p = S n)) as [->|Hne]; [reflexivity|].
    simpl. rewrite IH by lia. rewrite coeff_overflow by lia. ring.
Qed.

Lemma at_psum_ge (p : poly) x n :
  (size p <= n)%nat -> at_ p x = psum p x n.
Proof. intros Hn. rewrite at_psum. symmetry. now apply psum_overflow. Qed.

Lemma at_linear (r p q : poly) (u v : Z) x :
  (forall j, coeff r j = u * coeff p j + v * coeff q j) ->
  at_ r x = u * at_ p x + v * at_ q x.
Proof.
  intros Hc.
  set (n := Nat.max (size r) (Nat.max (size p) (size q))).
  rewrite (at_psum_ge r x n), (at_psum_ge p x n), (at_psum_ge q x n)
    by (unfold n; lia).
  apply psum_linear. intros j _. apply Hc.
Qed.

Lemma at_replicate N x : at_ (replicate N 0) x = 0.
Proof. rewrite at_psum. apply psum_replicate. Qed.

Lemma size_scaled p v : size (scaled p v) = scalar_common_size (size p).
Proof. unfold scaled, size. now rewrite length_mul_assign, length_convert. Qed.

Lemma size_scaled_pos p v : (0 < size p)%nat -> size (scaled p v) = size p.
Proof.
  intros Hp. rewrite size_scaled. unfold scalar_common_size.
  now replace (0 <? size p)%nat with true by (symmetry; now apply Nat.ltb_lt).
Qed.

Lemma coeff_scaled p v j : coeff (scaled p v) j = coeff p j * v.
Proof.
  unfold scaled. rewrite coeff_mul_assign, coeff_convert; [reflexivity|].
  unfold scalar_common_size. destruct (size p); simpl; lia.
Qed.

Lemma mul_scalar_Some p v :
  (0 < size p)%nat -> mul_scalar p v = Some (scaled p v).
Proof.
  intros Hp. unfold mul_scalar.
  now replace (size p =? 0)%nat with false by (symmetry; apply Nat.eqb_neq; lia).
Qed.

Lemma size_add a b : size (add a b) = Nat.max (size a) (size b).
Proof. unfold add, size. now rewrite length_add_assign, length_convert. Qed.

Lemma coeff_add a b j : coeff (add a b) j = coeff a j + coeff b j.
Proof.
  unfold add. rewrite coeff_add_assign.
  - rewrite coeff_convert; [reflexivity|]. unfold common_size. lia.
  - rewrite length_convert. unfold common_size. lia.
Qed.

Lemma at_add_eval a b x : at_ (add a b) x = at_ a x + at_ b x.
Proof.
  rewrite (at_linear (add a b) a b 1 1); [ring|].
  intros j. rewrite coeff_add. ring.
Qed.

Lemma at_scaled p v x : at_ (scaled p v) x = at_ p x * v.
Proof.
  rewrite (at_linear (scaled p v) p [] v 0); [ring|].
  intros j. rewrite coeff_scaled. ring.
Qed.

Lemma poly_eq (p q : poly) :
  length p = length q -> (forall j, coeff p j = coeff q j) -> p = q.
Proof.
  intros Hlen Hc. apply (list_eq_same_length p q (length q)); auto.
  intros i u w Hi Hu Hw. specialize (Hc i). unfold coeff in Hc.
  rewrite (nth_lookup_Some p i 0 u Hu), (nth_lookup_Some q i 0 w Hw) in Hc.
  exact Hc.
Qed.

Lemma size_sub a b : size (sub a b) = Nat.max (size a) (size b).
Proof. unfold sub, size. now rewrite length_sub_assign, length_convert. Qed.

Lemma coeff_sub a b j : coeff (sub a b) j = coeff a j - coeff b j.
Proof.
  unfold sub. rewrite coeff_sub_assign.
  - rewrite coeff_convert; [reflexivity|]. unfold common_size. lia.
  - rewrite length_convert. unfold common_size. lia.
Qed.

Lemma scalar_common_size_max N : scalar_common_size N = Nat.max N 1.
Proof. unfold scalar_common_size. destruct N; simpl; lia. Qed.

Lemma coeff_of_scalar v j :
  coeff (of_scalar 1 v) j = if decide (j = 0%nat) then v else 0.
Proof. destruct j as [|[|j]]; reflexivity. Qed.

Lemma coeff_add_scalar p v j :
  coeff (add_scalar p v) j
  = if decide (j = 0%nat) then coeff p 0 + v else coeff p j.
Proof.
  unfold add_scalar, add_assign_scalar.
  assert (Hle : (size p <= scalar_common_size (size p))%nat)
    by (rewrite scalar_common_size_max; lia).
  destruct (decide (j = 0%nat)) as [->|Hj].
  - rewrite coeff_add_at_eq, coeff_convert; [reflexivity|exact Hle|].
    rewrite length_convert, scalar_common_size_max. lia.
  - rewrite coeff_add_at_ne, coeff_convert; [reflexivity|exact Hle|exact Hj].
Qed.

Lemma coeff_sub_scalar p v j :
  coeff (sub_scalar p v) j
  = if decide (j = 0%nat) then coeff p 0 - v else coeff p j.
Proof.
  unfold sub_scalar, sub_assign_scalar.
  assert (Hle : (size p <= scalar_common_size (size p))%nat)
    by (rewrite scalar_common_size_max; lia).
  rewrite coeff_set_at, length_convert, !coeff_convert by exact Hle.
  rewrite scalar_common_size_max.
  destruct (decide (j = 0%nat)) as [->|Hj].
  - rewrite decide_True by lia. reflexivity.
  - rewrite decide_False by tauto. reflexivity.
Qed.

(** The value of a polynomial whose coefficients are those of [p], but for
    [c] added to the constant one. *)
Lemma at_shift_constant (r p : poly) (c : Z) x :
  (forall j, coeff r j = if decide (j = 0%nat) then coeff p 0 + c
                         else coeff p j) ->
  at_ r x = at_ p x + c.
Proof.
  intros Hc.
  rewrite (at_linear r p (of_scalar 1 c) 1 1).
  - replace (at_ (of_scalar 1 c) x) with c by reflexivity. ring.
  - intros j. rewrite Hc, coeff_of_scalar.
    destruct (decide (j = 0%nat)) as [->|Hj]; ring.
Qed.

(** X1.  [a + b] has [max(N, M)] coefficients, each the sum of the
    coefficients of [a] and [b] at that index (one that is missing counts
    as zero), so that it evaluates to the sum of the values; [+] is
    commutative and associative on coefficient arrays of any sizes. *)
Theorem add_pointwise (a b c : poly) (x : Z) :
  size (add a b) = Nat.max (size a) (size b) /\
  (forall i, coeff (add a b) i = coeff a i + coeff b i) /\
  at_ (add a b) x = at_ a x + at_ b x /\
  add a b = add b a /\
  add (add a b) c = add a (add b c).
Proof.
  split; [apply size_add|]. split; [apply coeff_add|].
  split; [apply at_add_eval|]. split.
  - apply poly_eq.
    + change (size (add a b) = size (add b a)). rewrite !size_add. lia.
    + intros j. rewrite !coeff_add. ring.
  - apply poly_eq.
    + change (size (add (add a b) c) = size (add a (add b c))).
      rewrite !size_add. lia.
    + intros j. rewrite !coeff_add. ring.
Qed.

(** X2.  Over the integers, for coefficient arrays of any sizes, [a - b]
    and [-a] work coefficient by coefficient: [a - b] has
    [max(N, M)] coefficients and evaluates to the difference of the values,
    [-a] has the size of [a] and evaluates to the opposite value; [a - b] is
    [a + (-b)], [-(-a)] is [a] and [a - a] is the zero polynomial of the
    size of [a]. *)
Theorem sub_neg_pointwise (a b : poly) (x : Z) :
  size (sub a b) = Nat.max (size a) (size b) /\
  (forall i, coeff (sub a b) i = coeff a i - coeff b i) /\
  at_ (sub a b) x = at_ a x - at_ b x /\
  size (neg a) = size a /\
  (forall i, coeff (neg a) i = - coeff a i) /\
  at_ (neg a) x = - at_ a x /\
  sub a b = add a (neg b) /\
  neg (neg a) = a /\
  sub a a = replicate (size a) 0.
Proof.
  split; [apply size_sub|]. split; [apply coeff_sub|]. split.
  { rewrite (at_linear (sub a b) a b 1 (-1)); [ring|].
    intros j. rewrite coeff_sub. ring. }
  split; [apply length_neg|]. split; [apply coeff_neg|]. split.
  { rewrite (at_linear (neg a) a [] (-1) 0); [ring|].
    intros j. rewrite coeff_neg. ring. }
  split; [|split]; apply poly_eq.
  - change (size (sub a b) = size (add a (neg b))).
    rewrite size_sub, size_add. unfold size. now rewrite length_neg.
  - intros j. rewrite coeff_sub, coeff_add, coeff_neg. ring.
  - now rewrite !length_neg.
  - intros j. rewrite !coeff_neg. ring.
  - change (size (sub a a) = length (replicate (size a) 0)).
    rewrite size_sub, length_replicate. lia.
  - intros j. rewrite coeff_sub, coeff_replicate. ring.
Qed.

(** X3.  Over the integers, a scalar is added to, or subtracted from, the
    constant coefficient.  The result has [N > 0 ? N : 1] coefficients, so that the
    size-0 polynomial plus [v] is the constant polynomial [v];
    [value - polynomial] goes through [poly(value)] and has [max(1, N)]
    coefficients.  The values are [p(x) + v], [p(x) - v] and [v - p(x)]. *)
Theorem scalar_add_sub (p : poly) (v x : Z) :
  size (add_scalar p v) = Nat.max (size p) 1 /\
  size (sub_scalar p v) = Nat.max (size p) 1 /\
  size (scalar_sub v p) = Nat.max 1 (size p) /\
  add_scalar [] v = [v] /\
  scalar_add v p = add_scalar p v /\
  at_ (add_scalar p v) x = at_ p x + v /\
  at_ (sub_scalar p v) x = at_ p x - v /\
  at_ (scalar_sub v p) x = v - at_ p x.
Proof.
  assert (Hs1 : size (add_scalar p v) = Nat.max (size p) 1).
  { unfold add_scalar, add_assign_scalar, size.
    now rewrite length_add_at, length_convert, scalar_common_size_max. }
  assert (Hs2 : size (sub_scalar p v) = Nat.max (size p) 1).
  { unfold sub_scalar, sub_assign_scalar, size.
    now rewrite length_set_at, length_convert, scalar_common_size_max. }
  split; [exact Hs1|]. split; [exact Hs2|].
  split; [unfold scalar_sub; rewrite size_sub; reflexivity|].
  split; [reflexivity|]. split; [reflexivity|]. split; [|split].
  - apply at_shift_constant. intros j. apply coeff_add_scalar.
  - replace (at_ p x - v) with (at_ p x + - v) by ring.
    apply at_shift_constant. intros j. rewrite coeff_sub_scalar.
    destruct (decide (j = 0%nat)); ring.
  - unfold scalar_sub.
    rewrite (at_linear (sub (of_scalar 1 v) p) (of_scalar 1 v) p 1 (-1)).
    + replace (at_ (of_scalar 1 v) x) with v by reflexivity. ring.
    + intros j. rewrite coeff_sub. ring.
Qed.

(** X5.  Over the integers: conversion and assignment from a polynomial
    that is not larger, which is what their constraint asks for: the coefficients of [other]
    are taken over and the remaining ones are zero, so that the value at
    every [x] is that of [other].  After [this = other] nothing of the
    former coefficients of [this] is left: the array is the one the
    constructor builds from [other]. *)
Theorem assign_is_convert (this other : poly) (x : Z) :
  (size other <= size this)%nat ->
  assign this other = convert (size this) other /\
  size (assign this other) = size this /\
  (forall i, coeff (assign this other) i = coeff other i) /\
  at_ (assign this other) x = at_ other x.
Proof.
  intros Hle.
  assert (Hc : forall i, coeff (assign this other) i = coeff other i).
  { intros i. now apply coeff_assign. }
  split; [|split; [apply length_assign|split; [exact Hc|]]].
  - apply poly_eq.
    + now rewrite length_assign, length_convert.
    + intros j. now rewrite Hc, coeff_convert.
  - rewrite (at_linear (assign this other) other [] 1 0); [ring|].
    intros j. rewrite Hc. ring.
Qed.

Lemma assign_is_convert_witness :
  assign [7; 8; 9] [1; 2] = convert 3 [1; 2] /\
  size (assign [7; 8; 9] [1; 2]) = 3%nat /\
  (forall i, coeff (assign [7; 8; 9] [1; 2]) i = coeff [1; 2] i) /\
  at_ (assign [7; 8; 9] [1; 2]) 5 = at_ [1; 2] 5.
Proof. apply (assign_is_convert [7; 8; 9] [1; 2] 5). simpl. lia. Defined.

(** ** Two variables *)

Lemma coeff_map_at (M : nat) (p : poly2) y i :
  coeff (List.map (fun q => at_ q y) p) i = at_ (coeff2 M p i) y.
Proof.
  unfold coeff, coeff2.
  rewrite <- (map_nth (fun q => at_ q y) p (replicate M 0) i).
  f_equal. symmetry. apply at_replicate.
Qed.

Lemma size_coeff2 M (p : poly2) i :
  Forall (fun q => size q = M) p -> size (coeff2 M p i) = M.
Proof.
  intros Hp. unfold coeff2.
  destruct (nth_in_or_default i p (replicate M 0)) as [Hin|Heq].
  - rewrite Forall_forall in Hp. apply Hp. now apply list_elem_of_In.
  - rewrite Heq. apply length_replicate.
Qed.

(** With coefficients of size [M > 0] every product of [at_loop] has an
    instance, and the polynomial it returns has size [M]. *)
Lemma at_loop2_eval M (p : poly2) x steps I :
  Forall (fun q => size q = M) p -> (0 < M)%nat ->
  exists r, at_loop2 M p x steps I = Some r /\ size r = M /\
    forall y, at_ r y = at_loop (List.map (fun q => at_ q y) p) x steps I.
Proof.
  intros Hp HM. revert I.
  induction steps as [|steps IH]; intros I; cbn [at_loop2 at_loop].
  - exists (coeff2 M p I). split; [reflexivity|].
    split; [now apply size_coeff2|]. intros y. symmetry. apply coeff_map_at.
  - destruct (IH (S I)) as (rest & -> & Hsize & Heval).
    unfold scalar_mul. cbn [mbind option_bind].
    rewrite mul_scalar_Some by lia. cbn [mbind option_bind].
    eexists. split; [reflexivity|]. split.
    + rewrite size_add, size_scaled_pos by lia.
      rewrite size_coeff2 by exact Hp. lia.
    + intros y. rewrite at_add_eval, at_scaled, Heval, (coeff_map_at M). ring.
Qed.

Lemma at2_eval M (p : poly2) x y :
  Forall (fun q => size q = M) p ->
  (0 < M)%nat \/ (length p <= 1)%nat ->
  at2 M p x y = Some (at_ (List.map (fun q => at_ q y) p) x).
Proof.
  intros Hp HM. unfold at2.
  change (at_ (List.map (fun q => at_ q y) p) x)
    with (match size (List.map (fun q => at_ q y) p) with
          | O => 0
          | S n => at_loop (List.map (fun q => at_ q y) p) x n 0
          end).
  unfold size. rewrite length_map.
  destruct (length p) as [|n] eqn:Hn; [now rewrite at_replicate|].
  destruct HM as [HM|HN].
  - destruct (at_loop2_eval M p x n 0 Hp HM) as (r & -> & _ & Heval).
    cbn [mbind option_bind]. now rewrite Heval.
  - replace n with 0%nat by lia. cbn [at_loop2 at_loop mbind option_bind].
    now rewrite (coeff_map_at M).
Qed.

Lemma at_add_assign c o x :
  (size o <= length c)%nat -> at_ (add_assign c o) x = at_ c x + at_ o x.
Proof.
  intros Ho. rewrite (at_linear (add_assign c o) c o 1 1); [ring|].
  intros j. rewrite coeff_add_assign by exact Ho. ring.
Qed.

Lemma coeff_map_seq (g : nat -> Z) N j :
  coeff (List.map g (seq 0 N)) j = if decide (j < N)%nat then g j else 0.
Proof.
  unfold coeff. destruct (decide (j < N)%nat) as [Hj|Hj].
  - rewrite (nth_indep _ 0 (g 0%nat)) by (rewrite length_map, length_seq; lia).
    rewrite map_nth, seq_nth by lia. reflexivity.
  - apply nth_overflow. rewrite length_map, length_seq. lia.
Qed.

(** The loops of [operator*] when the right operand has the single
    coefficient [b], of size [M > 0]: round [i] leaves [a[i] * b] in
    [result[i]]. *)
Lemma mul2_singleton_prefix M' (a b : poly) n N :
  (0 < size b)%nat -> (n <= N)%nat ->
  fold_left
    (fun r i =>
       fold_left
         (fun r j =>
            result ← r;
            t ← scalar_mul (coeff a i) (coeff2 (size b) [b] j);
            Some (<[(i + j)%nat :=
                      add_assign (coeff2 M' result (i + j)) t]> result))
         (seq 0 (length [b])) r)
    (seq 0 n) (Some (replicate N (replicate M' 0)))
  = Some (List.map (fun i => add_assign (replicate M' 0) (scaled b (coeff a i)))
                   (seq 0 n)
          ++ replicate (N - n) (replicate M' 0))%list.
Proof.
  intros Hb. induction n as [|n IH]; intros Hn.
  - simpl. now rewrite Nat.sub_0_r.
  - rewrite seq_S, fold_left_app, IH by lia.
    cbn [fold_left length seq Nat.add mbind option_bind coeff2 nth].
    unfold scalar_mul. rewrite mul_scalar_Some by exact Hb.
    cbn [mbind option_bind]. rewrite Nat.add_0_r. f_equal.
    set (f := fun i => add_assign (replicate M' 0) (scaled b (coeff a i))).
    set (z := replicate M' 0).
    assert (Hlen : length (List.map f (seq 0 n)) = n)
      by now rewrite length_map, length_seq.
    replace (N - n)%nat with (S (N - S n)) by lia.
    assert (Hz : nth n (List.map f (seq 0 n) ++ replicate (S (N - S n)) z) z
                 = z).
    { apply nth_lookup_Some.
      rewrite lookup_app_r by lia. rewrite Hlen, Nat.sub_diag. reflexivity. }
    unfold coeff2. fold z. rewrite Hz. rewrite insert_app_r_alt by lia.
    rewrite Hlen, Nat.sub_diag. cbn [replicate].
    change (<[0%nat := ?u]> (?v :: ?l)) with (u :: l).
    rewrite map_app, <- app_assoc. reflexivity.
Qed.

Lemma poly_size_1 N : (0 < N)%nat -> poly_size N 1 = N.
Proof.
  intros HN. unfold poly_size.
  replace (0 <? N * 1)%nat with true by (symmetry; apply Nat.ltb_lt; lia).
  lia.
Qed.

Lemma cross_rows (a b : poly) :
  (0 < size a)%nat -> (0 < size b)%nat ->
  cross a b
  = Some (List.map (fun i => add_assign (replicate (size b) 0)
                                        (scaled b (coeff a i)))
                   (seq 0 (size a))).
Proof.
  intros Ha Hb. unfold cross, shift, const_poly, mul2.
  destruct a as [|a0 a]; [simpl in Ha; lia|].
  cbn [size length Nat.eqb orb].
  rewrite poly_size_1 by lia. cbv zeta.
  assert (Hs : scalar_common_size (size b) = size b).
  { unfold scalar_common_size.
    now replace (0 <? size b)%nat with true
      by (symmetry; now apply Nat.ltb_lt). }
  rewrite Hs.
  etransitivity;
    [exact (mul2_singleton_prefix (size b) (a0 :: a) b
              (S (length a)) (S (length a)) Hb (le_n _))|].
  now rewrite Nat.sub_diag, app_nil_r.
Qed.

Lemma cross_rows_row (a b : poly) i :
  (0 < size b)%nat -> (i < size a)%nat ->
  let row := nth i (List.map (fun i => add_assign (replicate (size b) 0)
                                                  (scaled b (coeff a i)))
                             (seq 0 (size a))) [] in
  size row = size b /\ forall j, coeff row j = coeff a i * coeff b j.
Proof.
  intros Hb Hi. cbv zeta.
  rewrite (nth_indep _ _ (add_assign (replicate (size b) 0)
                            (scaled b (coeff a 0%nat))))
    by (rewrite length_map, length_seq; exact Hi).
  rewrite (map_nth (fun i => add_assign _ (scaled b (coeff a i)))).
  rewrite seq_nth by exact Hi. cbn [Nat.add]. split.
  - unfold size. now rewrite length_add_assign, length_replicate.
  - intros j. rewrite coeff_add_assign
      by (rewrite size_scaled_pos, length_replicate by exact Hb; lia).
    rewrite coeff_replicate, coeff_scaled. ring.
Qed.

(** X6.  Over the integers, a polynomial in two variables whose
    coefficients are polynomials of size [M] is evaluated by Horner's scheme
    in the first variable: [p.at(x, y)] is the value at [x] of the
    polynomial whose coefficients are the values [p[i].at(y)], and
    [at(std::array{x, y})] is the same call.  This is for [M > 0] or
    [N <= 1]: at [M == 0] and [N >= 2] the product of the scheme has no
    instance. *)
Theorem at2_nested (M : nat) (p : poly2) (x y : Z) :
  Forall (fun q => size q = M) p ->
  (0 < M)%nat \/ (length p <= 1)%nat ->
  at2 M p x y = Some (at_ (List.map (fun q => at_ q y) p) x) /\
  at_array2 M p (x, y) = at2 M p x y.
Proof.
  intros Hp HM. split; [now apply at2_eval|reflexivity].
Qed.

Lemma at2_nested_witness :
  at2 2 [[1; 2]; [3; 4]; [5; 6]] 7 9
  = Some (at_ (List.map (fun q => at_ q 9) [[1; 2]; [3; 4]; [5; 6]]) 7) /\
  at_array2 2 [[1; 2]; [3; 4]; [5; 6]] (7, 9)
  = at2 2 [[1; 2]; [3; 4]; [5; 6]] 7 9.
Proof.
  apply (at2_nested 2 [[1; 2]; [3; 4]; [5; 6]] 7 9).
  - repeat constructor.
  - left. lia.
Defined.

(** X7.  Over the integers, for [a] of any size [N] and [b] of size
    [M > 0] (at [M == 0] and [N > 0] the product of a coefficient of [a] by
    [b] has no instance): [cross(a, b)] is the polynomial in two variables
    with the [N] coefficients [a[i] * b], each of size [M], and its value at
    [(x, y)] is [a(x) * b(y)]. *)
Theorem cross_eval (a b : poly) (x y : Z) :
  (0 < size b)%nat ->
  exists c,
    cross a b = Some c /\
    length c = size a /\
    (forall i, (i < size a)%nat ->
       size (nth i c []) = size b /\
       forall j, coeff (nth i c []) j = coeff a i * coeff b j) /\
    at2 (size b) c x y = Some (at_ a x * at_ b y).
Proof.
  intros Hb. destruct (decide (0 < size a)%nat) as [Ha|Ha].
  2:{ destruct a as [|a0 a]; [|simpl in Ha; lia].
      exists []. split; [reflexivity|]. split; [reflexivity|].
      split; [simpl; lia|]. rewrite at2_eval; [reflexivity|constructor|auto]. }
  eexists. split; [exact (cross_rows a b Ha Hb)|].
  split; [now rewrite length_map, length_seq|].
  split; [intros i Hi; exact (cross_rows_row a b i Hb Hi)|].
  rewrite at2_eval; [|..].
  - f_equal. rewrite map_map.
    rewrite (at_linear _ a [] (at_ b y) 0); [ring|].
    intros j. rewrite coeff_map_seq.
    destruct (decide (j < size a)%nat) as [Hj|Hj].
    + rewrite at_add_assign
        by (rewrite size_scaled_pos, length_replicate by exact Hb; lia).
      rewrite at_replicate, at_scaled. ring.
    + rewrite (coeff_overflow a) by (unfold size in Hj; lia). ring.
  - apply Forall_forall. intros q Hq. apply list_elem_of_In in Hq.
    apply in_map_iff in Hq as (i & <- & _).
    unfold size. now rewrite length_add_assign, length_replicate.
  - left. exact Hb.
Qed.

Lemma cross_eval_witness :
  exists c,
    cross [1; 2; 3] [4; 5] = Some c /\
    length c = size [1; 2; 3] /\
    (forall i, (i < size [1; 2; 3]%Z)%nat ->
       size (nth i c []) = size [4; 5] /\
       forall j, coeff (nth i c []) j = coeff [1; 2; 3] i * coeff [4; 5] j) /\
    at2 (size [4; 5]) c 7 9 = Some (at_ [1; 2; 3] 7 * at_ [4; 5] 9).
Proof. apply (cross_eval [1; 2; 3] [4; 5] 7 9). simpl. lia. Defined.

(** ** The coefficients of the product *)

Lemma coeff_mul_inner_prefix a b i (r : poly) m k :
  (i + m <= length r)%nat ->
  coeff (fold_left (fun r j => add_at r (i + j) (coeff a i * coeff b j))
                   (seq 0 m) r) k
  = coeff r k + (if decide (i <= k < i + m)%nat
                 then coeff a i * coeff b (k - i) else 0).
Proof.
  induction m as [|m IH]; intros Hm.
  - simpl. rewrite decide_False by lia. ring.
  - rewrite seq_S, fold_left_app. cbn [fold_left Nat.add].
    destruct (mul_inner_prefix a b i r 0 (i + m) m) as [Hlen _]; [lia|lia|].
    cbv zeta in Hlen.
    destruct (decide (k = i + m)%nat) as [->|Hne].
    + rewrite coeff_add_at_eq by (rewrite Hlen; lia).
      rewrite IH by lia. rewrite decide_False by lia.
      rewrite decide_True by lia.
      replace (i + m - i)%nat with m by lia. ring.
    + rewrite coeff_add_at_ne by exact Hne. rewrite IH by lia.
      destruct (decide (i <= k < i + m)%nat) as [Hk|Hk].
      * rewrite decide_True by lia. reflexivity.
      * rewrite decide_False by lia. reflexivity.
Qed.

Lemma coeff_mul_inner a b i (r : poly) k :
  (i + size b <= length r)%nat ->
  coeff (mul_inner a b i r) k
  = coeff r k + (if (i <=? k)%nat then coeff a i * coeff b (k - i) else 0).
Proof.
  intros Hi. unfold mul_inner. rewrite coeff_mul_inner_prefix by exact Hi.
  destruct (Nat.leb_spec i k) as [Hik|Hik].
  - destruct (decide (i <= k < i + size b)%nat) as [Hk|Hk]; [reflexivity|].
    rewrite (coeff_overflow b) by (unfold size in *; lia). ring.
  - rewrite decide_False by lia. reflexivity.
Qed.

Lemma coeff_mul_outer_prefix a b (r : poly) n k :
  (0 < size b)%nat -> (n + size b <= S (length r))%nat ->
  coeff (fold_left (fun r i => mul_inner a b i r) (seq 0 n) r) k
  = coeff r k + csum a b k n.
Proof.
  induction n as [|n IH]; intros Hb Hn.
  - simpl. ring.
  - rewrite seq_S, fold_left_app. cbn [fold_left Nat.add csum].
    destruct (mul_outer_prefix a b r 0 (length r) n) as [Hlen _];
      [exact Hb|lia|lia|]. cbv zeta in Hlen.
    rewrite coeff_mul_inner by (rewrite Hlen; lia).
    rewrite IH by (auto; lia). ring.
Qed.

Lemma coeff_mul_csum (a b : poly) k : coeff (mul a b) k = csum a b k (size a).
Proof.
  unfold mul. destruct a as [|a0 a].
  { cbn [size length Nat.eqb orb]. now rewrite coeff_overflow by (simpl; lia). }
  destruct b as [|b0 b].
  - cbn [size length Nat.eqb orb].
    rewrite coeff_overflow by (simpl; lia).
    generalize (S (length a)). intros n. induction n as [|n IH]; [reflexivity|].
    cbn [csum]. rewrite <- IH.
    rewrite (coeff_overflow []) by (simpl; lia).
    destruct (n <=? k)%nat; ring.
  - cbn [size length Nat.eqb orb].
    rewrite coeff_mul_outer_prefix.
    + rewrite coeff_replicate. ring.
    + unfold size. simpl. lia.
    + rewrite length_replicate. unfold poly_size, size.
      replace (0 <? S (length a) * S (length (b0 :: b)))%nat with true
        by (symmetry; apply Nat.ltb_lt; simpl; lia).
      simpl. lia.
Qed.

(** Rounds whose term is zero add nothing. *)
Lemma csum_stable a b k n m :
  (n <= m)%nat ->
  (forall i, (n <= i < m)%nat -> (i <= k)%nat ->
             coeff a i * coeff b (k - i) = 0) ->
  csum a b k m = csum a b k n.
Proof.
  intros Hnm. induction m as [|m IH]; intros Hz.
  - now replace n with 0%nat by lia.
  - destruct (decide (n = S m)) as [->|Hne]; [reflexivity|].
    cbn [csum]. rewrite IH by (try lia; intros i Hi; apply Hz; lia).
    destruct (Nat.leb_spec m k) as [Hk|Hk]; [|ring].
    rewrite Hz by lia. ring.
Qed.

Lemma csum_full a b k : csum a b k (size a) = csum a b k (S k).
Proof.
  destruct (decide (size a <= S k)%nat) as [Hle|Hgt].
  - symmetry. apply csum_stable; [exact Hle|].
    intros i Hi _. rewrite (coeff_overflow a) by (unfold size in *; lia). ring.
  - apply csum_stable; [lia|]. intros i Hi Hk. lia.
Qed.

Lemma sumf_ext f g n :
  (forall i, (i < n)%nat -> f i = g i) -> sumf f n = sumf g n.
Proof.
  induction n as [|n IH]; intros Hfg; simpl; [reflexivity|].
  rewrite IH by (intros i Hi; apply Hfg; lia). rewrite Hfg by lia.
  reflexivity.
Qed.

Lemma sumf_shift f n : sumf f (S n) = f 0%nat + sumf (fun i => f (S i)) n.
Proof.
  induction n as [|n IH]; [simpl; ring|].
  change (sumf f (S (S n))) with (sumf f (S n) + f (S n)).
  rewrite IH. simpl. ring.
Qed.

Lemma sumf_rev f k : sumf f (S k) = sumf (fun j => f (k - j)%nat) (S k).
Proof.
  revert f. induction k as [|k IH]; intros f; [reflexivity|].
  rewrite (sumf_shift (fun j => f (S k - j)%nat)).
  change (sumf f (S (S k))) with (sumf f (S k) + f (S k)).
  rewrite (IH f). cbn [Nat.sub]. ring.
Qed.

Lemma sumf_add f g n :
  sumf (fun i => f i + g i) n = sumf f n + sumf g n.
Proof. induction n as [|n IH]; simpl; [reflexivity|rewrite IH; ring]. Qed.

Lemma sumf_last f k :
  (forall i, (i < k)%nat -> f i = 0) -> sumf f (S k) = f k.
Proof.
  intros Hz. cbn [sumf]. rewrite (sumf_ext f (fun _ => 0) k Hz).
  assert (H0 : sumf (fun _ => 0) k = 0).
  { clear. induction k as [|k IH]; simpl; [reflexivity|rewrite IH; ring]. }
  rewrite H0. ring.
Qed.

Lemma csum_sumf a b k n :
  (n <= S k)%nat ->
  csum a b k n = sumf (fun i => coeff a i * coeff b (k - i)) n.
Proof.
  induction n as [|n IH]; intros Hn; simpl; [reflexivity|].
  rewrite IH by lia.
  replace (n <=? k)%nat with true by (symmetry; apply Nat.leb_le; lia).
  reflexivity.
Qed.

Lemma coeff_mul_sumf (a b : poly) k :
  coeff (mul a b) k = sumf (fun i => coeff a i * coeff b (k - i)) (S k).
Proof. rewrite coeff_mul_csum, csum_full. now apply csum_sumf. Qed.

Lemma poly_size_comm N M : poly_size N M = poly_size M N.
Proof. unfold poly_size. rewrite (Nat.mul_comm M N), (Nat.add_comm M N). reflexivity. Qed.

Lemma mul_singleton (p : poly) (v : Z) :
  (0 < size p)%nat -> mul p [v] = scaled p v.
Proof.
  intros Hp. apply poly_eq.
  - change (size (mul p [v]) = size (scaled p v)).
    rewrite size_mul, size_scaled_pos by exact Hp. now apply poly_size_1.
  - intros j. rewrite coeff_mul_sumf, coeff_scaled, sumf_last.
    + now rewrite Nat.sub_diag.
    + intros i Hi. rewrite (coeff_overflow [v]) by (simpl; lia). ring.
Qed.

(** X4.  Over the integers, for a polynomial of size [N > 0] (at
    [N == 0] the operator has no instance): [polynomial * value] and
    [value * polynomial] return the polynomial of the same size whose
    coefficients are those of [polynomial] multiplied by the scalar, which
    evaluates to [p(x) * v] and is the product of [polynomial] by the
    polynomial [value] of size 1. *)
Theorem mul_scalar_pointwise (p : poly) (v x : Z) :
  (0 < size p)%nat ->
  exists r,
    mul_scalar p v = Some r /\ scalar_mul v p = Some r /\
    size r = size p /\
    (forall i, coeff r i = coeff p i * v) /\
    at_ r x = at_ p x * v /\
    r = mul p [v].
Proof.
  intros Hp. exists (scaled p v).
  split; [now apply mul_scalar_Some|]. split; [now apply mul_scalar_Some|].
  split; [now apply size_scaled_pos|]. split; [apply coeff_scaled|].
  split; [apply at_scaled|]. symmetry. now apply mul_singleton.
Qed.

Lemma mul_scalar_pointwise_witness :
  exists r,
    mul_scalar [1; 2] 3 = Some r /\ scalar_mul 3 [1; 2] = Some r /\
    size r = size [1; 2] /\
    (forall i, coeff r i = coeff [1; 2] i * 3) /\
    at_ r 5 = at_ [1; 2] 5 * 3 /\
    r = mul [1; 2] [3].
Proof. apply (mul_scalar_pointwise [1; 2] 3 5). simpl. lia. Defined.

(** X8.  Over the integers, the coefficient [k] of [a * b] is the sum of
    the products [a[i] * b[k - i]] for [i <= k] (a coefficient past the end
    of an array counts as zero), and the product does not depend on the
    order of its operands. *)
Theorem mul_convolution (a b : poly) (k : nat) :
  coeff (mul a b) k = sumf (fun i => coeff a i * coeff b (k - i)) (S k) /\
  mul a b = mul b a.
Proof.
  split; [apply coeff_mul_sumf|].
  apply poly_eq.
  - change (size (mul a b) = size (mul b a)).
    rewrite !size_mul. apply poly_size_comm.
  - intros j. rewrite !coeff_mul_sumf, sumf_rev.
    apply sumf_ext. intros i Hi.
    replace (j - (j - i))%nat with i by lia. ring.
Qed.

(** X9.  Over the integers, the product of polynomials distributes over
    their sum, arrays of any sizes; the product by a polynomial [v] of
    size 1 multiplies every coefficient by [v], so that the constant
    polynomial [1] is neutral. *)
Theorem mul_distributes (a b c : poly) (v : Z) :
  mul (add a b) c = add (mul a c) (mul b c) /\
  (forall i, coeff (mul a [v]) i = coeff a i * v) /\
  mul a [1] = a.
Proof.
  assert (Hone : forall u i, coeff (mul a [u]) i = coeff a i * u).
  { intros u i. rewrite coeff_mul_sumf, sumf_last.
    - now rewrite Nat.sub_diag.
    - intros i0 Hi. rewrite (coeff_overflow [u]) by (simpl; lia). ring. }
  split; [|split; [apply Hone|]].
  - apply poly_eq.
    + change (size (mul (add a b) c) = size (add (mul a c) (mul b c))).
      rewrite size_add, !size_mul, size_add. unfold poly_size, size.
      destruct a as [|a0 a], b as [|b0 b], c as [|c0 c]; simpl;
        rewrite ?Nat.mul_0_r; simpl; try reflexivity;
        repeat match goal with
               | |- context [(0 <? ?n)%nat] =>
                   replace (0 <? n)%nat with true
                     by (symmetry; apply Nat.ltb_lt; lia)
               end; lia.
    + intros j. rewrite coeff_add, !coeff_mul_sumf, <- sumf_add.
      apply sumf_ext. intros i Hi. rewrite coeff_add. ring.
  - apply poly_eq.
    + change (size (mul a [1]) = size a). rewrite size_mul.
      destruct a as [|a0 a]; [reflexivity|]. apply poly_size_1. simpl. lia.
    + intros j. rewrite Hone. ring.
Qed.

End Poly.

(* ===================================================================== *)
(** * funclist.h *)
(* ===================================================================== *)

Module FList.

Local Open Scope string_scope.

(** Decimal digits printed as [operator<<] prints an [int] below ten. *)
Definition show_digit (n : nat) : string :=
  String (ascii_of_nat (48 + n)) "".

Section Lists.

Context {X : Type}.

(** A list is the generic lambda [(F f, A a) -> A] that folds itself from
    the right; [A] is the type of the accumulator the caller chooses. *)
Definition flist : Type := forall A : Type, (X -> A -> A) -> A -> A.

(** [empty = [](F, A a) -> A { return a; }] *)
Definition empty : flist := fun A f a => a.

(** [cons(x, l) = [x, l](F f, A a) -> A { return f(x, l(f, a)); }] *)
Definition cons (x : X) (l : flist) : flist :=
  fun A f a => f x (l A f a).

(** [detail::create()] and [detail::create(x, xs...)]: recursion on the
    parameter pack. *)
Fixpoint create (xs : list X) : flist :=
  match xs with
  | [] => empty
  | x :: xs' => cons x (create xs')
  end.

(** [concat(l, k)] folds [k] first and [l] over its result. *)
Definition concat (l k : flist) : flist :=
  fun A f a => l A f (k A f a).

(** [std::string::pop_back]: drops the last character. *)
Fixpoint pop_back (s : string) : string :=
  match s with
  | EmptyString => EmptyString
  | String c EmptyString => EmptyString
  | String c s' => String c (pop_back s')
  end.

(** [oss << x]: how an element is printed. *)
Variable show : X -> string.

(** The lambda handed to the list by [as_string].  It returns [0] and, as a
    side effect, appends ["x;"] to the vector [elements] it captured by
    reference.  The vector is threaded next to the [int] accumulator: the
    argument [l(f, a)] of [f(x, l(f, a))] is evaluated before the body of
    [f] runs, which is the order in which the pair is passed here. *)
Definition push_element (x : X) (acc : Z * list string) : Z * list string :=
  (0%Z, (snd acc ++ [show x +:+ ";"])%list).

(** [as_string(l)]. *)
Definition as_string (l : flist) : string :=
  let elements := snd (l (Z * list string)%type push_element (0%Z, [])) in
  (* for (it = elements.crbegin(); it != elements.crend(); ++it) result += *it; *)
  let result := fold_left (fun r e => r +:+ e) (rev elements) "[" in
  let result := if (1 <? String.length result)%nat then pop_back result
                else result in
  result +:+ "]".

(** The elements separated by [';'], as the specification writes them. *)
Fixpoint separated (ss : list string) : string :=
  match ss with
  | [] => ""
  | [s] => s
  | s :: ss' => s +:+ ";" +:+ separated ss'
  end.

(** Every element followed by [';']. *)
Definition terminated (xs : list X) : string :=
  fold_right (fun x r => (show x +:+ ";") +:+ r) "" xs.

Lemma append_nil_l (t : string) : "" +:+ t = t.
Proof. reflexivity. Qed.

Lemma append_cons (c : ascii) (s t : string) :
  String c s +:+ t = String c (s +:+ t).
Proof. reflexivity. Qed.

Lemma append_assoc (s t u : string) : (s +:+ t) +:+ u = s +:+ (t +:+ u).
Proof.
  induction s as [|c s IH]; [reflexivity|].
  rewrite !append_cons. now rewrite IH.
Qed.

Lemma append_empty_r (s : string) : s +:+ "" = s.
Proof.
  induction s as [|c s IH]; [reflexivity|].
  rewrite append_cons. now rewrite IH.
Qed.

Lemma length_append (s t : string) :
  String.length (s +:+ t) = (String.length s + String.length t)%nat.
Proof.
  induction s as [|c s IH]; [reflexivity|].
  rewrite append_cons. simpl. now rewrite IH.
Qed.

Lemma pop_back_snoc (s : string) (c : ascii) :
  pop_back (s +:+ String c "") = s.
Proof.
  induction s as [|d s IH]; [reflexivity|].
  rewrite append_cons. cbn [pop_back]. rewrite IH.
  destruct s; reflexivity.
Qed.

(** What the fold leaves in [elements]: the last element was pushed first. *)
Lemma elements_create (xs : list X) (n : Z) (es : list string) :
  snd (create xs _ push_element (n, es))
  = (es ++ rev (map (fun x => show x +:+ ";") xs))%list.
Proof.
  induction xs as [|x xs IH].
  - simpl. now rewrite app_nil_r.
  - change (create (x :: xs) _ push_element (n, es))
      with (push_element x (create xs _ push_element (n, es))).
    unfold push_element at 1. cbn [snd]. rewrite IH. simpl.
    now rewrite <- app_assoc.
Qed.

Lemma fold_left_append (es : list string) (r : string) :
  fold_left (fun r e => r +:+ e) es r
  = r +:+ fold_right (fun e r => e +:+ r) "" es.
Proof.
  revert r. induction es as [|e es IH]; intros r; simpl.
  - now rewrite append_empty_r.
  - rewrite IH. apply append_assoc.
Qed.

Lemma terminated_map (xs : list X) :
  fold_right (fun e r => e +:+ r) "" (map (fun x => show x +:+ ";") xs)
  = terminated xs.
Proof. induction xs as [|x xs IH]; simpl; [reflexivity|now rewrite IH]. Qed.

Lemma terminated_separated (x : X) (xs : list X) :
  terminated (x :: xs) = separated (map show (x :: xs)) +:+ ";".
Proof.
  revert x. induction xs as [|y xs IH]; intros x.
  - simpl. now rewrite append_empty_r.
  - change (terminated (x :: y :: xs))
      with ((show x +:+ ";") +:+ terminated (y :: xs)).
    rewrite IH. simpl map. cbn [separated].
    now rewrite !append_assoc.
Qed.

(** C10: for every finite sequence [x1, ..., xn] of printable elements,
    [as_string(create(x1, ..., xn))] is ["[x1;x2;...;xn]"], the elements
    printed in construction order and separated by [';'], and
    [as_string(empty)] is ["[]"]. *)
Theorem as_string_create (xs : list X) :
  as_string (create xs) = "[" +:+ separated (map show xs) +:+ "]" /\
  as_string empty = "[]".
Proof.
  split; [|reflexivity].
  unfold as_string. rewrite elements_create. simpl app.
  rewrite rev_involutive, fold_left_append, terminated_map.
  destruct xs as [|x xs]; [reflexivity|].
  rewrite terminated_separated.
  set (body := separated (map show (x :: xs))).
  replace (1 <? String.length ("[" +:+ body +:+ ";"))%nat with true.
  - rewrite <- (append_assoc "[" body ";"), pop_back_snoc.
    apply append_assoc.
  - symmetry. apply Nat.ltb_lt. rewrite !length_append. simpl. lia.
Qed.

End Lists.

Example as_string_123 :
  as_string show_digit (create [1; 2; 3]) = "[1;2;3]".
Proof. reflexivity. Qed.

Example as_string_concat :
  as_string show_digit (concat (create [1]) (create [2; 3])) = "[1;2;3]".
Proof. reflexivity. Qed.

End FList.

(* ===================================================================== *)
(** * funclist.h: the list transformers *)
(* ===================================================================== *)

Module FListOps.

Import FList.

Local Open Scope string_scope.

(** [of_range(range)]: [recursive_of_range(it)] returns [a] when
    [it == end] and otherwise, with [auto x{*it}],
    [f(x, recursive_of_range(++it))]; the iterator is the part of the range
    still ahead.  A range wrapped in
    [std::reference_wrapper] goes through the same code. *)
Definition of_range {X : Type} (range : list X) : @flist X :=
  fun A f a =>
    (fix recursive_of_range (it : list X) : A :=
       match it with
       | [] => a
       | x :: it' => f x (recursive_of_range it')
       end) range.

(** [rev(l)]: [l] is folded with [phi(x, alpha) = [](A a) { return
    alpha(f(x, a)); }] from the identity [alpha_0], and the function it
    yields is applied to [a]. *)
Definition rev {X : Type} (l : @flist X) : @flist X :=
  fun A f a =>
    let alpha_0 : A -> A := fun a => a in
    let phi : X -> (A -> A) -> (A -> A) :=
      fun x alpha => fun a => alpha (f x a) in
    l (A -> A) phi alpha_0 a.

(** [map(m, l)]: [l] folded with [(x, a) -> f(m(x), a)]. *)
Definition map {X Y : Type} (m : X -> Y) (l : @flist X) : @flist Y :=
  fun A f a => l A (fun x a => f (m x) a) a.

(** [filter(p, l)]: [l] folded with [(x, a) -> p(x) ? f(x, a) : a]. *)
Definition filter {X : Type} (p : X -> bool) (l : @flist X) : @flist X :=
  fun A f a => l A (fun x a => if p x then f x a else a) a.

(** [flatten(ll)]: [ll] folded with [(l, a) -> l(f, a)]. *)
Definition flatten {X : Type} (ll : @flist (@flist X)) : @flist X :=
  fun A f a => ll A (fun l a => l A f a) a.

(** [l] is the list of the elements [xs]: whatever it is folded with, it
    yields what the right fold of [xs] yields. *)
Definition denotes {X : Type} (l : @flist X) (xs : list X) : Prop :=
  forall (A : Type) (f : X -> A -> A) (a : A), l A f a = fold_right f a xs.

Lemma denotes_create {X : Type} (xs : list X) : denotes (create xs) xs.
Proof.
  intros A f a. induction xs as [|x xs IH]; [reflexivity|].
  cbn [create fold_right]. unfold cons. now rewrite IH.
Qed.

Lemma denotes_of_range {X : Type} (xs : list X) : denotes (of_range xs) xs.
Proof.
  intros A f a. unfold of_range.
  induction xs as [|x xs IH]; [reflexivity|]. cbn [fold_right]. now rewrite IH.
Qed.

Lemma denotes_concat {X : Type} (l k : @flist X) xs ys :
  denotes l xs -> denotes k ys -> denotes (concat l k) (xs ++ ys)%list.
Proof.
  intros Hl Hk A f a. unfold concat. rewrite Hk, Hl.
  symmetry. apply fold_right_app.
Qed.

Lemma fold_right_phi {X A : Type} (f : X -> A -> A) (xs : list X)
    (alpha : A -> A) (a : A) :
  fold_right (fun x (alpha : A -> A) => fun a => alpha (f x a)) alpha xs a
  = alpha (fold_right f a (List.rev xs)).
Proof.
  revert a. induction xs as [|x xs IH]; intros a; [reflexivity|].
  cbn [fold_right List.rev]. rewrite IH, fold_right_app. reflexivity.
Qed.

Lemma denotes_rev {X : Type} (l : @flist X) xs :
  denotes l xs -> denotes (rev l) (List.rev xs).
Proof.
  intros Hl A f a. unfold rev. cbv zeta. rewrite Hl.
  apply (fold_right_phi f xs (fun a => a)).
Qed.

Lemma denotes_map {X Y : Type} (m : X -> Y) (l : @flist X) xs :
  denotes l xs -> denotes (map m l) (List.map m xs).
Proof.
  intros Hl A f a. unfold map. rewrite Hl. clear Hl.
  induction xs as [|x xs IH]; [reflexivity|]. cbn [List.map fold_right].
  now rewrite IH.
Qed.

Lemma denotes_filter {X : Type} (p : X -> bool) (l : @flist X) xs :
  denotes l xs -> denotes (filter p l) (List.filter p xs).
Proof.
  intros Hl A f a. unfold filter. rewrite Hl. clear Hl.
  induction xs as [|x xs IH]; [reflexivity|]. cbn [List.filter fold_right].
  destruct (p x); cbn [fold_right]; now rewrite IH.
Qed.

Lemma denotes_flatten {X : Type} (ll : @flist (@flist X)) ls xss :
  denotes ll ls -> Forall2 denotes ls xss ->
  denotes (flatten ll) (List.concat xss).
Proof.
  intros Hll Hls A f a. unfold flatten. rewrite Hll. clear Hll.
  induction Hls as [|l xs ls xss Hl Hls IH]; [reflexivity|].
  cbn [fold_right List.concat]. rewrite IH, Hl, fold_right_app.
  reflexivity.
Qed.

Lemma as_string_denotes {X : Type} (show : X -> string) (l : @flist X) xs :
  denotes l xs ->
  as_string show l = "[" +:+ separated (List.map show xs) +:+ "]".
Proof.
  intros Hl.
  assert (He : l _ (push_element show) (0%Z, [])
               = create xs _ (push_element show) (0%Z, []))
    by now rewrite Hl, denotes_create.
  unfold as_string. rewrite He, elements_create. simpl app.
  rewrite rev_involutive, fold_left_append, terminated_map.
  destruct xs as [|x xs]; [reflexivity|].
  rewrite terminated_separated.
  set (body := separated (List.map show (x :: xs))).
  replace (1 <? String.length ("[" +:+ body +:+ ";"))%nat with true.
  - rewrite <- (append_assoc "[" body ";"), pop_back_snoc.
    apply append_assoc.
  - symmetry. apply Nat.ltb_lt. rewrite !length_append. simpl. lia.
Qed.

(** X10.  [of_range(r)] is the list of the elements of the range [r] in
    the order of the range: folded with any [f] and [a] it yields the right
    fold of [r], which is what [create] applied to the same elements
    yields. *)
Theorem of_range_is_create {X : Type} (r : list X) :
  denotes (of_range r) r /\
  forall (A : Type) (f : X -> A -> A) (a : A),
    of_range r A f a = create r A f a.
Proof.
  split; [apply denotes_of_range|].
  intros A f a. now rewrite denotes_of_range, denotes_create.
Qed.

(** X11.  [concat(l, k)] is [l] followed by [k]; [empty] is neutral on
    both sides and [concat] is associative. *)
Theorem concat_appends {X : Type} (l k m : @flist X) (xs ys : list X) :
  denotes l xs -> denotes k ys ->
  denotes (concat l k) (xs ++ ys)%list /\
  concat empty l = l /\ concat l empty = l /\
  concat (concat l k) m = concat l (concat k m).
Proof.
  intros Hl Hk. split; [now apply denotes_concat|].
  repeat split; reflexivity.
Qed.

Lemma concat_appends_witness :
  denotes (concat (create [1; 2]) (create [3])) ([1; 2] ++ [3])%list /\
  concat empty (create [1; 2]) = create [1; 2] /\
  concat (create [1; 2]) empty = create [1; 2] /\
  concat (concat (create [1; 2]) (create [3])) (create [4])
  = concat (create [1; 2]) (concat (create [3]) (create [4])).
Proof.
  apply (concat_appends (create [1; 2]) (create [3]) (create [4]) [1; 2] [3]);
    intros A f a; reflexivity.
Defined.

(** X12.  [rev(l)] is [l] in the opposite order, and reversing twice gives
    the elements of [l] back in their order. *)
Theorem rev_reverses {X : Type} (l : @flist X) (xs : list X) :
  denotes l xs ->
  denotes (rev l) (List.rev xs) /\ denotes (rev (rev l)) xs.
Proof.
  intros Hl. split; [now apply denotes_rev|].
  rewrite <- (rev_involutive xs). now apply denotes_rev, denotes_rev.
Qed.

Lemma rev_reverses_witness :
  denotes (rev (create [1; 2; 3])) (List.rev [1; 2; 3]) /\
  denotes (rev (rev (create [1; 2; 3]))) [1; 2; 3].
Proof.
  apply (rev_reverses (create [1; 2; 3]) [1; 2; 3]).
  intros A f a. reflexivity.
Defined.

(** X13.  [map(m, l)] holds the images by [m] of the elements of [l], in
    their order; [filter(p, l)] holds the elements of [l] that satisfy [p],
    in their order; mapping twice is mapping the composition. *)
Theorem map_filter_elements {X Y W : Type}
    (m : X -> Y) (g : Y -> W) (p : X -> bool) (l : @flist X) (xs : list X) :
  denotes l xs ->
  denotes (map m l) (List.map m xs) /\
  denotes (filter p l) (List.filter p xs) /\
  map g (map m l) = map (fun x => g (m x)) l.
Proof.
  intros Hl. split; [now apply denotes_map|].
  split; [now apply denotes_filter|reflexivity].
Qed.

Lemma map_filter_elements_witness :
  denotes (map S (create [1; 2; 3])) (List.map S [1; 2; 3]) /\
  denotes (filter Nat.even (create [1; 2; 3])) (List.filter Nat.even [1; 2; 3]) /\
  map S (map S (create [1; 2; 3])) = map (fun x => S (S x)) (create [1; 2; 3]).
Proof.
  apply (map_filter_elements S S Nat.even (create [1; 2; 3]) [1; 2; 3]).
  intros A f a. reflexivity.
Defined.

(** X14.  [flatten(ll)] is the concatenation of the lists that [ll] holds,
    in their order. *)
Theorem flatten_concatenates {X : Type}
    (ll : @flist (@flist X)) (ls : list (@flist X)) (xss : list (list X)) :
  denotes ll ls -> Forall2 denotes ls xss ->
  denotes (flatten ll) (List.concat xss).
Proof. apply denotes_flatten. Qed.

Lemma flatten_concatenates_witness :
  denotes (flatten (create [create [1; 2]; empty; create [3]]))
          (List.concat [[1; 2]; []; [3]]).
Proof.
  apply (flatten_concatenates
           (create [create [1; 2]; empty; create [3]])
           [create [1; 2]; empty; create [3]] [[1; 2]; []; [3]]).
  - intros A f a. reflexivity.
  - repeat constructor; intros A f a; reflexivity.
Defined.

(** X15.  [as_string] prints a list, however it was built, as its
    elements in their order, separated by [';'] and enclosed in brackets:
    the fold pushes the elements last to first and the loop reads the
    vector backwards.  So [as_string(rev(l))] prints the elements of [l]
    last to first. *)
Theorem as_string_elements {X : Type} (show : X -> string)
    (l : @flist X) (xs : list X) :
  denotes l xs ->
  as_string show l = "[" +:+ separated (List.map show xs) +:+ "]" /\
  as_string show (rev l)
  = "[" +:+ separated (List.map show (List.rev xs)) +:+ "]".
Proof.
  intros Hl. split; apply as_string_denotes; [exact Hl|].
  now apply denotes_rev.
Qed.

Lemma as_string_elements_witness :
  as_string show_digit (filter Nat.odd (of_range [1; 2; 3]))
  = "[" +:+ separated (List.map show_digit [1; 3]) +:+ "]" /\
  as_string show_digit (rev (filter Nat.odd (of_range [1; 2; 3])))
  = "[" +:+ separated (List.map show_digit (List.rev [1; 3])) +:+ "]".
Proof.
  apply (as_string_elements show_digit
           (filter Nat.odd (of_range [1; 2; 3])) [1; 3]).
  intros A f a. reflexivity.
Defined.

End FListOps.

(* ===================================================================== *)
(** * binder.h *)
(* ===================================================================== *)

Module Binder.

(** The exceptions the container lets escape: the [std::invalid_argument]
    it throws itself, with its message, and what an allocation (or a copy of
    a key or of a value) may throw. *)
Inductive exn :=
| invalid_argument (what : string)
| bad_alloc.

(** Addresses of [data_t] objects and names of [binder] objects. *)
Abbreviation ptr := nat.
Abbreviation var := string.

Section Container.

Context {K V : Type} `{Countable K}.

(** ** The data model *)

(** One node of [notes_t = std::list<std::pair<const K*, V>>].  [node] is
    the identity of the list node, which is what a list iterator designates
    and what stays valid while other nodes are inserted or erased; it is
    unique within one list.  [first] is the [const K*]: [None] is [nullptr],
    [Some k] points at the key [k] stored in the index. *)
Record note := Note { node : nat; first : option K; second : V }.

(** [struct data_t]: [index_t = std::map<K, notes_t::iterator>]. *)
Record data_t := Data { notes : list note; index : gmap K nat }.

(** What a [std::shared_ptr<data_t>] owns: the object and the control
    block's owner count. *)
Record cell := Cell { object : data_t; use_count : nat }.

(** [class binder]: [data] is a [shared_ptr] ([None] is [nullptr]). *)
Record binder := Binder { data : option ptr; unsharable : bool }.

(** The memory ([heap]), the [binder] objects alive ([vars]) and the plan
    of failures: every operation that may throw takes the head of [faults]
    and throws when it is [true]. *)
Record state := State {
  heap : gmap ptr cell;
  vars : gmap var binder;
  faults : list bool
}.

(** ** Computations that may throw *)

Inductive outcome (A : Type) :=
| Return (a : A) (s : state)
| Throw (e : exn) (s : state)
| Undefined.
Arguments Return {A} a s.
Arguments Throw {A} e s.
Arguments Undefined {A}.

Definition M (A : Type) : Type := state -> outcome A.

#[local] Instance M_ret : MRet M := fun A a s => Return a s.

#[local] Instance M_bind : MBind M := fun A B k m s =>
  match m s with
  | Return a s' => k a s'
  | Throw e s' => Throw e s'
  | Undefined => Undefined
  end.

Definition throw {A} (e : exn) : M A := fun s => Throw e s.

(** Behaviour the language leaves undefined (a null or dangling pointer is
    dereferenced). *)
Definition undefined {A} : M A := fun _ => Undefined.

(** A point where an exception may be raised. *)
Definition may_throw : M unit := fun s =>
  match faults s with
  | true :: fs => Throw bad_alloc (State (heap s) (vars s) fs)
  | false :: fs => Return () (State (heap s) (vars s) fs)
  | [] => Return () s
  end.

(** [try { m } catch (...) { h; throw; }] *)
Definition try_catch_rethrow {A} (m : M A) (h : M unit) : M A := fun s =>
  match m s with
  | Throw e s' =>
      match h s' with
      | Return _ s'' => Throw e s''
      | Throw e' s'' => Throw e' s''
      | Undefined => Undefined
      end
  | r => r
  end.

Definition get_var (x : var) : M binder := fun s =>
  match vars s !! x with
  | Some b => Return b s
  | None => Undefined
  end.

Definition set_var (x : var) (b : binder) : M unit := fun s =>
  Return () (State (heap s) (<[x := b]> (vars s)) (faults s)).

Definition unset_var (x : var) : M unit := fun s =>
  Return () (State (heap s) (delete x (vars s)) (faults s)).

Definition get_cell (p : ptr) : M cell := fun s =>
  match heap s !! p with
  | Some c => Return c s
  | None => Undefined
  end.

Definition set_cell (p : ptr) (c : cell) : M unit := fun s =>
  Return () (State (<[p := c]> (heap s)) (vars s) (faults s)).

Definition free_cell (p : ptr) : M unit := fun s =>
  Return () (State (delete p (heap s)) (vars s) (faults s)).

(** [new]: a fresh address, owned once. *)
Definition alloc (d : data_t) : M ptr := fun s =>
  let p := fresh (dom (heap s)) in
  Return p (State (<[p := Cell d 1]> (heap s)) (vars s) (faults s)).

Definition get_object (p : ptr) : M data_t :=
  c ← get_cell p; mret (object c).

Definition set_object (p : ptr) (d : data_t) : M unit :=
  c ← get_cell p; set_cell p (Cell d (use_count c)).

(** ** [std::shared_ptr] *)

(** [operator->] *)
Definition sp_deref (sp : option ptr) : M ptr :=
  match sp with
  | Some p => mret p
  | None => undefined
  end.

(** [use_count()] is [0] for an empty pointer. *)
Definition sp_use_count (sp : option ptr) : M nat :=
  match sp with
  | Some p => c ← get_cell p; mret (use_count c)
  | None => mret 0
  end.

(** Copy construction: one more owner. *)
Definition sp_copy (sp : option ptr) : M (option ptr) :=
  match sp with
  | Some p =>
      c ← get_cell p;
      set_cell p (Cell (object c) (S (use_count c)));;
      mret (Some p)
  | None => mret None
  end.

(** Destruction or reset: one owner less, the last one deletes the object. *)
Definition sp_release (sp : option ptr) : M unit :=
  match sp with
  | Some p =>
      c ← get_cell p;
      if use_count c <=? 1 then free_cell p
      else set_cell p (Cell (object c) (use_count c - 1))
  | None => mret ()
  end.

(** The scope of a local [shared_ptr]: when an exception leaves [body], the
    local is destroyed on the way out. *)
Definition with_local {A} (sp : option ptr) (body : M A) : M A :=
  try_catch_rethrow body (sp_release sp).

(** [std::make_shared<data_t>()] *)
Definition make_shared : M ptr :=
  may_throw;; alloc (Data [] ∅).

(** ** [std::list] and [std::map] *)

(** The node a fresh allocation returns is none of the list's nodes. *)
Definition new_node (l : list note) : nat := S (max_list (node <$> l)).

Definition find_node (it : nat) (l : list note) : option note :=
  List.find (fun n => node n =? it) l.

(** [l.insert(std::next(it), x)]: [x] is linked right after the node [it]. *)
Fixpoint insert_after_node (it : nat) (x : note) (l : list note)
  : option (list note) :=
  match l with
  | [] => None
  | n :: l' =>
      if node n =? it then Some (n :: x :: l')
      else (cons n) <$> insert_after_node it x l'
  end.

(** [l.erase(it)] *)
Fixpoint erase_node (it : nat) (l : list note) : option (list note) :=
  match l with
  | [] => None
  | n :: l' =>
      if node n =? it then Some l'
      else (cons n) <$> erase_node it l'
  end.

(** [it->first = kp] *)
Definition set_first (it : nat) (kp : option K) (l : list note) : list note :=
  (fun n => if node n =? it then Note (node n) kp (second n) else n) <$> l.

(** [it->second = v] *)
Definition set_second (it : nat) (v : V) (l : list note) : list note :=
  (fun n => if node n =? it then Note (node n) (first n) v else n) <$> l.

(** [index.contains(k)] *)
Definition contains (k : K) (idx : gmap K nat) : bool :=
  match idx !! k with
  | Some _ => true
  | None => false
  end.

(** [&index.emplace(k, it).first->first]: the entry is added unless the key
    is there already; either way the result points at the entry's key. *)
Definition emplace (k : K) (it : nat) (idx : gmap K nat)
  : gmap K nat * option K :=
  match idx !! k with
  | Some _ => (idx, Some k)
  | None => (<[k := it]> idx, Some k)
  end.

(** ** [data_t(const data_t &other)] *)

(** [notes(other.notes)]: the list is copied node by node. *)
Fixpoint copy_notes (l : list note) : M (list note) :=
  match l with
  | [] => mret []
  | n :: l' => may_throw;; r ← copy_notes l'; mret (n :: r)
  end.

(** [for (it = notes.begin(); it != notes.end(); ++it)
       it->first = &index.emplace(key, it).first->first;]
    where [key] is what [it->first] points at. *)
Fixpoint rebuild_index (l : list note) (idx : gmap K nat)
  : M (list note * gmap K nat) :=
  match l with
  | [] => mret ([], idx)
  | n :: l' =>
      match first n with
      | None => undefined
      | Some k =>
          may_throw;;
          let r := emplace k (node n) idx in
          rest ← rebuild_index l' (fst r);
          mret (Note (node n) (snd r) (second n) :: fst rest, snd rest)
      end
  end.

(** The copy constructor.  When the loop throws, the handler clears the
    half-built object and rethrows: no object comes into existence. *)
Definition copy_data (other : data_t) : M data_t :=
  ns ← copy_notes (notes other);
  r ← rebuild_index ns ∅;
  mret (Data (fst r) (snd r)).

(** [std::make_shared<data_t>] applied to [*data]: the copy constructor
    runs in freshly allocated memory. *)
Definition make_shared_copy (p : ptr) : M ptr :=
  other ← get_object p;
  may_throw;;
  d ← copy_data other;
  alloc d.

(** ** The private members *)

(** [going_to_edit()] *)
Definition going_to_edit (this : var) : M (option ptr) :=
  b ← get_var this;
  n ← sp_use_count (data b);
  if 1 <? n then
    p ← sp_deref (data b);
    p' ← make_shared_copy p;
    mret (Some p')
  else sp_copy (data b).

(** [successful_edit(new_data)]: [data = std::move(new_data)] hands the
    ownership of [new_data] over and gives up what [data] owned. *)
Definition successful_edit (this : var) (new_data : option ptr) : M unit :=
  b ← get_var this;
  set_var this (Binder new_data false);;
  sp_release (data b).

(** ** Construction, assignment, destruction *)

(** A new object named [x] comes to life with the value its constructor
    computed. *)
Definition declare (x : var) (b : binder) : M unit := fun s =>
  match vars s !! x with
  | Some _ => Undefined
  | None => Return () (State (heap s) (<[x := b]> (vars s)) (faults s))
  end.

(** [binder() = default] *)
Definition default_construct : M binder := mret (Binder None false).

(** [binder(const binder &other)]; the member initialiser leaves
    [unsharable] at [false]. *)
Definition copy_construct (other : var) : M binder :=
  o ← get_var other;
  if unsharable o && bool_decide (data o <> None) then
    p ← sp_deref (data o);
    p' ← make_shared_copy p;
    mret (Binder (Some p') false)
  else
    d ← sp_copy (data o);
    mret (Binder d false).

(** [binder(binder &&other) noexcept]: [data(std::move(other.data))] leaves
    [other.data] empty, [unsharable(other.unsharable)] copies the flag. *)
Definition move_construct (other : var) : M binder :=
  o ← get_var other;
  set_var other (Binder None (unsharable o));;
  mret (Binder (data o) (unsharable o)).

(** [~binder()] on a value about to disappear. *)
Definition destruct_value (b : binder) : M unit := sp_release (data b).

(** [binder &operator=(binder other) noexcept]: the parameter [other] was
    built by the caller, is swapped with and dies at the end. *)
Definition assign (this : var) (other : binder) : M unit :=
  t ← get_var this;
  (* data.swap(other.data); unsharable = false; *)
  set_var this (Binder (data other) false);;
  destruct_value (Binder (data t) (unsharable other)).

(** [x = y] and [x = std::move(y)]. *)
Definition copy_assign (this other : var) : M unit :=
  o ← copy_construct other; assign this o.

Definition move_assign (this other : var) : M unit :=
  o ← move_construct other; assign this o.

(** A named object goes out of scope. *)
Definition destroy (x : var) : M unit :=
  b ← get_var x;
  unset_var x;;
  destruct_value b.

(** ** The public members *)

(** [sp && sp->index.contains(k)] *)
Definition has_key (sp : option ptr) (k : K) : M bool :=
  match sp with
  | Some p => d ← get_object p; mret (contains k (index d))
  | None => mret false
  end.

(** The part of [insert_front] that works on [new_data]. *)
Definition insert_front_body (new_data : option ptr) (k : K) (v : V)
  : M unit :=
  p ← sp_deref new_data;
  (* new_data->notes.emplace_front(nullptr, v); *)
  d ← get_object p;
  may_throw;;
  set_object p (Data (Note (new_node (notes d)) None v :: notes d) (index d));;
  try_catch_rethrow
    ((* begin()->first = &index.emplace(k, begin()).first->first; *)
     d1 ← get_object p;
     match notes d1 with
     | [] => undefined
     | b :: rest =>
         may_throw;;
         let r := emplace k (node b) (index d1) in
         set_object p (Data (Note (node b) (snd r) (second b) :: rest) (fst r))
     end)
    ((* new_data->notes.pop_front(); *)
     d2 ← get_object p;
     match notes d2 with
     | [] => undefined
     | _ :: rest => set_object p (Data rest (index d2))
     end).

(** [void insert_front(const K &k, const V &v)] *)
Definition insert_front (this : var) (k : K) (v : V) : M unit :=
  b ← get_var this;
  dup ← has_key (data b) k;
  if (dup : bool) then throw (invalid_argument "Key already exists")
  else
    match data b with
    | None =>
        (* data = std::make_shared<data_t>(); *)
        p ← make_shared;
        set_var this (Binder (Some p) (unsharable b))
    | Some _ => mret ()
    end;;
    new_data ← going_to_edit this;
    with_local new_data (insert_front_body new_data k v);;
    successful_edit this new_data.

(** The part of [insert_after] that works on [new_data]. *)
Definition insert_after_body (new_data : option ptr) (prev_k k : K) (v : V)
  : M unit :=
  p ← sp_deref new_data;
  d ← get_object p;
  (* prev_it = index.find(prev_k); prev_it->second is read below *)
  match index d !! prev_k with
  | None => undefined
  | Some prev =>
      (* it = notes.insert(std::next(prev_it->second), {nullptr, v}); *)
      may_throw;;
      let it := new_node (notes d) in
      match insert_after_node prev (Note it None v) (notes d) with
      | None => undefined
      | Some l =>
          set_object p (Data l (index d));;
          try_catch_rethrow
            ((* it->first = &index.emplace(k, it).first->first; *)
             d1 ← get_object p;
             may_throw;;
             let r := emplace k it (index d1) in
             set_object p (Data (set_first it (snd r) (notes d1)) (fst r)))
            ((* new_data->notes.erase(it); *)
             d2 ← get_object p;
             match erase_node it (notes d2) with
             | None => undefined
             | Some l2 => set_object p (Data l2 (index d2))
             end)
      end
  end.

(** [void insert_after(const K &prev_k, const K &k, const V &v)] *)
Definition insert_after (this : var) (prev_k k : K) (v : V) : M unit :=
  b ← get_var this;
  found ← has_key (data b) prev_k;
  if negb (found : bool) then throw (invalid_argument "Prev_key not found")
  else
    dup ← has_key (data b) k;
    if (dup : bool) then throw (invalid_argument "Key already exists")
    else
      new_data ← going_to_edit this;
      with_local new_data (insert_after_body new_data prev_k k v);;
      successful_edit this new_data.

(** The part of [remove(k)] that works on [new_data]. *)
Definition remove_body (new_data : option ptr) (k : K) : M unit :=
  p ← sp_deref new_data;
  d ← get_object p;
  match index d !! k with
  | None => undefined
  | Some it_notes =>
      (* new_data->index.erase(it_index); *)
      set_object p (Data (notes d) (delete k (index d)));;
      (* new_data->notes.erase(it_notes); *)
      d1 ← get_object p;
      match erase_node it_notes (notes d1) with
      | None => undefined
      | Some l => set_object p (Data l (index d1))
      end
  end.

(** [void remove(const K &k)] *)
Definition remove_key (this : var) (k : K) : M unit :=
  b ← get_var this;
  found ← has_key (data b) k;
  if negb (found : bool) then throw (invalid_argument "Key not found")
  else
    new_data ← going_to_edit this;
    with_local new_data (remove_body new_data k);;
    successful_edit this new_data.

(** [std::size_t size() const noexcept] *)
Definition size (this : var) : M nat :=
  b ← get_var this;
  match data b with
  | None => mret 0
  | Some p => d ← get_object p; mret (length (notes d))
  end.

(** [void remove()]: the key handed to [remove(k)] is the one the first
    note points at. *)
Definition remove (this : var) : M unit :=
  n ← size this;
  if n =? 0 then throw (invalid_argument "Empty binder")
  else
    b ← get_var this;
    p ← sp_deref (data b);
    d ← get_object p;
    match notes d with
    | [] => undefined
    | front :: _ =>
        match first front with
        | None => undefined
        | Some k => remove_key this k
        end
    end.

(** A reference to the value of a note: the object it lives in and its
    node. *)
Definition ref : Type := ptr * nat.

(** Reading and writing through a reference. *)
Definition ref_get (r : ref) : M V :=
  d ← get_object (fst r);
  match find_node (snd r) (notes d) with
  | Some n => mret (second n)
  | None => undefined
  end.

Definition ref_set (r : ref) (v : V) : M unit :=
  d ← get_object (fst r);
  match find_node (snd r) (notes d) with
  | Some _ => set_object (fst r) (Data (set_second (snd r) v (notes d)) (index d))
  | None => undefined
  end.

(** [it_index->second->second] as a reference. *)
Definition value_ref (p : ptr) (it_index : option nat) : M ref :=
  match it_index with
  | None => undefined
  | Some it_notes =>
      d ← get_object p;
      match find_node it_notes (notes d) with
      | Some _ => mret (p, it_notes)
      | None => undefined
      end
  end.

(** [V &read(const K &k)] *)
Definition read (this : var) (k : K) : M ref :=
  b ← get_var this;
  found ← has_key (data b) k;
  if negb (found : bool) then throw (invalid_argument "Key not found")
  else
    new_data ← going_to_edit this;
    it_index ← with_local new_data
      (p ← sp_deref new_data; d ← get_object p; mret (p, index d !! k));
    successful_edit this new_data;;
    (* unsharable = true; *)
    b' ← get_var this;
    set_var this (Binder (data b') true);;
    value_ref (fst it_index) (snd it_index).

(** [const V &read(const K &k) const] *)
Definition read_const (this : var) (k : K) : M ref :=
  b ← get_var this;
  found ← has_key (data b) k;
  if negb (found : bool) then throw (invalid_argument "Key not found")
  else
    p ← sp_deref (data b);
    d ← get_object p;
    value_ref p (index d !! k).

(** [void clear() noexcept] *)
Definition clear (this : var) : M unit :=
  b ← get_var this;
  set_var this (Binder None false);;
  sp_release (data b).

(** ** [const_iterator] *)

(** A [notes_t::const_iterator]: default-constructed, at a node of the list
    of an object, or past its end. *)
Inductive list_iterator :=
| singular
| at_node (p : ptr) (n : nat)
| past_end (p : ptr).

Record const_iterator := ConstIterator {
  it : list_iterator;
  null_data : bool
}.

Definition list_begin (p : ptr) (l : list note) : list_iterator :=
  match l with
  | [] => past_end p
  | n :: _ => at_node p (node n)
  end.

Definition list_iterator_eqb (a b : list_iterator) : bool :=
  match a, b with
  | singular, singular => true
  | at_node p n, at_node q m => (p =? q) && (n =? m)
  | past_end p, past_end q => p =? q
  | _, _ => false
  end.

(** [cbegin()] and [cend()] *)
Definition cbegin (this : var) : M const_iterator :=
  b ← get_var this;
  match data b with
  | None => mret (ConstIterator singular true)
  | Some p => d ← get_object p; mret (ConstIterator (list_begin p (notes d)) false)
  end.

Definition cend (this : var) : M const_iterator :=
  b ← get_var this;
  match data b with
  | None => mret (ConstIterator singular true)
  | Some p => mret (ConstIterator (past_end p) false)
  end.

(** [operator==] *)
Definition iterator_eqb (a b : const_iterator) : bool :=
  if null_data a || null_data b then eqb (null_data a) (null_data b)
  else list_iterator_eqb (it a) (it b).

(** The successor of node [n] in the list. *)
Fixpoint next_node (p : ptr) (n : nat) (l : list note) : option list_iterator :=
  match l with
  | [] => None
  | x :: l' => if node x =? n then Some (list_begin p l') else next_node p n l'
  end.

(** [operator++] *)
Definition increment (a : const_iterator) : M const_iterator :=
  match it a with
  | at_node p n =>
      d ← get_object p;
      match next_node p n (notes d) with
      | Some i => mret (ConstIterator i (null_data a))
      | None => undefined
      end
  | _ => undefined
  end.

(** [operator*] *)
Definition dereference (a : const_iterator) : M V :=
  match it a with
  | at_node p n => ref_get (p, n)
  | _ => undefined
  end.

(** [for (i = b; i != e; ++i) out.push_back( *i );], at most [fuel] rounds. *)
Fixpoint iterate_loop (fuel : nat) (i e : const_iterator) : M (list V) :=
  if iterator_eqb i e then mret []
  else
    match fuel with
    | O => undefined
    | S fuel' =>
        v ← dereference i;
        i' ← increment i;
        r ← iterate_loop fuel' i' e;
        mret (v :: r)
    end.

(** The values met from [cbegin()] to [cend()]. *)
Definition iterate (this : var) : M (list V) :=
  i ← cbegin this;
  e ← cend this;
  n ← size this;
  iterate_loop n i e.

(** ** Programs over several binders *)

(** The entries of a binder in list order, each with the key its note
    points at. *)
Definition entries (d : data_t) : list (option K * V) :=
  (fun n => (first n, second n)) <$> notes d.

Definition contents (this : var) : M (list (option K * V)) :=
  b ← get_var this;
  match data b with
  | None => mret []
  | Some p => d ← get_object p; mret (entries d)
  end.

(** The keys of a binder in list order. *)
Definition keys (this : var) : M (list (option K)) :=
  es ← contents this; mret (fst <$> es).

(** [this.read(k)] read through: the value the reference designates. *)
Definition read_value (this : var) (k : K) : M V :=
  r ← read this k; ref_get r.

Definition read_const_value (this : var) (k : K) : M V :=
  r ← read_const this k; ref_get r.

(** What client code can do with binders and the references it was given. *)
Inductive call :=
| DefaultConstruct (x : var)
| CopyConstruct (x other : var)
| MoveConstruct (x other : var)
| CopyAssign (this other : var)
| MoveAssign (this other : var)
| Destroy (x : var)
| InsertFront (this : var) (k : K) (v : V)
| InsertAfter (this : var) (prev_k k : K) (v : V)
| Remove (this : var)
| RemoveKey (this : var) (k : K)
| Read (this : var) (k : K)
| ReadConst (this : var) (k : K)
| Size (this : var)
| Clear (this : var)
| Write (r : ref) (v : V).

Definition exec (c : call) : M unit :=
  match c with
  | DefaultConstruct x => b ← default_construct; declare x b
  | CopyConstruct x other => b ← copy_construct other; declare x b
  | MoveConstruct x other => b ← move_construct other; declare x b
  | CopyAssign this other => copy_assign this other
  | MoveAssign this other => move_assign this other
  | Destroy x => destroy x
  | InsertFront this k v => insert_front this k v
  | InsertAfter this prev_k k v => insert_after this prev_k k v
  | Remove this => remove this
  | RemoveKey this k => remove_key this k
  | Read this k => read this k;; mret ()
  | ReadConst this k => read_const this k;; mret ()
  | Size this => size this;; mret ()
  | Clear this => clear this
  | Write r v => ref_set r v
  end.

(** The state the client goes on with: the one a call returned or threw in;
    a call with undefined behaviour is not made. *)
Definition after {A} (o : outcome A) (s : state) : state :=
  match o with
  | Return _ s' => s'
  | Throw _ s' => s'
  | Undefined => s
  end.

Fixpoint run (cs : list call) (s : state) : state :=
  match cs with
  | [] => s
  | c :: cs' => run cs' (after (exec c s) s)
  end.

(** No object, no binder; [fs] is the plan of failures. *)
Definition initial (fs : list bool) : state := State ∅ ∅ fs.

(** The result of a computation, when it returns. *)
Definition result {A} (o : outcome A) : option A :=
  match o with
  | Return a _ => Some a
  | _ => None
  end.

(** The exception of a computation, when it throws. *)
Definition thrown {A} (o : outcome A) : option exn :=
  match o with
  | Throw e _ => Some e
  | _ => None
  end.

(** ** Reasoning about computations *)

(** [wp m Q E h v]: from the memory [h] and the binders [v], whatever the
    plan of failures, [m] has defined behaviour, [Q] holds of its result and
    final state when it returns and [E] of the exception and final state when
    it throws. *)
Definition wp {A} (m : M A)
    (Q : A -> gmap ptr cell -> gmap var binder -> Prop)
    (E : exn -> gmap ptr cell -> gmap var binder -> Prop)
    (h : gmap ptr cell) (v : gmap var binder) : Prop :=
  forall fs,
    match m (State h v fs) with
    | Return a s => Q a (heap s) (vars s)
    | Throw e s => E e (heap s) (vars s)
    | Undefined => False
    end.

(** The state is the one given. *)
Definition same (h : gmap ptr cell) (v : gmap var binder)
  : gmap ptr cell -> gmap var binder -> Prop :=
  fun h' v' => h' = h /\ v' = v.

(** ** Well-formed objects *)

(** The bijection between the list and the index: the nodes of the list are
    distinct, so are the keys the notes point at, no note holds a null
    pointer, and the index maps a key to a node exactly when that node's note
    points at that key. *)
Definition data_wf (d : data_t) : Prop :=
  NoDup (node <$> notes d) /\
  NoDup (first <$> notes d) /\
  Forall (fun n => is_Some (first n)) (notes d) /\
  forall k i, index d !! k = Some i <-> exists x, Note i (Some k) x ∈ notes d.

(** ** Ownership *)

(** [owners v p]: how many of the binders [v] hold the object at [p]. *)
Definition owners (v : gmap var binder) (p : ptr) : nat :=
  base.size (filter (fun xb : var * binder => data xb.2 = Some p) v).

(** Whether the pointer [o] holds the object at [p], as a number. *)
Definition owns (p : ptr) (o : option ptr) : nat :=
  if decide (o = Some p) then 1 else 0.

(** How many of the pointers [t] are [p]; [t] lists the [shared_ptr]s that
    live outside binders while a member runs (the local [new_data], the
    parameter of [operator=]). *)
Definition tcount (p : ptr) (t : list (option ptr)) : nat :=
  length (filter (fun o : option ptr => o = Some p) t).

(** The invariant of the memory while temporaries [t] are alive: what is
    owned exists, the owner count of an object is the number of its owners
    and the object is well formed, and the object of a binder marked
    unsharable is held by no other binder. *)
Definition inv_ext (t : list (option ptr))
    (h : gmap ptr cell) (v : gmap var binder) : Prop :=
  (forall p, 0 < owners v p + tcount p t -> is_Some (h !! p)) /\
  (forall p c, h !! p = Some c ->
     use_count c = owners v p + tcount p t /\ data_wf (object c)) /\
  (forall x b p, v !! x = Some b -> unsharable b = true -> data b = Some p ->
     owners v p = 1).

(** The invariant between two calls. *)
Definition inv (h : gmap ptr cell) (v : gmap var binder) : Prop :=
  inv_ext [] h v.

(** A binder whose flag is set and that references an object is the only
    owner of that object: the owner count is one and no other binder
    references it. *)
Definition unsharable_unique (s : state) : Prop :=
  forall x b p,
    vars s !! x = Some b -> unsharable b = true -> data b = Some p ->
    (exists c, heap s !! p = Some c /\ use_count c = 1) /\
    (forall y b', y <> x -> vars s !! y = Some b' -> data b' <> Some p).

(** The state after a member has edited the object [d] of [this], held at
    [p] by [n] owners, into [d'] and left the flag [fl]: on a copy at a
    fresh address when [d] was shared, in place otherwise. *)
Definition edited (h : gmap ptr cell) (v : gmap var binder)
    (this : var) (p : ptr) (d : data_t) (n : nat) (d' : data_t) (fl : bool)
    (h' : gmap ptr cell) (v' : gmap var binder) : Prop :=
  (1 < n /\ exists p', h !! p' = None /\
      h' = <[p := Cell d (n - 1)]> (<[p' := Cell d' 1]> h) /\
      v' = <[this := Binder (Some p') fl]> v) \/
  (n = 1 /\ h' = <[p := Cell d' 1]> h /\
      v' = <[this := Binder (Some p) fl]> v).

(** The memory after a [shared_ptr] [o] took one more share of its
    object. *)
Definition acquired (h : gmap ptr cell) (o : option ptr)
    (h' : gmap ptr cell) : Prop :=
  match o with
  | None => h' = h
  | Some p => exists c, h !! p = Some c /\
                        h' = <[p := Cell (object c) (S (use_count c))]> h
  end.

(** The memory after a [shared_ptr] [o] gave its share up. *)
Definition released (h : gmap ptr cell) (o : option ptr)
    (h' : gmap ptr cell) : Prop :=
  match o with
  | None => h' = h
  | Some p => exists c, h !! p = Some c /\
      ((use_count c <= 1 /\ h' = delete p h) \/
       (1 < use_count c /\
        h' = <[p := Cell (object c) (use_count c - 1)]> h))
  end.

(** ** What the members compute on an object *)

(** [insert_front]: a new first note for [k], entered in the index. *)
Definition push_front (k : K) (x : V) (d : data_t) : data_t :=
  let it := new_node (notes d) in
  Data (Note it (Some k) x :: notes d) (<[k := it]> (index d)).

(** [insert_after]: a new note for [k] linked after the node [prev]. *)
Definition link_after (prev : nat) (k : K) (x : V) (d : data_t) : data_t :=
  let it := new_node (notes d) in
  Data (set_first it (Some k)
          (default [] (insert_after_node prev (Note it None x) (notes d))))
       (<[k := it]> (index d)).

(** [remove(k)]: the entry of [k] and the node [it] it maps to are erased. *)
Definition unlink (k : K) (it : nat) (d : data_t) : data_t :=
  Data (default [] (erase_node it (notes d))) (delete k (index d)).

(** [wpu] is [wp] for calls that need not be defined: nothing is asked of a
    call with undefined behaviour. *)
Definition wpu {A} (m : M A)
    (Q : A -> gmap ptr cell -> gmap var binder -> Prop)
    (E : exn -> gmap ptr cell -> gmap var binder -> Prop)
    (h : gmap ptr cell) (v : gmap var binder) : Prop :=
  forall fs,
    match m (State h v fs) with
    | Return a s => Q a (heap s) (vars s)
    | Throw e s => E e (heap s) (vars s)
    | Undefined => True
    end.

(** The value [b'] may be given to a binder next to the binders [v]: no
    binder of [v] that is marked unsharable holds the object of [b'], and if
    [b'] is marked itself, no binder of [v] holds its object at all. *)
Definition fits (v : gmap var binder) (b' : binder) : Prop :=
  (forall y b0 p, v !! y = Some b0 -> unsharable b0 = true ->
     data b0 = Some p -> data b' <> Some p) /\
  (forall q, unsharable b' = true -> data b' = Some q ->
     forall y b0, v !! y = Some b0 -> data b0 <> Some q).

(** ** The logical order of the entries *)

(** The edits of one binder. *)
Inductive edit :=
| EInsertFront (k : K) (x : V)
| EInsertAfter (prev_k k : K) (x : V)
| ERemove
| ERemoveKey (k : K).

Definition edit_call (this : var) (e : edit) : call :=
  match e with
  | EInsertFront k x => InsertFront this k x
  | EInsertAfter prev_k k x => InsertAfter this prev_k k x
  | ERemove => Remove this
  | ERemoveKey k => RemoveKey this k
  end.

(** The sequence of entries the specification speaks of: [insert_front]
    places the entry first, [insert_after] right after the entry of
    [prev_k], [remove()] deletes the first entry and [remove(k)] the entry
    of [k]. *)
Fixpoint place_after (prev_k : K) (kx : K * V) (l : list (K * V))
  : list (K * V) :=
  match l with
  | [] => []
  | e :: l' =>
      if decide (e.1 = prev_k) then e :: kx :: l'
      else e :: place_after prev_k kx l'
  end.

Definition drop_key (k : K) (l : list (K * V)) : list (K * V) :=
  filter (fun e : K * V => e.1 <> k) l.

Definition logical (e : edit) (l : list (K * V)) : list (K * V) :=
  match e with
  | EInsertFront k x => (k, x) :: l
  | EInsertAfter prev_k k x => place_after prev_k (k, x) l
  | ERemove => tail l
  | ERemoveKey k => drop_key k l
  end.

Definition logical_all (es : list edit) (l : list (K * V)) : list (K * V) :=
  fold_left (fun l e => logical e l) es l.

(** How many entries a sequence of edits inserts and removes. *)
Definition is_insert (e : edit) : bool :=
  match e with
  | EInsertFront _ _ | EInsertAfter _ _ _ => true
  | ERemove | ERemoveKey _ => false
  end.

Definition inserted (es : list edit) : nat :=
  length (List.filter is_insert es).

Definition removed (es : list edit) : nat :=
  length (List.filter (fun e => negb (is_insert e)) es).

(** An entry as the list stores it. *)
Definition entry_of (kx : K * V) : option K * V := (Some kx.1, kx.2).

(** The edits are called one after the other and all of them return. *)
Fixpoint run_edits (this : var) (es : list edit) (s : state) : option state :=
  match es with
  | [] => Some s
  | e :: es' =>
      match exec (edit_call this e) s with
      | Return _ s' => run_edits this es' s'
      | _ => None
      end
  end.

(** The binder [this] holds the entries [es]. *)
Definition holds (h : gmap ptr cell) (v : gmap var binder)
    (this : var) (es : list (option K * V)) : Prop :=
  exists b, v !! this = Some b /\
    match data b with
    | None => es = []
    | Some p => exists c, h !! p = Some c /\ entries (object c) = es
    end.

(** The calls on [this] that go through [going_to_edit]. *)
Definition mutating (this : var) (c : call) : Prop :=
  (exists e, c = edit_call this e) \/ (exists k, c = Read this k).

(** What a call that goes through [going_to_edit] and returns makes of the
    object [d] it works on, and the flag it leaves on the binder: the
    members that change the list compute a new object and reset the flag,
    the mutable [read] leaves the object as it is and sets the flag. *)
Definition edit_object (c : call) (d : data_t) : option (data_t * bool) :=
  match c with
  | InsertFront _ k x => Some (push_front k x d, false)
  | InsertAfter _ prev_k k x =>
      match index d !! prev_k with
      | Some prev => Some (link_after prev k x d, false)
      | None => None
      end
  | Remove _ =>
      match notes d with
      | front :: _ =>
          match first front with
          | Some k => Some (unlink k (node front) d, false)
          | None => None
          end
      | [] => None
      end
  | RemoveKey _ k =>
      match index d !! k with
      | Some it => Some (unlink k it d, false)
      | None => None
      end
  | Read _ _ => Some (d, true)
  | _ => None
  end.

(** Whether [this] has the key [k], as the members test it:
    [data && data->index.contains(k)]. *)
Definition key_in (this : var) (k : K) : M bool :=
  b ← get_var this; has_key (data b) k.

(** The sentence of the specification about cloning, for one call [c] on
    [this] in the state [s]: when the object of [this] has more than one
    owner or [this] is marked unsharable, a call that returns has worked on
    a clone.  The object [this] started from has not been changed: whatever
    is at its address afterwards (nothing, when [this] was its last owner
    and gave it up for the clone) has the contents it had; and [this]
    references another object. *)
Definition clones_when_shared_or_unsharable
    (s : state) (this : var) (c : call) : Prop :=
  forall b p cl s',
    vars s !! this = Some b -> data b = Some p -> heap s !! p = Some cl ->
    1 < use_count cl \/ unsharable b = true ->
    exec c s = Return () s' ->
    (forall cl', heap s' !! p = Some cl' -> object cl' = object cl) /\
    (data <$> vars s' !! this) <> Some (Some p).

(** The sentence of the specification about a duplicate key handed to
    [insert_after]: with [k] present the call fails with the
    key-already-exists error. *)
Definition insert_after_rejects_duplicate
    (s : state) (this : var) (prev_k k : K) (x : V) : Prop :=
  result (key_in this k s) = Some true ->
  thrown (insert_after this prev_k k x s)
  = Some (invalid_argument "Key already exists").

(** ** Small programs *)

(** One binder [b], empty; [fs] is the plan of failures. *)
Definition fresh_b (fs : list bool) : state :=
  run [DefaultConstruct "b"] (initial fs).

(** [b] holds the entry [k -> x]. *)
Definition b_with (k : K) (x : V) : state :=
  run [InsertFront "b" k x] (fresh_b []).

(** [b] holds [k -> x] and handed a mutable reference to [x] out. *)
Definition b_read (k : K) (x : V) : state := run [Read "b" k] (b_with k x).

(** [b] and its copy [b2] share [k -> x]. *)
Definition b_shared (k : K) (x : V) : state :=
  run [CopyConstruct "b2" "b"] (b_with k x).

(** The object that holds [k -> x] alone, as [insert_front] builds it. *)
Definition single (k : K) (x : V) : data_t :=
  Data [Note 1 (Some k) x] {[k := 1]}.

(** [b] and [b2] share [k -> x], and the next copy of an object fails. *)
Definition failing_copy (k : K) (x : V) : state :=
  run [DefaultConstruct "b"; InsertFront "b" k x; CopyConstruct "b2" "b"]
      (initial [false; false; false; true]).

(** The edits of the specification's scenario, then two removals. *)
Definition scenario_edits (k1 k2 k3 : K) (x1 x2 x3 : V) : list edit :=
  [EInsertFront k1 x1; EInsertFront k2 x2; EInsertAfter k2 k3 x3;
   ERemoveKey k1; ERemove].

(** ** What a call may change and throw *)

(** The binders whose entries a call may change. *)
Definition touched (c : call) : list var :=
  match c with
  | DefaultConstruct x | CopyConstruct x _ | Destroy x => [x]
  | MoveConstruct x other => [x; other]
  | CopyAssign this _ => [this]
  | MoveAssign this other => [this; other]
  | InsertFront this _ _ | InsertAfter this _ _ _
  | Remove this | RemoveKey this _ | Clear this => [this]
  | Read _ _ | ReadConst _ _ | Size _ | Write _ _ => []
  end.

(** The call is a constructor that names a new binder or a member called
    on a binder that exists, with arguments that exist. *)
Definition member_call (c : call) (v : gmap var binder) : Prop :=
  match c with
  | DefaultConstruct x => v !! x = None
  | CopyConstruct x other | MoveConstruct x other =>
      v !! x = None /\ is_Some (v !! other)
  | CopyAssign this other | MoveAssign this other =>
      is_Some (v !! this) /\ is_Some (v !! other)
  | Destroy this
  | InsertFront this _ _ | InsertAfter this _ _ _
  | Remove this | RemoveKey this _
  | Read this _ | ReadConst this _ | Size this | Clear this =>
      is_Some (v !! this)
  | Write _ _ => False
  end.

(** The exceptions a call lets escape: the [std::invalid_argument] of the
    member, with its message, and what a copy of the object throws. *)
Definition allowed (c : call) (e : exn) : Prop :=
  match c, e with
  | (CopyConstruct _ _ | CopyAssign _ _), bad_alloc => True
  | (InsertFront _ _ _ | InsertAfter _ _ _ _ | Remove _ | RemoveKey _ _
     | Read _ _), bad_alloc => True
  | InsertFront _ _ _, invalid_argument w => w = "Key already exists"
  | InsertAfter _ _ _ _, invalid_argument w =>
      w = "Prev_key not found" \/ w = "Key already exists"
  | Remove _, invalid_argument w => w = "Empty binder"
  | (RemoveKey _ _ | Read _ _ | ReadConst _ _), invalid_argument w =>
      w = "Key not found"
  | _, _ => False
  end.

(** The state [h'], [v'] in which the call [c], made in [h], [v], threw:
    the state of the call, or, for [insert_front] on a binder without
    object, that state with a new empty object given to the binder. *)
Definition rolled_back (c : call) (h : gmap ptr cell) (v : gmap var binder)
    (h' : gmap ptr cell) (v' : gmap var binder) : Prop :=
  (h' = h /\ v' = v) \/
  (exists this k x b p,
     c = InsertFront this k x /\ v !! this = Some b /\ data b = None /\
     h !! p = None /\
     h' = <[p := Cell (Data [] ∅) 1]> h /\
     v' = <[this := Binder (Some p) (unsharable b)]> v).

(** The binders outside [T] hold in [h'], [v'] the entries they held in
    [h], [v]. *)
Definition frame (T : list var) (h : gmap ptr cell) (v : gmap var binder)
    (h' : gmap ptr cell) (v' : gmap var binder) : Prop :=
  forall y es, y ∉ T -> holds h v y es -> holds h' v' y es.

(** Every object in memory has at least one owner. *)
Definition counted (h : gmap ptr cell) : Prop :=
  forall p c, h !! p = Some c -> 1 <= use_count c.

(** [m] keeps the property [P] of the memory, whether it returns or
    throws. *)
Definition preserves {A} (P : gmap ptr cell -> Prop) (m : M A) : Prop :=
  forall s, P (heap s) ->
    match m s with
    | Return _ s' => P (heap s')
    | Throw _ s' => P (heap s')
    | Undefined => True
    end.

(** The value stored with the key [k] in a sequence of entries. *)
Definition value_of (k : K) (l : list (K * V)) : option V :=
  snd <$> List.find (fun e : K * V => bool_decide (e.1 = k)) l.

(** The entries with the value of the key [k] replaced by [w]. *)
Definition set_value (k : K) (w : V) (l : list (K * V)) : list (K * V) :=
  (fun e : K * V => if decide (e.1 = k) then (e.1, w) else e) <$> l.

(** ** Properties *)

Lemma wp_run {A} (m : M A) Q E (s : state) :
  wp m Q E (heap s) (vars s) ->
  match m s with
  | Return a s' => Q a (heap s') (vars s')
  | Throw e s' => E e (heap s') (vars s')
  | Undefined => False
  end.
Proof. intros Hwp. destruct s as [h v fs]. exact (Hwp fs). Qed.

Lemma wp_mono {A} (m : M A) Q Q' E E' h v :
  wp m Q E h v ->
  (forall a h' v', Q a h' v' -> Q' a h' v') ->
  (forall e h' v', E e h' v' -> E' e h' v') ->
  wp m Q' E' h v.
Proof.
  intros Hwp HQ HE fs. specialize (Hwp fs).
  destruct (m (State h v fs)); auto.
Qed.

Lemma wp_ret {A} (a : A) Q E h v : Q a h v -> wp (mret a) Q E h v.
Proof. intros HQ fs. exact HQ. Qed.

Lemma wp_bind {A B} (m : M A) (k : A -> M B) Q E h v :
  wp m (fun a h' v' => wp (k a) Q E h' v') E h v ->
  wp (m ≫= k) Q E h v.
Proof.
  intros Hwp fs. specialize (Hwp fs).
  unfold mbind, M_bind.
  destruct (m (State h v fs)) as [a [h' v' fs']|e s|]; simpl in *;
    [apply Hwp|exact Hwp|exact Hwp].
Qed.

Lemma wp_throw {A} (e : exn) (Q : A -> _) E h v :
  E e h v -> wp (throw e) Q E h v.
Proof. intros HE fs. exact HE. Qed.

Lemma wp_may_throw Q E h v :
  Q () h v -> E bad_alloc h v -> wp may_throw Q E h v.
Proof.
  intros HQ HE fs. unfold may_throw. simpl.
  destruct fs as [|[] fs]; simpl; assumption.
Qed.

Lemma wp_try {A} (m : M A) (hd : M unit) Q E h v :
  wp m Q (fun e h' v' => wp hd (fun _ h'' v'' => E e h'' v'') E h' v') h v ->
  wp (try_catch_rethrow m hd) Q E h v.
Proof.
  intros Hwp fs. specialize (Hwp fs). unfold try_catch_rethrow.
  destruct (m (State h v fs)) as [a s|e [h' v' fs']|]; simpl in *;
    [exact Hwp| |exact Hwp].
  specialize (Hwp fs').
  destruct (hd (State h' v' fs')); exact Hwp.
Qed.

Lemma wp_get_var x b Q E h v :
  v !! x = Some b -> Q b h v -> wp (get_var x) Q E h v.
Proof. intros Hx HQ fs. unfold get_var. simpl. rewrite Hx. exact HQ. Qed.

Lemma wp_set_var x b Q E h v :
  Q () h (<[x := b]> v) -> wp (set_var x b) Q E h v.
Proof. intros HQ fs. exact HQ. Qed.

Lemma wp_unset_var x Q E h v :
  Q () h (delete x v) -> wp (unset_var x) Q E h v.
Proof. intros HQ fs. exact HQ. Qed.

Lemma wp_get_cell p c Q E h v :
  h !! p = Some c -> Q c h v -> wp (get_cell p) Q E h v.
Proof. intros Hp HQ fs. unfold get_cell. simpl. rewrite Hp. exact HQ. Qed.

Lemma wp_set_cell p c Q E h v :
  Q () (<[p := c]> h) v -> wp (set_cell p c) Q E h v.
Proof. intros HQ fs. exact HQ. Qed.

Lemma wp_free_cell p Q E h v :
  Q () (delete p h) v -> wp (free_cell p) Q E h v.
Proof. intros HQ fs. exact HQ. Qed.

Lemma wp_alloc d Q E h v :
  (forall p, h !! p = None -> Q p (<[p := Cell d 1]> h) v) ->
  wp (alloc d) Q E h v.
Proof.
  intros HQ fs. unfold alloc. simpl. apply HQ.
  apply not_elem_of_dom. apply is_fresh.
Qed.

Lemma wp_get_object p c Q E h v :
  h !! p = Some c -> Q (object c) h v -> wp (get_object p) Q E h v.
Proof.
  intros Hp HQ. unfold get_object. apply wp_bind.
  apply (wp_get_cell p c); [exact Hp|]. apply wp_ret. exact HQ.
Qed.

Lemma wp_set_object p c d Q E h v :
  h !! p = Some c ->
  Q () (<[p := Cell d (use_count c)]> h) v ->
  wp (set_object p d) Q E h v.
Proof.
  intros Hp HQ. unfold set_object. apply wp_bind.
  apply (wp_get_cell p c); [exact Hp|]. apply wp_set_cell. exact HQ.
Qed.

Lemma wp_sp_copy p c Q E h v :
  h !! p = Some c ->
  Q (Some p) (<[p := Cell (object c) (S (use_count c))]> h) v ->
  wp (sp_copy (Some p)) Q E h v.
Proof.
  intros Hp HQ. unfold sp_copy. apply wp_bind.
  apply (wp_get_cell p c); [exact Hp|]. apply wp_bind.
  apply wp_set_cell. apply wp_ret. exact HQ.
Qed.

Lemma wp_sp_release p c Q E h v :
  h !! p = Some c ->
  (use_count c <= 1 -> Q () (delete p h) v) ->
  (1 < use_count c -> Q () (<[p := Cell (object c) (use_count c - 1)]> h) v) ->
  wp (sp_release (Some p)) Q E h v.
Proof.
  intros Hp H1 H2. unfold sp_release. apply wp_bind.
  apply (wp_get_cell p c); [exact Hp|].
  destruct (Nat.leb_spec (use_count c) 1).
  - apply wp_free_cell. auto.
  - apply wp_set_cell. auto.
Qed.

Lemma wp_sp_release_null Q E h v :
  Q () h v -> wp (sp_release None) Q E h v.
Proof. intros HQ. apply wp_ret. exact HQ. Qed.

(** *** Copying an object *)

Lemma wp_copy_notes l Q E h v :
  Q l h v -> E bad_alloc h v -> wp (copy_notes l) Q E h v.
Proof.
  revert Q. induction l as [|n l IH]; intros Q HQ HE; simpl.
  - apply wp_ret. exact HQ.
  - apply wp_bind. apply wp_may_throw; [|exact HE].
    apply wp_bind. apply IH; [|exact HE].
    apply wp_ret. exact HQ.
Qed.

Lemma note_eta (n : note) : Note (node n) (first n) (second n) = n.
Proof. destruct n; reflexivity. Qed.

Lemma wp_rebuild_index l idx Q E h v :
  Forall (fun n => is_Some (first n)) l ->
  NoDup (first <$> l) ->
  (forall n k, n ∈ l -> first n = Some k -> idx !! k = None) ->
  (forall idx',
      (forall k i, idx' !! k = Some i <->
                   idx !! k = Some i \/ exists x, Note i (Some k) x ∈ l) ->
      Q (l, idx') h v) ->
  E bad_alloc h v ->
  wp (rebuild_index l idx) Q E h v.
Proof.
  revert idx Q. induction l as [|n l IH]; intros idx Q Hsome Hnd Hfresh HQ HE.
  - simpl. apply wp_ret. apply HQ. intros k i. split; [auto|].
    intros [Hk|[x Hx]]; [exact Hk|]. inversion Hx.
  - simpl. inversion Hsome as [|? ? [k Hk] Hsome']; subst.
    rewrite fmap_cons in Hnd. apply NoDup_cons in Hnd as [Hnotin Hnd].
    rewrite Hk. apply wp_bind. apply wp_may_throw; [|exact HE].
    assert (Hidx : idx !! k = None).
    { apply (Hfresh n k); [left|exact Hk]. }
    unfold emplace. rewrite Hidx. simpl.
    apply wp_bind. apply IH; [exact Hsome'|exact Hnd| | |exact HE].
    + intros n' k' Hn' Hk'.
      rewrite lookup_insert_ne; [apply (Hfresh n' k'); [now right|exact Hk']|].
      intros ->. apply Hnotin. rewrite Hk, <- Hk'.
      apply list_elem_of_fmap. exists n'. auto.
    + intros idx' Hidx'. apply wp_ret. simpl.
      rewrite <- Hk, note_eta. apply HQ.
      intros k0 i. rewrite Hidx'. split.
      * intros [Hl|[x Hx]].
        -- destruct (decide (k = k0)) as [->|Hne].
           ++ rewrite lookup_insert_eq in Hl. injection Hl as <-.
              right. exists (second n). rewrite <- Hk, note_eta. left.
           ++ rewrite lookup_insert_ne in Hl by exact Hne. now left.
        -- right. exists x. now right.
      * intros [Hl|[x Hx]].
        -- left. rewrite lookup_insert_ne; [exact Hl|]. congruence.
        -- apply elem_of_cons in Hx as [Hx|Hx].
           ++ left. rewrite <- Hx in Hk. simpl in Hk. injection Hk as ->.
              rewrite <- Hx. simpl. apply lookup_insert_eq.
           ++ right. exists x. exact Hx.
Qed.

Lemma wp_copy_data d Q E h v :
  data_wf d -> Q d h v -> E bad_alloc h v -> wp (copy_data d) Q E h v.
Proof.
  intros (Hnodes & Hkeys & Hsome & Hidx) HQ HE. unfold copy_data.
  apply wp_bind. apply wp_copy_notes; [|exact HE].
  apply wp_bind. apply wp_rebuild_index; [exact Hsome|exact Hkeys| | |exact HE].
  - intros. apply lookup_empty.
  - intros idx' Hidx'. apply wp_ret. simpl.
    replace idx' with (index d); [destruct d; exact HQ|].
    apply map_eq. intros k. apply option_eq. intros i.
    rewrite Hidx, Hidx', lookup_empty. split; [auto|].
    intros [Hk|Hk]; [discriminate|exact Hk].
Qed.

Lemma wp_make_shared Q E h v :
  (forall p, h !! p = None -> Q p (<[p := Cell (Data [] ∅) 1]> h) v) ->
  E bad_alloc h v ->
  wp make_shared Q E h v.
Proof.
  intros HQ HE. unfold make_shared. apply wp_bind.
  apply wp_may_throw; [|exact HE]. apply wp_alloc. exact HQ.
Qed.

Lemma wp_make_shared_copy p c Q E h v :
  h !! p = Some c -> data_wf (object c) ->
  (forall p', h !! p' = None -> Q p' (<[p' := Cell (object c) 1]> h) v) ->
  E bad_alloc h v ->
  wp (make_shared_copy p) Q E h v.
Proof.
  intros Hp Hwf HQ HE. unfold make_shared_copy. apply wp_bind.
  apply (wp_get_object p c); [exact Hp|]. apply wp_bind.
  apply wp_may_throw; [|exact HE]. apply wp_bind.
  apply wp_copy_data; [exact Hwf| |exact HE].
  apply wp_alloc. exact HQ.
Qed.

(** *** The private members *)

Lemma wp_going_to_edit this b p c Q E h v :
  v !! this = Some b -> data b = Some p -> h !! p = Some c ->
  data_wf (object c) ->
  (1 < use_count c ->
   (forall p', h !! p' = None -> Q (Some p') (<[p' := Cell (object c) 1]> h) v)
   /\ E bad_alloc h v) ->
  (use_count c <= 1 ->
   Q (Some p) (<[p := Cell (object c) (S (use_count c))]> h) v) ->
  wp (going_to_edit this) Q E h v.
Proof.
  intros Hb Hd Hp Hwf Hshared Hunique. unfold going_to_edit.
  apply wp_bind. apply (wp_get_var this b); [exact Hb|].
  rewrite Hd. apply wp_bind. unfold sp_use_count. apply wp_bind.
  apply (wp_get_cell p c); [exact Hp|]. apply wp_ret.
  destruct (Nat.ltb_spec 1 (use_count c)) as [Hlt|Hle].
  - destruct (Hshared Hlt) as [HQ HE].
    apply wp_bind. apply wp_ret. apply wp_bind.
    apply (wp_make_shared_copy p c); [exact Hp|exact Hwf| |exact HE].
    intros p' Hp'. apply wp_ret. auto.
  - apply (wp_sp_copy p c); [exact Hp|]. auto.
Qed.

Lemma wp_successful_edit this b new_data Q E h v :
  v !! this = Some b ->
  wp (sp_release (data b)) Q E h (<[this := Binder new_data false]> v) ->
  wp (successful_edit this new_data) Q E h v.
Proof.
  intros Hb Hrel. unfold successful_edit. apply wp_bind.
  apply (wp_get_var this b); [exact Hb|]. apply wp_bind.
  apply wp_set_var. exact Hrel.
Qed.

(** *** The members at work on [new_data] *)

Lemma data_eta (d : data_t) : Data (notes d) (index d) = d.
Proof. destruct d; reflexivity. Qed.

Lemma new_node_fresh (l : list note) : new_node l ∉ node <$> l.
Proof.
  intros Hin. apply max_list_elem_of_le in Hin. unfold new_node in Hin. lia.
Qed.

Lemma wp_insert_front_body q k x d n Q E h v :
  h !! q = Some (Cell d n) -> index d !! k = None ->
  Q () (<[q := Cell (push_front k x d) n]> h) v ->
  E bad_alloc h v ->
  wp (insert_front_body (Some q) k x) Q E h v.
Proof.
  intros Hq Hk HQ HE. unfold insert_front_body.
  apply wp_bind, wp_ret. apply wp_bind.
  eapply wp_get_object; [exact Hq|]. simpl.
  apply wp_bind. apply wp_may_throw; [|exact HE].
  apply wp_bind. eapply wp_set_object; [exact Hq|]. simpl.
  apply wp_try. apply wp_bind.
  eapply wp_get_object; [apply lookup_insert_eq|]. simpl.
  apply wp_bind. apply wp_may_throw.
  - unfold emplace. rewrite Hk. simpl.
    eapply wp_set_object; [apply lookup_insert_eq|]. simpl.
    rewrite insert_insert_eq. exact HQ.
  - apply wp_bind. eapply wp_get_object; [apply lookup_insert_eq|]. simpl.
    eapply wp_set_object; [apply lookup_insert_eq|]. simpl.
    rewrite insert_insert_eq, data_eta, insert_id by exact Hq. exact HE.
Qed.

Lemma erase_insert_after it prev x (l l' : list note) :
  it ∉ node <$> l -> node x = it ->
  insert_after_node prev x l = Some l' ->
  erase_node it l' = Some l.
Proof.
  intros Hit Hx. revert l'. induction l as [|n l IH]; intros l' Hins.
  - discriminate.
  - simpl in Hins. rewrite fmap_cons in Hit.
    apply not_elem_of_cons in Hit as [Hne Hit].
    destruct (Nat.eqb_spec (node n) prev) as [Hn|Hn].
    + injection Hins as <-. simpl.
      destruct (Nat.eqb_spec (node n) it); [congruence|].
      rewrite Hx, Nat.eqb_refl. reflexivity.
    + destruct (insert_after_node prev x l) as [l0|] eqn:Hl0; [|discriminate].
      injection Hins as <-. simpl.
      destruct (Nat.eqb_spec (node n) it); [congruence|].
      rewrite (IH Hit l0 eq_refl). reflexivity.
Qed.

Lemma wp_insert_after_body q prev_k k x d n prev l Q E h v :
  h !! q = Some (Cell d n) ->
  index d !! prev_k = Some prev ->
  insert_after_node prev (Note (new_node (notes d)) None x) (notes d) = Some l ->
  index d !! k = None ->
  Q () (<[q := Cell (link_after prev k x d) n]> h) v ->
  E bad_alloc h v ->
  wp (insert_after_body (Some q) prev_k k x) Q E h v.
Proof.
  intros Hq Hprev Hl Hk HQ HE. unfold insert_after_body.
  apply wp_bind, wp_ret. apply wp_bind.
  eapply wp_get_object; [exact Hq|]. simpl. rewrite Hprev.
  apply wp_bind. apply wp_may_throw; [|exact HE]. rewrite Hl.
  apply wp_bind. eapply wp_set_object; [exact Hq|]. simpl.
  apply wp_try. apply wp_bind.
  eapply wp_get_object; [apply lookup_insert_eq|]. simpl.
  apply wp_bind. apply wp_may_throw.
  - unfold emplace. rewrite Hk. simpl.
    eapply wp_set_object; [apply lookup_insert_eq|]. simpl.
    rewrite insert_insert_eq. unfold link_after in HQ. rewrite Hl in HQ.
    exact HQ.
  - apply wp_bind. eapply wp_get_object; [apply lookup_insert_eq|]. simpl.
    rewrite (erase_insert_after (new_node (notes d)) prev
               (Note (new_node (notes d)) None x) (notes d) l);
      [|apply new_node_fresh|reflexivity|exact Hl].
    eapply wp_set_object; [apply lookup_insert_eq|]. simpl.
    rewrite insert_insert_eq, data_eta, insert_id by exact Hq. exact HE.
Qed.

Lemma wp_remove_body q k d n it l Q E h v :
  h !! q = Some (Cell d n) ->
  index d !! k = Some it ->
  erase_node it (notes d) = Some l ->
  Q () (<[q := Cell (unlink k it d) n]> h) v ->
  wp (remove_body (Some q) k) Q E h v.
Proof.
  intros Hq Hk Hl HQ. unfold remove_body.
  apply wp_bind, wp_ret. apply wp_bind.
  eapply wp_get_object; [exact Hq|]. simpl. rewrite Hk.
  apply wp_bind. eapply wp_set_object; [exact Hq|]. simpl.
  apply wp_bind. eapply wp_get_object; [apply lookup_insert_eq|]. simpl.
  rewrite Hl. eapply wp_set_object; [apply lookup_insert_eq|]. simpl.
  rewrite insert_insert_eq. unfold unlink in HQ. rewrite Hl in HQ. exact HQ.
Qed.

(** *** Preparing the object to edit *)

(** [going_to_edit] followed by work [body] on [new_data] that turns the
    object [d] into [f d] or throws leaving it as it was: on a shared object
    the work is done on a copy at a fresh address, otherwise in place with
    [new_data] as a second owner; a failure leaves the state as it was. *)
Lemma wp_prepare {A B} (body : option ptr -> M A) (rest : option ptr -> A -> M B)
    (f : data_t -> data_t) (g : ptr -> A) this b p d n Q E h v :
  v !! this = Some b -> data b = Some p -> h !! p = Some (Cell d n) ->
  1 <= n -> data_wf d ->
  (forall q h1 n1 (Q1 : A -> _) E1,
      h1 !! q = Some (Cell d n1) ->
      Q1 (g q) (<[q := Cell (f d) n1]> h1) v -> E1 bad_alloc h1 v ->
      wp (body (Some q)) Q1 E1 h1 v) ->
  E bad_alloc h v ->
  (1 < n -> forall p', h !! p' = None ->
     wp (rest (Some p') (g p')) Q E (<[p' := Cell (f d) 1]> h) v) ->
  (n = 1 -> wp (rest (Some p) (g p)) Q E (<[p := Cell (f d) 2]> h) v) ->
  wp (going_to_edit this ≫= fun new_data =>
        with_local new_data (body new_data) ≫= fun a => rest new_data a)
     Q E h v.
Proof.
  intros Hb Hd Hp Hn Hwf Hbody HE Hshared Hunique.
  apply wp_bind.
  apply (wp_going_to_edit this b p (Cell d n)); [exact Hb|exact Hd|exact Hp|exact Hwf| |];
    simpl.
  - intros Hlt. split; [|exact HE]. intros p' Hp'.
    apply wp_bind. unfold with_local. apply wp_try.
    apply (Hbody p' (<[p' := Cell d 1]> h) 1); [apply lookup_insert_eq| |].
    + rewrite insert_insert_eq. apply Hshared; assumption.
    + eapply wp_sp_release; [apply lookup_insert_eq| |]; simpl; [|lia].
      intros _. rewrite delete_insert_id by exact Hp'. exact HE.
  - intros Hle. assert (n = 1) as -> by lia.
    apply wp_bind. unfold with_local. apply wp_try.
    apply (Hbody p (<[p := Cell d 2]> h) 2); [apply lookup_insert_eq| |].
    + rewrite insert_insert_eq. apply Hunique. reflexivity.
    + eapply wp_sp_release; [apply lookup_insert_eq| |]; simpl; [lia|].
      intros _. rewrite insert_insert_eq, insert_id by exact Hp. exact HE.
Qed.

(** The same, followed by [successful_edit]: the binder owns the edited
    object and its flag is cleared. *)
Lemma wp_edit (body : option ptr -> M unit) (f : data_t -> data_t)
    this b p d n Q E h v :
  v !! this = Some b -> data b = Some p -> h !! p = Some (Cell d n) ->
  1 <= n -> data_wf d ->
  (forall q h1 n1 (Q1 : unit -> _) E1,
      h1 !! q = Some (Cell d n1) ->
      Q1 () (<[q := Cell (f d) n1]> h1) v -> E1 bad_alloc h1 v ->
      wp (body (Some q)) Q1 E1 h1 v) ->
  E bad_alloc h v ->
  (1 < n -> forall p', h !! p' = None ->
     Q () (<[p := Cell d (n - 1)]> (<[p' := Cell (f d) 1]> h))
          (<[this := Binder (Some p') false]> v)) ->
  (n = 1 -> Q () (<[p := Cell (f d) 1]> h)
                 (<[this := Binder (Some p) false]> v)) ->
  wp (going_to_edit this ≫= fun new_data =>
        with_local new_data (body new_data) ≫= fun _ =>
        successful_edit this new_data)
     Q E h v.
Proof.
  intros Hb Hd Hp Hn Hwf Hbody HE Hshared Hunique.
  apply (wp_prepare body (fun nd _ => successful_edit this nd) f (fun _ => ())
           this b p d n); try assumption.
  - intros Hlt p' Hp'.
    apply (wp_successful_edit this b); [exact Hb|]. rewrite Hd.
    assert (Hne : p' <> p) by (intros ->; congruence).
    eapply wp_sp_release;
      [rewrite lookup_insert_ne by exact Hne; exact Hp| |]; simpl; [lia|].
    intros _. apply Hshared; assumption.
  - intros ->.
    apply (wp_successful_edit this b); [exact Hb|]. rewrite Hd.
    eapply wp_sp_release; [apply lookup_insert_eq| |]; simpl; [lia|].
    intros _. rewrite insert_insert_eq. apply Hunique. reflexivity.
Qed.

(** *** Counting owners *)

Lemma tcount_cons p o t : tcount p (o :: t) = owns p o + tcount p t.
Proof.
  unfold tcount, owns. rewrite filter_cons.
  destruct (decide (o = Some p)); reflexivity.
Qed.

Lemma tcount_nil p : tcount p [] = 0.
Proof. reflexivity. Qed.

Lemma owns_eq p : owns p (Some p) = 1.
Proof. unfold owns. now rewrite decide_True. Qed.

Lemma owns_ne p q : q <> p -> owns p (Some q) = 0.
Proof. intros Hne. unfold owns. rewrite decide_False; congruence. Qed.

Lemma owns_None p : owns p None = 0.
Proof. reflexivity. Qed.

Lemma owners_insert_fresh v x b p :
  v !! x = None -> owners (<[x := b]> v) p = owners v p + owns p (data b).
Proof.
  intros Hx. unfold owners, owns. rewrite map_filter_insert. simpl.
  destruct (decide (data b = Some p)) as [Hb|Hb].
  - rewrite map_size_insert_None; [lia|].
    apply map_lookup_filter_None_2. now left.
  - rewrite delete_id by exact Hx. lia.
Qed.

Lemma owners_delete v x b p :
  v !! x = Some b -> owners v p = owners (delete x v) p + owns p (data b).
Proof.
  intros Hx. rewrite <- (insert_delete_id v x b) at 1 by exact Hx.
  apply owners_insert_fresh. apply lookup_delete_eq.
Qed.

Lemma owners_insert v x b b' p :
  v !! x = Some b ->
  owners (<[x := b']> v) p + owns p (data b) = owners v p + owns p (data b').
Proof.
  intros Hx. rewrite <- insert_delete_eq.
  rewrite owners_insert_fresh by apply lookup_delete_eq.
  rewrite (owners_delete v x b p Hx). lia.
Qed.

Lemma owners_pos v x b p :
  v !! x = Some b -> data b = Some p -> 0 < owners v p.
Proof.
  intros Hx Hb. rewrite (owners_delete v x b p Hx), Hb, owns_eq. lia.
Qed.

Lemma owners_two v x y b b' p :
  x <> y -> v !! x = Some b -> data b = Some p ->
  v !! y = Some b' -> data b' = Some p -> 1 < owners v p.
Proof.
  intros Hne Hx Hb Hy Hb'.
  rewrite (owners_delete v x b p Hx), Hb, owns_eq.
  assert (0 < owners (delete x v) p); [|lia].
  apply (owners_pos _ y b'); [|exact Hb'].
  rewrite lookup_delete_ne by exact Hne. exact Hy.
Qed.

Lemma owners_empty p : owners ∅ p = 0.
Proof. unfold owners. now rewrite map_filter_empty, map_size_empty. Qed.

(** *** Steps that keep the invariant *)

Lemma inv_update_cell t t' h v p c' :
  inv_ext t h v ->
  (forall q, q <> p -> tcount q t' = tcount q t) ->
  data_wf (object c') ->
  use_count c' = owners v p + tcount p t' ->
  inv_ext t' (<[p := c']> h) v.
Proof.
  intros (HA & HB & HC) Ht Hwf Hcount. split; [|split].
  - intros q Hq. destruct (decide (q = p)) as [->|Hne].
    + rewrite lookup_insert_eq. eauto.
    + rewrite lookup_insert_ne by congruence. apply HA.
      rewrite <- (Ht q Hne). exact Hq.
  - intros q c Hq. destruct (decide (q = p)) as [->|Hne].
    + rewrite lookup_insert_eq in Hq. injection Hq as <-. auto.
    + rewrite lookup_insert_ne in Hq by congruence.
      rewrite (Ht q Hne). apply HB. exact Hq.
  - exact HC.
Qed.

Lemma inv_free_cell t t' h v p :
  inv_ext t h v ->
  (forall q, q <> p -> tcount q t' = tcount q t) ->
  owners v p + tcount p t' = 0 ->
  inv_ext t' (delete p h) v.
Proof.
  intros (HA & HB & HC) Ht Hzero. split; [|split].
  - intros q Hq. destruct (decide (q = p)) as [->|Hne]; [lia|].
    rewrite lookup_delete_ne by congruence. apply HA.
    rewrite <- (Ht q Hne). exact Hq.
  - intros q c Hq. destruct (decide (q = p)) as [->|Hne].
    + rewrite lookup_delete_eq in Hq. discriminate.
    + rewrite lookup_delete_ne in Hq by congruence.
      rewrite (Ht q Hne). apply HB. exact Hq.
  - exact HC.
Qed.

Lemma inv_rebind t t' h v v' :
  inv_ext t h v ->
  (forall p, owners v' p + tcount p t' = owners v p + tcount p t) ->
  (forall x b p, v' !! x = Some b -> unsharable b = true -> data b = Some p ->
     owners v' p = 1) ->
  inv_ext t' h v'.
Proof.
  intros (HA & HB & HC) Hsum HC'. split; [|split].
  - intros p Hp. apply HA. rewrite <- Hsum. exact Hp.
  - intros p c Hp. rewrite Hsum. apply HB. exact Hp.
  - exact HC'.
Qed.

(** The flag condition after the binder [x] was given the value [b']:
    no other binder that is marked unsharable holds the object [b'] holds,
    and if [b'] is marked, no other binder holds it at all. *)
Lemma flags_insert v x b' :
  (forall x b p, v !! x = Some b -> unsharable b = true -> data b = Some p ->
     owners v p = 1) ->
  (forall y b p, y <> x -> v !! y = Some b -> unsharable b = true ->
     data b = Some p -> data b' <> Some p) ->
  (forall q, unsharable b' = true -> data b' = Some q ->
     forall y b, y <> x -> v !! y = Some b -> data b <> Some q) ->
  forall y b p, <[x := b']> v !! y = Some b -> unsharable b = true ->
    data b = Some p -> owners (<[x := b']> v) p = 1.
Proof.
  intros HC Hother Hself y b p Hy Hfl Hb.
  assert (Hsum : exists o, owners (<[x := b']> v) p + owns p o
                           = owners v p + owns p (data b') /\
                           (o = Some p -> exists b0, v !! x = Some b0 /\ data b0 = Some p)).
  { destruct (v !! x) as [b0|] eqn:Hx.
    - exists (data b0). split; [apply owners_insert; exact Hx|]. eauto.
    - exists None. split; [|discriminate].
      rewrite owners_insert_fresh by exact Hx. rewrite owns_None. lia. }
  destruct Hsum as (o & Hsum & Ho).
  destruct (decide (y = x)) as [->|Hne].
  - rewrite lookup_insert_eq in Hy. injection Hy as <-.
    rewrite Hb, owns_eq in Hsum.
    assert (Hrest : owners (delete x v) p = 0).
    { destruct (owners (delete x v) p) eqn:Hz; [reflexivity|exfalso].
      assert (Hnz : base.size (filter (fun xb : var * binder => data xb.2 = Some p)
                                 (delete x v)) <> 0)
        by (unfold owners in Hz; lia).
      apply map_size_ne_0_lookup in Hnz as [z [bz Hz']].
      apply map_lookup_filter_Some in Hz' as [Hz' Hown]. simpl in Hown.
      apply lookup_delete_Some in Hz' as [Hzx Hz'].
      apply (Hself p Hfl Hb z bz); auto. }
    rewrite <- insert_delete_eq.
    rewrite owners_insert_fresh by apply lookup_delete_eq.
    rewrite Hrest, Hb, owns_eq. reflexivity.
  - rewrite lookup_insert_ne in Hy by congruence.
    assert (H1 := HC y b p Hy Hfl Hb).
    assert (Hnew : owns p (data b') = 0).
    { unfold owns. rewrite decide_False; [reflexivity|].
      apply (Hother y b p); auto. }
    assert (Hold : owns p o = 0).
    { unfold owns. destruct (decide (o = Some p)) as [Heq|]; [|reflexivity].
      destruct (Ho Heq) as (b0 & Hx & Hb0).
      assert (1 < owners v p); [|lia].
      apply (owners_two v x y b0 b); auto. }
    lia.
Qed.

Lemma flags_delete v x :
  (forall x b p, v !! x = Some b -> unsharable b = true -> data b = Some p ->
     owners v p = 1) ->
  forall y b p, delete x v !! y = Some b -> unsharable b = true ->
    data b = Some p -> owners (delete x v) p = 1.
Proof.
  intros HC y b p Hy Hfl Hb.
  apply lookup_delete_Some in Hy as [Hne Hy].
  assert (H1 := HC y b p Hy Hfl Hb).
  destruct (v !! x) as [b0|] eqn:Hx.
  - assert (H2 := owners_delete v x b0 p Hx).
    unfold owns in H2. destruct (decide (data b0 = Some p)) as [Hb0|]; [|lia].
    assert (1 < owners v p); [|lia].
    apply (owners_two v x y b0 b); auto.
  - rewrite delete_id by exact Hx. exact H1.
Qed.

(** *** Well-formed objects stay well formed *)

Lemma insert_after_node_is_Some prev x (l : list note) :
  prev ∈ node <$> l -> is_Some (insert_after_node prev x l).
Proof.
  induction l as [|n l IH]; intros Hin; [inversion Hin|].
  simpl. destruct (Nat.eqb_spec (node n) prev) as [Hn|Hn]; [eauto|].
  rewrite fmap_cons in Hin. apply elem_of_cons in Hin as [Hin|Hin];
    [congruence|].
  destruct (IH Hin) as [l' ->]. simpl. eauto.
Qed.

Lemma erase_node_is_Some it (l : list note) :
  it ∈ node <$> l -> is_Some (erase_node it l).
Proof.
  induction l as [|n l IH]; intros Hin; [inversion Hin|].
  simpl. destruct (Nat.eqb_spec (node n) it) as [Hn|Hn]; [eauto|].
  rewrite fmap_cons in Hin. apply elem_of_cons in Hin as [Hin|Hin];
    [congruence|].
  destruct (IH Hin) as [l' ->]. simpl. eauto.
Qed.

Lemma index_node d k i :
  data_wf d -> index d !! k = Some i -> i ∈ node <$> notes d.
Proof.
  intros (_ & _ & _ & Hidx) Hk. apply Hidx in Hk as [x Hx].
  apply list_elem_of_fmap. exists (Note i (Some k) x). auto.
Qed.

Lemma data_wf_perm (l l' : list note) (idx : gmap K nat) :
  l ≡ₚ l' -> data_wf (Data l idx) -> data_wf (Data l' idx).
Proof.
  intros Hp (Hnodes & Hkeys & Hsome & Hidx). simpl in *.
  split; [|split; [|split]]; simpl.
  - now rewrite <- Hp.
  - now rewrite <- Hp.
  - now rewrite <- Hp.
  - intros k i. rewrite Hidx. split; intros [y Hy]; exists y.
    + now rewrite <- Hp.
    + now rewrite Hp.
Qed.

Lemma data_wf_cons (n : note) (l : list note) (idx : gmap K nat) (k : K) :
  data_wf (Data l idx) -> idx !! k = None -> node n ∉ node <$> l ->
  first n = Some k ->
  data_wf (Data (n :: l) (<[k := node n]> idx)).
Proof.
  intros (Hnodes & Hkeys & Hsome & Hidx) Hk Hfresh Hfirst. simpl in *.
  split; [|split; [|split]]; simpl.
  - rewrite ?fmap_cons. apply NoDup_cons. auto.
  - rewrite ?fmap_cons. apply NoDup_cons. split; [|exact Hkeys].
    intros Hin. apply list_elem_of_fmap in Hin as (m & Hm & Hin).
    assert (Hsome' : idx !! k = Some (node m)).
    { apply Hidx. exists (second m). rewrite Hfirst in Hm.
      rewrite Hm, note_eta. exact Hin. }
    congruence.
  - constructor; [rewrite Hfirst; eauto|exact Hsome].
  - intros k0 i. destruct (decide (k = k0)) as [<-|Hne].
    + rewrite lookup_insert_eq. split.
      * intros [= <-]. exists (second n). rewrite <- Hfirst, note_eta. left.
      * intros [y Hy]. apply elem_of_cons in Hy as [Hy|Hy].
        -- rewrite <- Hy. reflexivity.
        -- assert (idx !! k = Some i) by (apply Hidx; eauto). congruence.
    + rewrite lookup_insert_ne by exact Hne. rewrite Hidx.
      split; intros [y Hy]; exists y.
      * now right.
      * apply elem_of_cons in Hy as [Hy|Hy]; [|exact Hy].
        rewrite <- Hy in Hfirst. simpl in Hfirst. congruence.
Qed.

Lemma data_wf_uncons (n : note) (l : list note) (idx : gmap K nat) (k : K) :
  data_wf (Data (n :: l) idx) -> first n = Some k ->
  data_wf (Data l (delete k idx)).
Proof.
  intros (Hnodes & Hkeys & Hsome & Hidx) Hfirst. simpl in *.
  rewrite ?fmap_cons in Hnodes, Hkeys.
  apply NoDup_cons in Hnodes as [Hn Hnodes].
  apply NoDup_cons in Hkeys as [Hk Hkeys].
  inversion Hsome as [|? ? _ Hsome']; subst.
  split; [|split; [|split]]; simpl; try assumption.
  intros k0 i. destruct (decide (k = k0)) as [<-|Hne].
  - rewrite lookup_delete_eq. split; [discriminate|].
    intros [y Hy]. exfalso. apply Hk. rewrite Hfirst.
    apply list_elem_of_fmap. exists (Note i (Some k) y). auto.
  - rewrite lookup_delete_ne by exact Hne. rewrite Hidx.
    split; intros [y Hy]; exists y.
    + apply elem_of_cons in Hy as [Hy|Hy]; [|exact Hy].
      rewrite <- Hy in Hfirst. simpl in Hfirst. congruence.
    + now right.
Qed.

Lemma data_wf_push_front k x d :
  data_wf d -> index d !! k = None -> data_wf (push_front k x d).
Proof.
  intros Hwf Hk. unfold push_front.
  apply (data_wf_cons (Note (new_node (notes d)) (Some k) x));
    [rewrite data_eta; exact Hwf|exact Hk|apply new_node_fresh|reflexivity].
Qed.

Lemma insert_after_node_split prev y (l l' : list note) :
  insert_after_node prev y l = Some l' ->
  exists l1 np l2, l = (l1 ++ np :: l2) /\ node np = prev /\
                   (prev ∉ node <$> l1) /\ l' = (l1 ++ np :: y :: l2).
Proof.
  revert l'. induction l as [|n l IH]; intros l' Hins; [discriminate|].
  simpl in Hins. destruct (Nat.eqb_spec (node n) prev) as [Hn|Hn].
  - injection Hins as <-. exists [], n, l. repeat split; auto.
    simpl. apply not_elem_of_nil.
  - destruct (insert_after_node prev y l) as [l0|]; [|discriminate].
    injection Hins as <-.
    destruct (IH l0 eq_refl) as (l1 & np & l2 & -> & Hnp & Hl1 & ->).
    exists (n :: l1), np, l2. repeat split; auto.
    rewrite fmap_cons. apply not_elem_of_cons. auto.
Qed.

Lemma erase_node_split it (l l' : list note) :
  erase_node it l = Some l' ->
  exists l1 n l2, l = (l1 ++ n :: l2) /\ node n = it /\
                  (it ∉ node <$> l1) /\ l' = (l1 ++ l2).
Proof.
  revert l'. induction l as [|n l IH]; intros l' Her; [discriminate|].
  simpl in Her. destruct (Nat.eqb_spec (node n) it) as [Hn|Hn].
  - injection Her as <-. exists [], n, l. repeat split; auto.
    simpl. apply not_elem_of_nil.
  - destruct (erase_node it l) as [l0|]; [|discriminate].
    injection Her as <-.
    destruct (IH l0 eq_refl) as (l1 & m & l2 & -> & Hm & Hl1 & ->).
    exists (n :: l1), m, l2. repeat split; auto.
    rewrite fmap_cons. apply not_elem_of_cons. auto.
Qed.

Lemma set_first_fresh it kp (l : list note) :
  it ∉ node <$> l -> set_first it kp l = l.
Proof.
  induction l as [|n l IH]; intros Hit; [reflexivity|].
  rewrite fmap_cons in Hit. apply not_elem_of_cons in Hit as [Hne Hit].
  unfold set_first in *. rewrite fmap_cons, IH by exact Hit.
  destruct (Nat.eqb_spec (node n) it); [congruence|reflexivity].
Qed.

(** The note of key [k] sits at the node the index gives for [k]. *)
Lemma wf_node_key d k i n :
  data_wf d -> index d !! k = Some i -> n ∈ notes d -> node n = i ->
  first n = Some k.
Proof.
  intros (Hnodes & _ & _ & Hidx) Hk Hn Hi.
  apply Hidx in Hk as [y Hy].
  assert (n = Note i (Some k) y) as ->; [|reflexivity].
  apply list_elem_of_lookup in Hn as [a Ha].
  apply list_elem_of_lookup in Hy as [c Hc].
  assert (a = c) as ->; [|congruence].
  apply (NoDup_lookup (node <$> notes d) a c i); [exact Hnodes| |].
  - rewrite list_lookup_fmap, Ha. simpl. now rewrite Hi.
  - rewrite list_lookup_fmap, Hc. reflexivity.
Qed.

(** What [link_after] builds, in terms of the list around the node. *)
Lemma link_after_notes prev k x d :
  prev ∈ node <$> notes d ->
  exists l1 np l2,
    notes d = (l1 ++ np :: l2) /\ node np = prev /\ (prev ∉ node <$> l1) /\
    notes (link_after prev k x d)
    = (l1 ++ np :: Note (new_node (notes d)) (Some k) x :: l2).
Proof.
  intros Hin.
  destruct (insert_after_node_is_Some prev
              (Note (new_node (notes d)) None x) (notes d) Hin) as [l Hl].
  destruct (insert_after_node_split _ _ _ _ Hl)
    as (l1 & np & l2 & Hd & Hnp & Hl1 & ->).
  exists l1, np, l2. repeat split; auto.
  unfold link_after. rewrite Hl. simpl.
  assert (Hfresh := new_node_fresh (notes d)).
  set (it := new_node (notes d)) in *. rewrite Hd in Hfresh.
  rewrite fmap_app, fmap_cons in Hfresh.
  apply not_elem_of_app in Hfresh as [Hf1 Hf2].
  apply not_elem_of_cons in Hf2 as [Hfp Hf2].
  unfold set_first. rewrite fmap_app, !fmap_cons. simpl.
  rewrite Nat.eqb_refl.
  fold (set_first it (Some k) l1).
  fold (set_first it (Some k) l2).
  rewrite !set_first_fresh by assumption.
  destruct (Nat.eqb_spec (node np) it); [congruence|].
  reflexivity.
Qed.

Lemma data_wf_link_after prev_k prev k x d :
  data_wf d -> index d !! prev_k = Some prev -> index d !! k = None ->
  data_wf (link_after prev k x d).
Proof.
  intros Hwf Hprev Hk.
  destruct (link_after_notes prev k x d) as (l1 & np & l2 & Hd & _ & _ & Hl).
  { now apply (index_node d prev_k). }
  assert (Hpush := data_wf_push_front k x d Hwf Hk).
  replace (link_after prev k x d)
    with (Data (notes (link_after prev k x d)) (<[k := new_node (notes d)]> (index d)))
    by (unfold link_after; reflexivity).
  apply (data_wf_perm (notes (push_front k x d))); [|exact Hpush].
  rewrite Hl. unfold push_front. simpl. rewrite Hd.
  rewrite (Permutation_middle l1 (np :: l2)).
  apply Permutation_app_head. apply perm_swap.
Qed.

(** What [unlink] builds. *)
Lemma unlink_notes k it d :
  data_wf d -> index d !! k = Some it ->
  exists l1 n l2,
    notes d = (l1 ++ n :: l2) /\ node n = it /\ first n = Some k /\
    notes (unlink k it d) = l1 ++ l2.
Proof.
  intros Hwf Hk.
  destruct (erase_node_is_Some it (notes d)) as [l Hl].
  { now apply (index_node d k). }
  destruct (erase_node_split _ _ _ Hl) as (l1 & n & l2 & Hd & Hn & _ & ->).
  exists l1, n, l2. repeat split; auto.
  - apply (wf_node_key d k it n); auto. rewrite Hd.
    apply elem_of_app. right. left.
  - unfold unlink. rewrite Hl. reflexivity.
Qed.

Lemma data_wf_unlink k it d :
  data_wf d -> index d !! k = Some it -> data_wf (unlink k it d).
Proof.
  intros Hwf Hk.
  destruct (unlink_notes k it d Hwf Hk) as (l1 & n & l2 & Hd & Hn & Hf & Hl).
  replace (unlink k it d)
    with (Data (notes (unlink k it d)) (delete k (index d)))
    by (unfold unlink; reflexivity).
  rewrite Hl. apply (data_wf_uncons n _ _ k); [|exact Hf].
  apply (data_wf_perm (notes d)); [|now rewrite data_eta].
  rewrite Hd. symmetry. apply Permutation_middle.
Qed.

Lemma data_wf_set_second it x d :
  data_wf d -> data_wf (Data (set_second it x (notes d)) (index d)).
Proof.
  intros (Hnodes & Hkeys & Hsome & Hidx).
  assert (Hn : node <$> set_second it x (notes d) = node <$> notes d).
  { unfold set_second. rewrite <- list_fmap_compose. apply list_fmap_ext.
    intros _ n _. simpl. destruct (node n =? it); reflexivity. }
  assert (Hf : first <$> set_second it x (notes d) = first <$> notes d).
  { unfold set_second. rewrite <- list_fmap_compose. apply list_fmap_ext.
    intros _ n _. simpl. destruct (node n =? it); reflexivity. }
  split; [|split; [|split]]; simpl.
  - now rewrite Hn.
  - now rewrite Hf.
  - unfold set_second. apply Forall_fmap. eapply Forall_impl; [exact Hsome|].
    intros n Hs. simpl. destruct (node n =? it); exact Hs.
  - intros k i. rewrite Hidx. unfold set_second. split.
    + intros [y Hy]. destruct (Nat.eqb_spec i it) as [Hi|Hi].
      * exists x. apply list_elem_of_fmap. exists (Note i (Some k) y).
        simpl. subst i. rewrite Nat.eqb_refl. auto.
      * exists y. apply list_elem_of_fmap. exists (Note i (Some k) y).
        simpl. destruct (Nat.eqb_spec i it); [congruence|auto].
    + intros [y Hy]. apply list_elem_of_fmap in Hy as (n & Hy & Hin).
      exists (second n). destruct (node n =? it).
      * injection Hy as -> -> _. now rewrite note_eta.
      * subst n. simpl. exact Hin.
Qed.

(** *** Ownership moves and the invariant *)

Lemma inv_ext_None t h v : inv_ext t h v <-> inv_ext (None :: t) h v.
Proof.
  split; intros Hinv; (eapply inv_rebind; [exact Hinv| |apply Hinv]);
    intros p; rewrite tcount_cons, owns_None; reflexivity.
Qed.

Lemma inv_acquired t h v o h' :
  inv_ext t h v -> acquired h o h' -> inv_ext (o :: t) h' v.
Proof.
  intros Hinv Hacq. destruct o as [p|]; simpl in Hacq.
  - destruct Hacq as (c & Hc & ->).
    apply (inv_update_cell t); [exact Hinv| | |]; simpl.
    + intros q Hq. rewrite tcount_cons, owns_ne by congruence. reflexivity.
    + destruct Hinv as (_ & HB & _). apply (HB p c Hc).
    + destruct Hinv as (_ & HB & _). destruct (HB p c Hc) as [-> _].
      rewrite tcount_cons, owns_eq. lia.
  - subst h'. now apply inv_ext_None.
Qed.

Lemma inv_released t h v o h' :
  inv_ext (o :: t) h v -> released h o h' -> inv_ext t h' v.
Proof.
  intros Hinv Hrel. destruct o as [p|]; simpl in Hrel.
  - destruct Hrel as (c & Hc & Hcase).
    assert (Hcount : use_count c = owners v p + (1 + tcount p t)).
    { destruct Hinv as (_ & HB & _). destruct (HB p c Hc) as [-> _].
      rewrite tcount_cons, owns_eq. reflexivity. }
    assert (Hother : forall q, q <> p -> tcount q t = tcount q (Some p :: t)).
    { intros q Hq. rewrite tcount_cons, owns_ne by congruence. reflexivity. }
    destruct Hcase as [[Hle ->]|[Hlt ->]].
    + apply (inv_free_cell (Some p :: t)); [exact Hinv|exact Hother|lia].
    + apply (inv_update_cell (Some p :: t)); [exact Hinv|exact Hother| |];
        simpl; [|lia].
      destruct Hinv as (_ & HB & _). apply (HB p c Hc).
  - subst h'. now apply inv_ext_None.
Qed.

Lemma inv_fresh t h v p :
  inv_ext t h v -> h !! p = None -> owners v p = 0 /\ tcount p t = 0.
Proof.
  intros (HA & _ & _) Hp.
  destruct (owners v p + tcount p t) eqn:Hsum; [lia|].
  destruct (HA p) as [c Hc]; [lia|congruence].
Qed.

Lemma inv_alloc t h v p d :
  inv_ext t h v -> h !! p = None -> data_wf d ->
  inv_ext (Some p :: t) (<[p := Cell d 1]> h) v.
Proof.
  intros Hinv Hp Hwf. destruct (inv_fresh t h v p Hinv Hp) as [Ho Ht].
  apply (inv_update_cell t); [exact Hinv| |exact Hwf|]; simpl.
  - intros q Hq. rewrite tcount_cons, owns_ne by congruence. reflexivity.
  - rewrite tcount_cons, owns_eq. lia.
Qed.

Lemma inv_set_object t h v p c d :
  inv_ext t h v -> h !! p = Some c -> data_wf d ->
  inv_ext t (<[p := Cell d (use_count c)]> h) v.
Proof.
  intros Hinv Hp Hwf.
  apply (inv_update_cell t); [exact Hinv|reflexivity|exact Hwf|]; simpl.
  destruct Hinv as (_ & HB & _). apply (HB p c Hp).
Qed.

Lemma inv_set_var t h v x b b' :
  v !! x = Some b ->
  inv_ext (data b' :: t) h v ->
  (forall y b0 p, y <> x -> v !! y = Some b0 -> unsharable b0 = true ->
     data b0 = Some p -> data b' <> Some p) ->
  (forall q, unsharable b' = true -> data b' = Some q ->
     forall y b0, y <> x -> v !! y = Some b0 -> data b0 <> Some q) ->
  inv_ext (data b :: t) h (<[x := b']> v).
Proof.
  intros Hx Hinv H1 H2. eapply inv_rebind; [exact Hinv| |].
  - intros p. rewrite !tcount_cons.
    assert (Hs := owners_insert v x b b' p Hx). lia.
  - apply flags_insert; [apply Hinv|exact H1|exact H2].
Qed.

Lemma inv_declare t h v x b' :
  v !! x = None ->
  inv_ext (data b' :: t) h v ->
  (forall y b0 p, y <> x -> v !! y = Some b0 -> unsharable b0 = true ->
     data b0 = Some p -> data b' <> Some p) ->
  (forall q, unsharable b' = true -> data b' = Some q ->
     forall y b0, y <> x -> v !! y = Some b0 -> data b0 <> Some q) ->
  inv_ext t h (<[x := b']> v).
Proof.
  intros Hx Hinv H1 H2. eapply inv_rebind; [exact Hinv| |].
  - intros p. rewrite !tcount_cons.
    rewrite (owners_insert_fresh v x b' p Hx). lia.
  - apply flags_insert; [apply Hinv|exact H1|exact H2].
Qed.

Lemma inv_unset t h v x b :
  v !! x = Some b -> inv_ext t h v -> inv_ext (data b :: t) h (delete x v).
Proof.
  intros Hx Hinv. eapply inv_rebind; [exact Hinv| |].
  - intros p. rewrite tcount_cons.
    rewrite (owners_delete v x b p Hx). lia.
  - apply flags_delete. apply Hinv.
Qed.

Lemma inv_reflag t h v x b b' :
  v !! x = Some b -> data b' = data b ->
  inv_ext t h v ->
  (unsharable b' = true -> forall q, data b = Some q -> owners v q = 1) ->
  inv_ext t h (<[x := b']> v).
Proof.
  intros Hx Hd Hinv Hone. eapply inv_rebind; [exact Hinv| |].
  - intros p. assert (Hs := owners_insert v x b b' p Hx).
    rewrite Hd in Hs. lia.
  - apply flags_insert; [apply Hinv| |].
    + intros y b0 p Hy Hb0 Hfl Hp Hb'. rewrite Hd in Hb'.
      destruct Hinv as (_ & _ & HC). assert (H1 := HC y b0 p Hb0 Hfl Hp).
      assert (1 < owners v p); [|lia].
      apply (owners_two v x y b b0); auto.
    + intros q Hfl Hq y b0 Hy Hb0 Hown. rewrite Hd in Hq.
      assert (H1 := Hone Hfl q Hq).
      assert (1 < owners v q); [|lia].
      apply (owners_two v x y b b0); auto.
Qed.

(** Nobody but [x] holds [q]: the conditions on flags hold for any value
    given to [x] that holds [q]. *)
Lemma lonely_fresh t h v q :
  inv_ext t h v -> h !! q = None ->
  forall y b0, v !! y = Some b0 -> data b0 <> Some q.
Proof.
  intros Hinv Hq y b0 Hy Hown.
  destruct (inv_fresh t h v q Hinv Hq) as [Ho _].
  assert (0 < owners v q) by (apply (owners_pos v y b0); auto). lia.
Qed.

Lemma inv_owner h v x b p :
  inv h v -> v !! x = Some b -> data b = Some p ->
  exists d n, h !! p = Some (Cell d n) /\ n = owners v p /\ 1 <= n /\ data_wf d.
Proof.
  intros (HA & HB & HC) Hx Hp.
  assert (Hpos := owners_pos v x b p Hx Hp).
  destruct (HA p) as [[d n] Hc]; [lia|].
  destruct (HB p _ Hc) as [Hn Hwf]. simpl in Hn, Hwf.
  rewrite tcount_nil in Hn. exists d, n.
  split; [exact Hc|]. split; [lia|]. split; [lia|exact Hwf].
Qed.

(** The state a member leaves after an edit satisfies the invariant. *)
Lemma inv_edited h v this b p d n d' fl h' v' :
  inv h v -> v !! this = Some b -> data b = Some p ->
  h !! p = Some (Cell d n) -> data_wf d' ->
  edited h v this p d n d' fl h' v' -> inv h' v'.
Proof.
  intros Hinv Hb Hd Hp Hwf [(Hlt & p' & Hp' & -> & ->)|(-> & -> & ->)].
  - assert (Hne : p' <> p) by (intros ->; congruence).
    unfold inv. apply (inv_released [] (<[p' := Cell d' 1]> h) _ (Some p)).
    + rewrite <- Hd.
      apply (inv_set_var [] _ v this b (Binder (Some p') fl) Hb); simpl.
      * apply inv_alloc; auto.
      * intros y b0 q _ Hy _ Hq [= <-].
        apply (lonely_fresh [] h v p' Hinv Hp' y b0); auto.
      * intros q _ [= <-] y b0 _ Hy.
        apply (lonely_fresh [] h v p' Hinv Hp' y b0); auto.
    + simpl. exists (Cell d n). split.
      * rewrite lookup_insert_ne by exact Hne. exact Hp.
      * right. simpl. auto.
  - destruct (inv_owner h v this b p Hinv Hb Hd) as (d0 & n0 & Hp0 & Hn0 & _).
    assert (n0 = 1) by congruence. subst n0.
    apply (inv_reflag [] _ v this b); auto.
    + apply (inv_set_object [] h v p (Cell d 1) d'); auto.
    + intros _ q Hq. congruence.
Qed.

(** *** The public members *)

Lemma wp_has_key p c k Q E h v :
  h !! p = Some c ->
  Q (contains k (index (object c))) h v ->
  wp (has_key (Some p) k) Q E h v.
Proof.
  intros Hp HQ. unfold has_key. apply wp_bind.
  apply (wp_get_object p c); [exact Hp|]. apply wp_ret. exact HQ.
Qed.

Lemma contains_true k idx : contains k idx = true <-> is_Some (idx !! k).
Proof.
  unfold contains. destruct (idx !! k); split; intros Hx; eauto;
    try discriminate. destruct Hx; discriminate.
Qed.

Lemma contains_false k idx : contains k idx = false <-> idx !! k = None.
Proof. unfold contains. destruct (idx !! k); split; congruence. Qed.

Lemma wp_insert_front this b p d n k x Q E h v :
  v !! this = Some b -> data b = Some p -> h !! p = Some (Cell d n) ->
  1 <= n -> data_wf d ->
  (is_Some (index d !! k) -> E (invalid_argument "Key already exists") h v) ->
  (index d !! k = None ->
     E bad_alloc h v /\
     forall h' v', edited h v this p d n (push_front k x d) false h' v' ->
                   Q () h' v') ->
  wp (insert_front this k x) Q E h v.
Proof.
  intros Hb Hd Hp Hn Hwf Hdup Hok. unfold insert_front.
  apply wp_bind. apply (wp_get_var this b); [exact Hb|]. rewrite Hd.
  apply wp_bind. apply (wp_has_key p (Cell d n)); [exact Hp|]. simpl.
  destruct (contains k (index d)) eqn:Hk.
  - apply wp_throw. apply Hdup. now apply contains_true.
  - apply contains_false in Hk. destruct (Hok Hk) as [HE HQ].
    apply wp_bind, wp_ret.
    apply (wp_edit (fun nd => insert_front_body nd k x) (push_front k x)
             this b p d n); try assumption.
    + intros q h1 n1 Q1 E1 Hq HQ1 HE1.
      now apply (wp_insert_front_body q k x d n1).
    + intros Hlt p' Hp'. apply HQ. left. split; [exact Hlt|]. eauto.
    + intros ->. apply HQ. right. auto.
Qed.

Lemma data_wf_empty : data_wf (Data [] ∅).
Proof.
  split; [constructor|]. split; [constructor|]. split; [constructor|].
  intros k i. simpl. rewrite lookup_empty. split; [discriminate|].
  intros [y Hy]. inversion Hy.
Qed.

(** On a binder without object, [insert_front] first gives it an empty
    one; the binder keeps it when a later step throws. *)
Lemma wp_insert_front_null this b k x Q E h v :
  v !! this = Some b -> data b = None ->
  E bad_alloc h v ->
  (forall p, h !! p = None ->
     E bad_alloc (<[p := Cell (Data [] ∅) 1]> h)
                 (<[this := Binder (Some p) (unsharable b)]> v) /\
     Q () (<[p := Cell (push_front k x (Data [] ∅)) 1]> h)
          (<[this := Binder (Some p) false]> v)) ->
  wp (insert_front this k x) Q E h v.
Proof.
  intros Hb Hd HE Hp. unfold insert_front.
  apply wp_bind. apply (wp_get_var this b); [exact Hb|]. rewrite Hd.
  apply wp_bind, wp_ret. simpl.
  apply wp_bind. apply wp_bind. apply wp_make_shared; [|exact HE].
  intros p Hfresh. destruct (Hp p Hfresh) as [HE' HQ].
  apply wp_set_var.
  apply (wp_edit (fun nd => insert_front_body nd k x) (push_front k x)
           this (Binder (Some p) (unsharable b)) p (Data [] ∅) 1).
  - apply lookup_insert_eq.
  - reflexivity.
  - apply lookup_insert_eq.
  - lia.
  - apply data_wf_empty.
  - intros q h1 n1 Q1 E1 Hq HQ1 HE1.
    apply (wp_insert_front_body q k x (Data [] ∅) n1); auto.
  - exact HE'.
  - lia.
  - intros _. rewrite !insert_insert_eq. exact HQ.
Qed.

Lemma wp_insert_after this b prev_k k x Q E h v :
  v !! this = Some b ->
  (data b = None -> E (invalid_argument "Prev_key not found") h v) ->
  (forall p, data b = Some p -> exists d n,
     h !! p = Some (Cell d n) /\ 1 <= n /\ data_wf d /\
     (index d !! prev_k = None ->
        E (invalid_argument "Prev_key not found") h v) /\
     (is_Some (index d !! prev_k) -> is_Some (index d !! k) ->
        E (invalid_argument "Key already exists") h v) /\
     (forall prev, index d !! prev_k = Some prev -> index d !! k = None ->
        E bad_alloc h v /\
        forall h' v', edited h v this p d n (link_after prev k x d) false h' v' ->
                      Q () h' v')) ->
  wp (insert_after this prev_k k x) Q E h v.
Proof.
  intros Hb Hnull Hsome. unfold insert_after.
  apply wp_bind. apply (wp_get_var this b); [exact Hb|].
  destruct (data b) as [p|] eqn:Hd.
  - destruct (Hsome p eq_refl) as (d & n & Hp & Hn & Hwf & Hnoprev & Hdup & Hok).
    apply wp_bind. apply (wp_has_key p (Cell d n)); [exact Hp|]. simpl.
    destruct (contains prev_k (index d)) eqn:Hprev; simpl.
    + apply contains_true in Hprev as Hprev'. destruct Hprev' as [prev Hprev'].
      apply wp_bind. apply (wp_has_key p (Cell d n)); [exact Hp|]. simpl.
      destruct (contains k (index d)) eqn:Hk.
      * apply wp_throw. apply Hdup; [eauto|now apply contains_true].
      * apply contains_false in Hk. destruct (Hok prev Hprev' Hk) as [HE HQ].
        destruct (insert_after_node_is_Some prev
                    (Note (new_node (notes d)) None x) (notes d)) as [l Hl].
        { now apply (index_node d prev_k). }
        apply (wp_edit (fun nd => insert_after_body nd prev_k k x)
                 (link_after prev k x) this b p d n); try assumption.
        -- intros q h1 n1 Q1 E1 Hq HQ1 HE1.
           now apply (wp_insert_after_body q prev_k k x d n1 prev l).
        -- intros Hlt p' Hp'. apply HQ. left. split; [exact Hlt|]. eauto.
        -- intros ->. apply HQ. right. auto.
    + apply wp_throw. apply Hnoprev. now apply contains_false.
  - apply wp_bind, wp_ret. simpl. apply wp_throw. auto.
Qed.

Lemma wp_remove_key this b k Q E h v :
  v !! this = Some b ->
  (data b = None -> E (invalid_argument "Key not found") h v) ->
  (forall p, data b = Some p -> exists d n,
     h !! p = Some (Cell d n) /\ 1 <= n /\ data_wf d /\
     (index d !! k = None -> E (invalid_argument "Key not found") h v) /\
     (forall it_notes, index d !! k = Some it_notes ->
        E bad_alloc h v /\
        forall h' v', edited h v this p d n (unlink k it_notes d) false h' v' ->
                      Q () h' v')) ->
  wp (remove_key this k) Q E h v.
Proof.
  intros Hb Hnull Hsome. unfold remove_key.
  apply wp_bind. apply (wp_get_var this b); [exact Hb|].
  destruct (data b) as [p|] eqn:Hd.
  - destruct (Hsome p eq_refl) as (d & n & Hp & Hn & Hwf & Habsent & Hok).
    apply wp_bind. apply (wp_has_key p (Cell d n)); [exact Hp|]. simpl.
    destruct (contains k (index d)) eqn:Hk; simpl.
    + apply contains_true in Hk as [it_notes Hk].
      destruct (Hok it_notes Hk) as [HE HQ].
      destruct (erase_node_is_Some it_notes (notes d)) as [l Hl].
      { now apply (index_node d k). }
      apply (wp_edit (fun nd => remove_body nd k) (unlink k it_notes)
               this b p d n); try assumption.
      * intros q h1 n1 Q1 E1 Hq HQ1 HE1.
        now apply (wp_remove_body q k d n1 it_notes l).
      * intros Hlt p' Hp'. apply HQ. left. split; [exact Hlt|]. eauto.
      * intros ->. apply HQ. right. auto.
    + apply wp_throw. apply Habsent. now apply contains_false.
  - apply wp_bind, wp_ret. simpl. apply wp_throw. auto.
Qed.

Lemma wp_sp_release_gen o Q E h v :
  (forall p, o = Some p -> is_Some (h !! p)) ->
  (forall h', released h o h' -> Q () h' v) ->
  wp (sp_release o) Q E h v.
Proof.
  intros Ho HQ. destruct o as [p|].
  - destruct (Ho p eq_refl) as [c Hc].
    apply (wp_sp_release p c); [exact Hc| |]; intros Hn; apply HQ;
      exists c; (split; [exact Hc|]); [left|right]; auto.
  - apply wp_sp_release_null. apply HQ. reflexivity.
Qed.

Lemma wp_sp_copy_gen o Q E h v :
  (forall p, o = Some p -> is_Some (h !! p)) ->
  (forall h', acquired h o h' -> Q o h' v) ->
  wp (sp_copy o) Q E h v.
Proof.
  intros Ho HQ. destruct o as [p|].
  - destruct (Ho p eq_refl) as [c Hc].
    apply (wp_sp_copy p c); [exact Hc|]. apply HQ. exists c. auto.
  - apply wp_ret. apply HQ. reflexivity.
Qed.

Lemma wp_size this b Q E h v :
  v !! this = Some b ->
  (data b = None -> Q 0 h v) ->
  (forall p, data b = Some p ->
     exists c, h !! p = Some c /\ Q (length (notes (object c))) h v) ->
  wp (size this) Q E h v.
Proof.
  intros Hb Hnull Hsome. unfold size.
  apply wp_bind. apply (wp_get_var this b); [exact Hb|].
  destruct (data b) as [p|].
  - destruct (Hsome p eq_refl) as (c & Hc & HQ).
    apply wp_bind. apply (wp_get_object p c); [exact Hc|].
    apply wp_ret. exact HQ.
  - apply wp_ret. auto.
Qed.

Lemma wp_remove this b Q E h v :
  v !! this = Some b ->
  (data b = None -> E (invalid_argument "Empty binder") h v) ->
  (forall p, data b = Some p -> exists d n,
     h !! p = Some (Cell d n) /\ 1 <= n /\ data_wf d /\
     (notes d = [] -> E (invalid_argument "Empty binder") h v) /\
     (forall front rest k, notes d = front :: rest -> first front = Some k ->
        E bad_alloc h v /\
        forall h' v', edited h v this p d n (unlink k (node front) d) false h' v' ->
                      Q () h' v')) ->
  wp (remove this) Q E h v.
Proof.
  intros Hb Hnull Hsome. unfold remove.
  apply wp_bind. apply (wp_size this b); [exact Hb| |].
  - intros Hd. simpl. apply wp_throw. auto.
  - intros p Hd.
    destruct (Hsome p Hd) as (d & n & Hp & Hn & Hwf & Hempty & Hok).
    exists (Cell d n). split; [exact Hp|]. simpl.
    destruct (notes d) as [|front rest] eqn:Hnotes; simpl.
    + apply wp_throw. auto.
    + apply wp_bind. apply (wp_get_var this b); [exact Hb|]. rewrite Hd.
      apply wp_bind, wp_ret. apply wp_bind.
      apply (wp_get_object p (Cell d n)); [exact Hp|]. simpl. rewrite Hnotes.
      assert (Hfront : exists k, first front = Some k).
      { destruct Hwf as (_ & _ & Hall & _). rewrite Hnotes in Hall.
        inversion Hall as [|? ? [k Hk] _]; subst. eauto. }
      destruct Hfront as [k Hk]. rewrite Hk.
      destruct (Hok front rest k eq_refl Hk) as [HE HQ].
      assert (Hidx : index d !! k = Some (node front)).
      { destruct Hwf as (_ & _ & _ & Hidx). apply Hidx.
        exists (second front). rewrite <- Hk, note_eta, Hnotes. left. }
      apply (wp_remove_key this b); [exact Hb|congruence|].
      intros p0 Hp0. assert (p0 = p) as -> by congruence.
      exists d, n. repeat (split; [assumption|]). split; [congruence|].
      intros it_notes Hit. assert (it_notes = node front) as -> by congruence.
      auto.
Qed.

Lemma find_node_is_Some it (l : list note) :
  it ∈ node <$> l -> is_Some (find_node it l).
Proof.
  induction l as [|n l IH]; intros Hin; [inversion Hin|].
  unfold find_node. simpl.
  destruct (Nat.eqb_spec (node n) it) as [Hn|Hn]; [eauto|].
  rewrite fmap_cons in Hin. apply elem_of_cons in Hin as [Hin|Hin];
    [congruence|]. exact (IH Hin).
Qed.

Lemma wp_value_ref p c it_notes Q E h v :
  h !! p = Some c -> it_notes ∈ node <$> notes (object c) ->
  Q (p, it_notes) h v ->
  wp (value_ref p (Some it_notes)) Q E h v.
Proof.
  intros Hp Hin HQ. unfold value_ref. apply wp_bind.
  apply (wp_get_object p c); [exact Hp|].
  destruct (find_node_is_Some it_notes _ Hin) as [n ->].
  apply wp_ret. exact HQ.
Qed.

Lemma wp_read this b k Q E h v :
  v !! this = Some b ->
  (data b = None -> E (invalid_argument "Key not found") h v) ->
  (forall p, data b = Some p -> exists d n,
     h !! p = Some (Cell d n) /\ 1 <= n /\ data_wf d /\
     (index d !! k = None -> E (invalid_argument "Key not found") h v) /\
     (forall it_notes, index d !! k = Some it_notes ->
        E bad_alloc h v /\
        forall q h' v', edited h v this p d n d true h' v' ->
          v' !! this = Some (Binder (Some q) true) ->
          Q (q, it_notes) h' v')) ->
  wp (read this k) Q E h v.
Proof.
  intros Hb Hnull Hsome. unfold read.
  apply wp_bind. apply (wp_get_var this b); [exact Hb|].
  destruct (data b) as [p|] eqn:Hd.
  - destruct (Hsome p eq_refl) as (d & n & Hp & Hn & Hwf & Habsent & Hok).
    apply wp_bind. apply (wp_has_key p (Cell d n)); [exact Hp|]. simpl.
    destruct (contains k (index d)) eqn:Hk; simpl.
    + apply contains_true in Hk as [it_notes Hk].
      destruct (Hok it_notes Hk) as [HE HQ].
      assert (Hin : it_notes ∈ node <$> notes d) by now apply (index_node d k).
      apply (wp_prepare
               (fun nd => p0 ← sp_deref nd; d0 ← get_object p0;
                          mret (p0, index d0 !! k))
               (fun nd it_index =>
                  successful_edit this nd;;
                  b' ← get_var this;
                  set_var this (Binder (data b') true);;
                  value_ref (fst it_index) (snd it_index))
               (fun d0 => d0) (fun q => (q, Some it_notes))
               this b p d n); try assumption.
      * intros q h1 n1 Q1 E1 Hq HQ1 HE1.
        apply wp_bind, wp_ret. apply wp_bind.
        apply (wp_get_object q (Cell d n1)); [exact Hq|]. simpl.
        apply wp_ret. rewrite Hk. rewrite insert_id in HQ1 by exact Hq.
        exact HQ1.
      * intros Hlt p' Hp'.
        assert (Hne : p' <> p) by (intros ->; congruence).
        apply wp_bind. apply (wp_successful_edit this b); [exact Hb|].
        rewrite Hd. eapply wp_sp_release;
          [rewrite lookup_insert_ne by exact Hne; exact Hp| |]; simpl; [lia|].
        intros _. apply wp_bind. eapply wp_get_var; [apply lookup_insert_eq|].
        apply wp_bind. apply wp_set_var. simpl. rewrite insert_insert_eq.
        apply (wp_value_ref p' (Cell d 1)).
        -- rewrite lookup_insert_ne by congruence. apply lookup_insert_eq.
        -- exact Hin.
        -- apply HQ; [|apply lookup_insert_eq].
           left. split; [exact Hlt|]. eauto.
      * intros ->. apply wp_bind.
        apply (wp_successful_edit this b); [exact Hb|]. rewrite Hd.
        eapply wp_sp_release; [apply lookup_insert_eq| |]; simpl; [lia|].
        intros _. rewrite insert_insert_eq.
        apply wp_bind. eapply wp_get_var; [apply lookup_insert_eq|].
        apply wp_bind. apply wp_set_var. simpl. rewrite insert_insert_eq.
        apply (wp_value_ref p (Cell d 1)); [apply lookup_insert_eq|exact Hin|].
        apply HQ; [|apply lookup_insert_eq]. right. auto.
    + apply wp_throw. apply Habsent. now apply contains_false.
  - apply wp_bind, wp_ret. simpl. apply wp_throw. auto.
Qed.

Lemma wp_read_const this b k Q E h v :
  v !! this = Some b ->
  (data b = None -> E (invalid_argument "Key not found") h v) ->
  (forall p, data b = Some p -> exists d n,
     h !! p = Some (Cell d n) /\ data_wf d /\
     (index d !! k = None -> E (invalid_argument "Key not found") h v) /\
     (forall it_notes, index d !! k = Some it_notes -> Q (p, it_notes) h v)) ->
  wp (read_const this k) Q E h v.
Proof.
  intros Hb Hnull Hsome. unfold read_const.
  apply wp_bind. apply (wp_get_var this b); [exact Hb|].
  destruct (data b) as [p|] eqn:Hd.
  - destruct (Hsome p eq_refl) as (d & n & Hp & Hwf & Habsent & Hok).
    apply wp_bind. apply (wp_has_key p (Cell d n)); [exact Hp|]. simpl.
    destruct (contains k (index d)) eqn:Hk; simpl.
    + apply contains_true in Hk as [it_notes Hk].
      apply wp_bind, wp_ret. apply wp_bind.
      apply (wp_get_object p (Cell d n)); [exact Hp|]. simpl. rewrite Hk.
      apply (wp_value_ref p (Cell d n)); [exact Hp| |auto].
      now apply (index_node d k).
    + apply wp_throw. apply Habsent. now apply contains_false.
  - apply wp_bind, wp_ret. simpl. apply wp_throw. auto.
Qed.

Lemma wp_clear this b Q E h v :
  v !! this = Some b ->
  (forall p, data b = Some p -> is_Some (h !! p)) ->
  (forall h', released h (data b) h' ->
     Q () h' (<[this := Binder None false]> v)) ->
  wp (clear this) Q E h v.
Proof.
  intros Hb Hp HQ. unfold clear.
  apply wp_bind. apply (wp_get_var this b); [exact Hb|].
  apply wp_bind. apply wp_set_var.
  apply wp_sp_release_gen; assumption.
Qed.

(** *** Construction, assignment, destruction *)

Lemma wp_copy_construct other o Q E h v :
  v !! other = Some o ->
  (forall p, data o = Some p -> exists c, h !! p = Some c /\ data_wf (object c) /\
     (unsharable o = true ->
        E bad_alloc h v /\
        forall p', h !! p' = None ->
          Q (Binder (Some p') false) (<[p' := Cell (object c) 1]> h) v)) ->
  (unsharable o = false \/ data o = None ->
     forall h', acquired h (data o) h' -> Q (Binder (data o) false) h' v) ->
  wp (copy_construct other) Q E h v.
Proof.
  intros Ho Hclone Hshare. unfold copy_construct.
  apply wp_bind. apply (wp_get_var other o); [exact Ho|].
  destruct (data o) as [p|] eqn:Hd.
  - destruct (Hclone p eq_refl) as (c & Hc & Hwf & Hcl).
    destruct (unsharable o) eqn:Hfl; simpl.
    + destruct (Hcl eq_refl) as [HE HQ].
      rewrite ?bool_decide_true by discriminate.
      apply wp_bind, wp_ret. apply wp_bind.
      apply (wp_make_shared_copy p c); [exact Hc|exact Hwf| |exact HE].
      intros p' Hp'. apply wp_ret. auto.
    + apply wp_bind.
      apply (wp_sp_copy_gen (Some p)
               (fun d h' v' => wp (mret (Binder d false)) Q E h' v')).
      * intros p0 [= <-]. eauto.
      * intros h' Hh'. apply wp_ret. apply Hshare; auto.
  - rewrite andb_false_r. apply wp_bind. apply wp_ret. apply wp_ret.
    apply Hshare; [auto|reflexivity].
Qed.

Lemma wp_move_construct other o Q E h v :
  v !! other = Some o ->
  Q (Binder (data o) (unsharable o)) h
    (<[other := Binder None (unsharable o)]> v) ->
  wp (move_construct other) Q E h v.
Proof.
  intros Ho HQ. unfold move_construct.
  apply wp_bind. apply (wp_get_var other o); [exact Ho|].
  apply wp_bind. apply wp_set_var. apply wp_ret. exact HQ.
Qed.

Lemma wp_assign this t other Q E h v :
  v !! this = Some t ->
  (forall p, data t = Some p -> is_Some (h !! p)) ->
  (forall h', released h (data t) h' ->
     Q () h' (<[this := Binder (data other) false]> v)) ->
  wp (assign this other) Q E h v.
Proof.
  intros Ht Hp HQ. unfold assign.
  apply wp_bind. apply (wp_get_var this t); [exact Ht|].
  apply wp_bind. apply wp_set_var.
  unfold destruct_value. simpl. apply wp_sp_release_gen; assumption.
Qed.

Lemma wp_declare x b Q E h v :
  v !! x = None -> Q () h (<[x := b]> v) -> wp (declare x b) Q E h v.
Proof. intros Hx HQ fs. unfold declare. simpl. rewrite Hx. exact HQ. Qed.

Lemma wp_destroy x b Q E h v :
  v !! x = Some b ->
  (forall p, data b = Some p -> is_Some (h !! p)) ->
  (forall h', released h (data b) h' -> Q () h' (delete x v)) ->
  wp (destroy x) Q E h v.
Proof.
  intros Hb Hp HQ. unfold destroy.
  apply wp_bind. apply (wp_get_var x b); [exact Hb|].
  apply wp_bind. apply wp_unset_var.
  unfold destruct_value. apply wp_sp_release_gen; assumption.
Qed.

(** *** Every call keeps the invariant *)

Lemma wp_wpu {A} (m : M A) Q E h v : wp m Q E h v -> wpu m Q E h v.
Proof.
  intros Hwp fs. specialize (Hwp fs).
  destruct (m (State h v fs)); [exact Hwp|exact Hwp|exact I].
Qed.

Lemma wpu_bind {A B} (m : M A) (k : A -> M B) Q E h v :
  wpu m (fun a h' v' => wpu (k a) Q E h' v') E h v ->
  wpu (m ≫= k) Q E h v.
Proof.
  intros Hwp fs. specialize (Hwp fs).
  unfold mbind, M_bind.
  destruct (m (State h v fs)) as [a [h' v' fs']|e s|]; simpl in *;
    [apply Hwp|exact Hwp|exact I].
Qed.

Lemma wpu_get_var_None {B} x (k : binder -> M B) Q E h v :
  v !! x = None -> wpu (get_var x ≫= k) Q E h v.
Proof.
  intros Hx fs. unfold mbind, M_bind, get_var. simpl. rewrite Hx. exact I.
Qed.

Lemma wpu_declare_Some x b b0 Q E h v :
  v !! x = Some b0 -> wpu (declare x b) Q E h v.
Proof. intros Hx fs. unfold declare. simpl. rewrite Hx. exact I. Qed.

Lemma inv_install h v this b p d fl :
  inv h v -> v !! this = Some b -> data b = None -> h !! p = None ->
  data_wf d ->
  inv (<[p := Cell d 1]> h) (<[this := Binder (Some p) fl]> v).
Proof.
  intros Hinv Hb Hd Hp Hwf. unfold inv. apply inv_ext_None. rewrite <- Hd.
  apply (inv_set_var [] _ v this b (Binder (Some p) fl) Hb); simpl.
  - now apply inv_alloc.
  - intros y b0 q _ Hy _ Hq [= <-].
    apply (lonely_fresh [] h v p Hinv Hp y b0); auto.
  - intros q _ [= <-] y b0 _ Hy.
    apply (lonely_fresh [] h v p Hinv Hp y b0); auto.
Qed.

Lemma inv_is_Some t h v x b p :
  inv_ext t h v -> v !! x = Some b -> data b = Some p -> is_Some (h !! p).
Proof.
  intros (HA & _ & _) Hx Hp. apply HA.
  assert (0 < owners v p) by (apply (owners_pos v x b); auto). lia.
Qed.

(** Giving up what [this] held and taking the value [b'] that a temporary
    holds. *)
Lemma inv_assigned h v this t b' h' :
  inv_ext [data b'] h v -> v !! this = Some t ->
  (forall y b0 p, v !! y = Some b0 -> unsharable b0 = true ->
     data b0 = Some p -> data b' <> Some p) ->
  released h (data t) h' ->
  inv h' (<[this := Binder (data b') false]> v).
Proof.
  intros Hinv Ht Hfits Hrel. unfold inv.
  apply (inv_released [] h _ (data t)); [|exact Hrel].
  apply (inv_set_var [] h v this t (Binder (data b') false) Ht); simpl.
  - exact Hinv.
  - intros y b0 p _. apply Hfits.
  - intros q Hfl. discriminate.
Qed.

Lemma copy_construct_inv other o h v :
  inv h v -> v !! other = Some o ->
  wp (copy_construct other)
     (fun b' h' v' => v' = v /\ unsharable b' = false /\
                      inv_ext [data b'] h' v /\ fits v b')
     (fun _ h' v' => inv h' v') h v.
Proof.
  intros Hinv Ho. apply (wp_copy_construct other o); [exact Ho| |].
  - intros p Hp.
    destruct (inv_owner h v other o p Hinv Ho Hp) as (d & n & Hc & _ & _ & Hwf).
    exists (Cell d n). split; [exact Hc|]. split; [exact Hwf|].
    intros Hfl. split; [exact Hinv|]. intros p' Hp'. simpl.
    split; [reflexivity|]. split; [reflexivity|]. split.
    + now apply inv_alloc.
    + split; simpl; [|discriminate].
      intros y b0 q Hy _ Hq [= <-].
      apply (lonely_fresh [] h v p' Hinv Hp' y b0); auto.
  - intros Hcase h' Hacq. split; [reflexivity|]. split; [reflexivity|].
    split; [exact (inv_acquired [] h v (data o) h' Hinv Hacq)|].
    split; simpl; [|discriminate].
    intros y b0 q Hy Hfl Hq Hoq.
    destruct Hcase as [Hunfl|Hnull]; [|congruence].
    destruct Hinv as (_ & _ & HC). assert (H1 := HC y b0 q Hy Hfl Hq).
    destruct (decide (y = other)) as [->|Hne]; [congruence|].
    assert (1 < owners v q); [|lia].
    apply (owners_two v y other b0 o); auto.
Qed.

Lemma move_construct_inv other o h v :
  inv h v -> v !! other = Some o ->
  wp (move_construct other)
     (fun b' h' v' => h' = h /\
                      v' = <[other := Binder None (unsharable o)]> v /\
                      data b' = data o /\
                      inv_ext [data b'] h v' /\ fits v' b')
     (fun _ h' v' => inv h' v') h v.
Proof.
  intros Hinv Ho. apply (wp_move_construct other o); [exact Ho|]. simpl.
  split; [reflexivity|]. split; [reflexivity|]. split; [reflexivity|].
  assert (Hother : forall y b0 q, data o = Some q ->
            <[other := Binder None (unsharable o)]> v !! y = Some b0 ->
            data b0 = Some q ->
            y <> other /\ v !! y = Some b0 /\ 1 < owners v q).
  { intros y b0 q Hoq Hy Hq. destruct (decide (y = other)) as [->|Hne].
    - rewrite lookup_insert_eq in Hy. injection Hy as <-. discriminate.
    - rewrite lookup_insert_ne in Hy by congruence.
      split; [exact Hne|]. split; [exact Hy|].
      apply (owners_two v y other b0 o); auto. }
  split.
  - apply (inv_set_var [] h v other o (Binder None (unsharable o)) Ho); simpl.
    + now apply inv_ext_None.
    + discriminate.
    + discriminate.
  - destruct Hinv as (_ & _ & HC). split; simpl.
    + intros y b0 q Hy Hfl Hq Hoq.
      destruct (Hother y b0 q Hoq Hy Hq) as (Hne & Hy' & Htwo).
      assert (H1 := HC y b0 q Hy' Hfl Hq). lia.
    + intros q Hfl Hoq y b0 Hy Hq.
      destruct (Hother y b0 q Hoq Hy Hq) as (Hne & Hy' & Htwo).
      assert (H1 := HC other o q Ho Hfl Hoq). lia.
Qed.

Lemma inv_declared h v x b' :
  inv_ext [data b'] h v -> v !! x = None -> fits v b' ->
  inv h (<[x := b']> v).
Proof.
  intros Hinv Hx [H1 H2]. unfold inv.
  apply (inv_declare [] h v x b' Hx Hinv).
  - intros y b0 p _. apply H1.
  - intros q Hfl Hq y b0 _. now apply H2.
Qed.

Lemma insert_front_inv this k x h v :
  inv h v ->
  wpu (insert_front this k x) (fun _ => inv) (fun _ => inv) h v.
Proof.
  intros Hinv. destruct (v !! this) as [b|] eqn:Hb;
    [|now apply wpu_get_var_None].
  apply wp_wpu. destruct (data b) as [p|] eqn:Hd.
  - destruct (inv_owner h v this b p Hinv Hb Hd) as (d & n & Hp & _ & Hn & Hwf).
    apply (wp_insert_front this b p d n); auto.
    intros Hk. split; [exact Hinv|]. intros h' v' Hed.
    refine (inv_edited h v this b p d n _ _ h' v' Hinv Hb Hd Hp _ Hed).
    now apply data_wf_push_front.
  - apply (wp_insert_front_null this b); auto.
    intros p Hp. split.
    + apply (inv_install h v this b); auto. apply data_wf_empty.
    + apply (inv_install h v this b); auto.
      apply data_wf_push_front; [apply data_wf_empty|apply lookup_empty].
Qed.

Lemma insert_after_inv this prev_k k x h v :
  inv h v ->
  wpu (insert_after this prev_k k x) (fun _ => inv) (fun _ => inv) h v.
Proof.
  intros Hinv. destruct (v !! this) as [b|] eqn:Hb;
    [|now apply wpu_get_var_None].
  apply wp_wpu. apply (wp_insert_after this b); auto.
  intros p Hd.
  destruct (inv_owner h v this b p Hinv Hb Hd) as (d & n & Hp & _ & Hn & Hwf).
  exists d, n. split; [exact Hp|]. split; [exact Hn|]. split; [exact Hwf|].
  split; [auto|]. split; [auto|].
  intros prev Hprev Hk. split; [exact Hinv|]. intros h' v' Hed.
  refine (inv_edited h v this b p d n _ _ h' v' Hinv Hb Hd Hp _ Hed).
  now apply (data_wf_link_after prev_k).
Qed.

Lemma remove_key_inv this k h v :
  inv h v ->
  wpu (remove_key this k) (fun _ => inv) (fun _ => inv) h v.
Proof.
  intros Hinv. destruct (v !! this) as [b|] eqn:Hb;
    [|now apply wpu_get_var_None].
  apply wp_wpu. apply (wp_remove_key this b); auto.
  intros p Hd.
  destruct (inv_owner h v this b p Hinv Hb Hd) as (d & n & Hp & _ & Hn & Hwf).
  exists d, n. split; [exact Hp|]. split; [exact Hn|]. split; [exact Hwf|].
  split; [auto|].
  intros it_notes Hk. split; [exact Hinv|]. intros h' v' Hed.
  refine (inv_edited h v this b p d n _ _ h' v' Hinv Hb Hd Hp _ Hed).
  now apply data_wf_unlink.
Qed.

Lemma remove_inv this h v :
  inv h v ->
  wpu (remove this) (fun _ => inv) (fun _ => inv) h v.
Proof.
  intros Hinv. destruct (v !! this) as [b|] eqn:Hb.
  2:{ unfold remove, size. apply wpu_bind. now apply wpu_get_var_None. }
  apply wp_wpu. apply (wp_remove this b); auto.
  intros p Hd.
  destruct (inv_owner h v this b p Hinv Hb Hd) as (d & n & Hp & _ & Hn & Hwf).
  exists d, n. split; [exact Hp|]. split; [exact Hn|]. split; [exact Hwf|].
  split; [auto|].
  intros front rest k Hnotes Hk. split; [exact Hinv|]. intros h' v' Hed.
  refine (inv_edited h v this b p d n _ _ h' v' Hinv Hb Hd Hp _ Hed).
  apply data_wf_unlink; [exact Hwf|].
  destruct Hwf as (_ & _ & _ & Hidx). apply Hidx.
  exists (second front). rewrite <- Hk, note_eta, Hnotes. left.
Qed.

Lemma read_inv this k h v :
  inv h v ->
  wpu (read this k) (fun _ => inv) (fun _ => inv) h v.
Proof.
  intros Hinv. destruct (v !! this) as [b|] eqn:Hb;
    [|now apply wpu_get_var_None].
  apply wp_wpu. apply (wp_read this b); auto.
  intros p Hd.
  destruct (inv_owner h v this b p Hinv Hb Hd) as (d & n & Hp & _ & Hn & Hwf).
  exists d, n. split; [exact Hp|]. split; [exact Hn|]. split; [exact Hwf|].
  split; [auto|].
  intros it_notes Hk. split; [exact Hinv|]. intros q h' v' Hed _.
  apply (inv_edited h v this b p d n d true h' v' Hinv Hb Hd Hp); auto.
Qed.

Lemma read_const_inv this k h v :
  inv h v ->
  wpu (read_const this k) (fun _ => inv) (fun _ => inv) h v.
Proof.
  intros Hinv. destruct (v !! this) as [b|] eqn:Hb;
    [|now apply wpu_get_var_None].
  apply wp_wpu. apply (wp_read_const this b); auto.
  intros p Hd.
  destruct (inv_owner h v this b p Hinv Hb Hd) as (d & n & Hp & _ & Hn & Hwf).
  exists d, n. split; [exact Hp|]. split; [exact Hwf|]. split; [auto|]. auto.
Qed.

Lemma size_inv this h v :
  inv h v ->
  wpu (size this) (fun _ => inv) (fun _ => inv) h v.
Proof.
  intros Hinv. destruct (v !! this) as [b|] eqn:Hb;
    [|now apply wpu_get_var_None].
  apply wp_wpu. apply (wp_size this b); auto.
  intros p Hd.
  destruct (inv_owner h v this b p Hinv Hb Hd) as (d & n & Hp & _).
  exists (Cell d n). auto.
Qed.

Lemma clear_inv this h v :
  inv h v ->
  wpu (clear this) (fun _ => inv) (fun _ => inv) h v.
Proof.
  intros Hinv. destruct (v !! this) as [b|] eqn:Hb;
    [|now apply wpu_get_var_None].
  apply wp_wpu. apply (wp_clear this b); auto.
  - intros p Hd. now apply (inv_is_Some [] h v this b).
  - intros h' Hrel.
    refine (inv_assigned h v this b (Binder None false) h' _ Hb _ Hrel);
      simpl; [now apply inv_ext_None|discriminate].
Qed.

Lemma ref_set_inv r x h v :
  inv h v ->
  wpu (ref_set r x) (fun _ => inv) (fun _ => inv) h v.
Proof.
  intros Hinv fs. unfold ref_set, get_object, set_object, get_cell, set_cell,
    mbind, M_bind, mret, M_ret. simpl.
  destruct (h !! r.1) as [c|] eqn:Hc; [|exact I].
  destruct (find_node r.2 (notes (object c))); [|exact I].
  simpl. rewrite Hc. simpl.
  apply (inv_set_object [] h v r.1 c); auto.
  apply data_wf_set_second. destruct Hinv as (_ & HB & _). apply (HB _ _ Hc).
Qed.

Lemma destroy_inv x h v :
  inv h v ->
  wpu (destroy x) (fun _ => inv) (fun _ => inv) h v.
Proof.
  intros Hinv. destruct (v !! x) as [b|] eqn:Hb;
    [|now apply wpu_get_var_None].
  apply wp_wpu. apply (wp_destroy x b); auto.
  - intros p Hd. now apply (inv_is_Some [] h v x b).
  - intros h' Hrel. unfold inv.
    apply (inv_released [] h _ (data b)); [|exact Hrel].
    now apply inv_unset.
Qed.

Lemma construct_inv (init : M binder) x h v :
  wpu init (fun b' h' v' => inv_ext [data b'] h' v' /\ fits v' b')
           (fun _ => inv) h v ->
  wpu (init ≫= declare x) (fun _ => inv) (fun _ => inv) h v.
Proof.
  intros Hinit. apply wpu_bind.
  intros fs. specialize (Hinit fs).
  destruct (init (State h v fs)) as [b' [h' v' fs']|e s|]; simpl in *;
    [|exact Hinit|exact I].
  destruct Hinit as [Hinv Hfits].
  destruct (v' !! x) as [b0|] eqn:Hx.
  - now apply (wpu_declare_Some x b' b0).
  - apply wp_wpu. apply wp_declare; [exact Hx|].
    now apply inv_declared.
Qed.

Lemma assign_inv this b' h v :
  inv_ext [data b'] h v ->
  (forall y b0 p, v !! y = Some b0 -> unsharable b0 = true ->
     data b0 = Some p -> data b' <> Some p) ->
  wpu (assign this b') (fun _ => inv) (fun _ => inv) h v.
Proof.
  intros Hinv Hfits. destruct (v !! this) as [t|] eqn:Ht;
    [|now apply wpu_get_var_None].
  apply wp_wpu. apply (wp_assign this t); auto.
  - intros p Hd. now apply (inv_is_Some [data b'] h v this t).
  - intros h' Hrel. now apply (inv_assigned h v this t b' h').
Qed.

Lemma wpu_discard {A} (m : M A) (P : gmap ptr cell -> gmap var binder -> Prop)
    E h v :
  wpu m (fun _ => P) E h v ->
  wpu (m ≫= fun _ => mret ()) (fun _ => P) E h v.
Proof.
  intros Hm fs. specialize (Hm fs). unfold mbind, M_bind.
  destruct (m (State h v fs)) as [a s|e s|]; simpl; [exact Hm|exact Hm|exact I].
Qed.

(** Whatever the client calls, the invariant holds afterwards, be it after
    a return or after an exception. *)
Lemma exec_inv c h v :
  inv h v -> wpu (exec c) (fun _ => inv) (fun _ => inv) h v.
Proof.
  intros Hinv. destruct c; simpl.
  - apply construct_inv. apply wp_wpu. apply wp_ret. simpl. split.
    + now apply inv_ext_None.
    + split; simpl; discriminate.
  - destruct (v !! other) as [o|] eqn:Ho.
    2:{ apply wpu_bind. now apply wpu_get_var_None. }
    apply construct_inv. apply wp_wpu.
    eapply wp_mono; [apply (copy_construct_inv other o h v Hinv Ho)| |auto].
    intros b' h' v' (-> & _ & Hi & Hf). auto.
  - destruct (v !! other) as [o|] eqn:Ho.
    2:{ apply wpu_bind. now apply wpu_get_var_None. }
    apply construct_inv. apply wp_wpu.
    eapply wp_mono; [apply (move_construct_inv other o h v Hinv Ho)| |auto].
    intros b' h' v' (-> & -> & _ & Hi & Hf). auto.
  - destruct (v !! other) as [o|] eqn:Ho.
    2:{ apply wpu_bind. now apply wpu_get_var_None. }
    unfold copy_assign. apply wpu_bind. apply wp_wpu.
    eapply wp_mono; [apply (copy_construct_inv other o h v Hinv Ho)| |auto].
    intros b' h' v' (-> & _ & Hi & Hf & _). now apply assign_inv.
  - destruct (v !! other) as [o|] eqn:Ho.
    2:{ apply wpu_bind. now apply wpu_get_var_None. }
    unfold move_assign. apply wpu_bind. apply wp_wpu.
    eapply wp_mono; [apply (move_construct_inv other o h v Hinv Ho)| |auto].
    intros b' h' v' (-> & -> & _ & Hi & Hf & _). now apply assign_inv.
  - now apply destroy_inv.
  - now apply insert_front_inv.
  - now apply insert_after_inv.
  - now apply remove_inv.
  - now apply remove_key_inv.
  - apply wpu_discard. now apply read_inv.
  - apply wpu_discard. now apply read_const_inv.
  - apply wpu_discard. now apply size_inv.
  - now apply clear_inv.
  - now apply ref_set_inv.
Qed.

(** *** The list of an object and the logical order *)

Lemma entries_split d l l1 n l2 :
  data_wf d -> notes d = l1 ++ n :: l2 -> entries d = entry_of <$> l ->
  exists a1 a2 k,
    l = a1 ++ (k, second n) :: a2 /\ first n = Some k /\
    (fun m => (first m, second m)) <$> l1 = entry_of <$> a1 /\
    (fun m => (first m, second m)) <$> l2 = entry_of <$> a2 /\
    (forall e, e ∈ a1 ++ a2 -> e.1 <> k).
Proof.
  intros (_ & Hkeys & _ & _) Hd Hl. unfold entries in Hl.
  rewrite Hd in Hl, Hkeys. rewrite fmap_app, fmap_cons in Hl. symmetry in Hl.
  apply fmap_app_inv in Hl as (a1 & a' & H1 & H2 & ->).
  symmetry in H2. apply fmap_cons_inv in H2 as ([k x] & a2 & He & H2 & ->).
  injection He as Hk Hx.
  exists a1, a2, k. rewrite Hx. repeat split; auto.
  intros e He Hek.
  rewrite fmap_app, fmap_cons in Hkeys.
  apply NoDup_app in Hkeys as (_ & Hdisj & Hk2).
  apply NoDup_cons in Hk2 as [Hnot2 _].
  assert (Hfst : forall (ls : list note) (a : list (K * V)),
             (fun m => (first m, second m)) <$> ls = entry_of <$> a ->
             e ∈ a -> first n ∈ first <$> ls).
  { intros ls a Heq Hin. rewrite Hk.
    assert (Hin' : entry_of e ∈ (fun m => (first m, second m)) <$> ls).
    { rewrite Heq. apply list_elem_of_fmap. eauto. }
    apply list_elem_of_fmap in Hin' as (m & Hm & Hmin).
    apply list_elem_of_fmap. exists m. split; [|exact Hmin].
    unfold entry_of in Hm. injection Hm as Hm _. rewrite <- Hm, Hek.
    reflexivity. }
  apply elem_of_app in He as [He|He].
  - apply (Hdisj (first n)); [apply (Hfst l1 a1); auto|left].
  - apply Hnot2. apply (Hfst l2 a2); auto.
Qed.

Lemma place_after_app prev_k kx (a1 a2 : list (K * V)) e :
  e.1 = prev_k -> (forall e', e' ∈ a1 -> e'.1 <> prev_k) ->
  place_after prev_k kx (a1 ++ e :: a2) = a1 ++ e :: kx :: a2.
Proof.
  intros He. induction a1 as [|e1 a1 IH]; intros Ha1; simpl.
  - rewrite decide_True by exact He. reflexivity.
  - rewrite decide_False by (apply Ha1; left).
    rewrite IH; [reflexivity|]. intros e' He'. apply Ha1. now right.
Qed.

Lemma drop_key_absent k (a : list (K * V)) :
  (forall e, e ∈ a -> e.1 <> k) -> drop_key k a = a.
Proof.
  unfold drop_key. induction a as [|e a IH]; intros Ha; [reflexivity|].
  rewrite filter_cons_True by (apply Ha; left).
  rewrite IH; [reflexivity|]. intros e' He'. apply Ha. now right.
Qed.

Lemma entries_push_front k x d l :
  entries d = entry_of <$> l ->
  entries (push_front k x d) = entry_of <$> logical (EInsertFront k x) l.
Proof.
  intros Hl. unfold entries in *. unfold push_front. cbn [notes].
  rewrite fmap_cons, Hl. reflexivity.
Qed.

Lemma entries_link_after prev_k prev k x d l :
  data_wf d -> index d !! prev_k = Some prev ->
  entries d = entry_of <$> l ->
  entries (link_after prev k x d)
  = entry_of <$> logical (EInsertAfter prev_k k x) l /\
  length (logical (EInsertAfter prev_k k x) l) = S (length l).
Proof.
  intros Hwf Hprev Hl.
  destruct (link_after_notes prev k x d) as (l1 & np & l2 & Hd & Hnp & _ & Hn).
  { now apply (index_node d prev_k). }
  destruct (entries_split d l l1 np l2 Hwf Hd Hl)
    as (a1 & a2 & k0 & -> & Hk0 & H1 & H2 & Hfresh).
  assert (k0 = prev_k) as ->.
  { assert (Hf : first np = Some prev_k).
    { apply (wf_node_key d prev_k prev np); auto.
      rewrite Hd. apply elem_of_app. right. left. }
    congruence. }
  simpl. rewrite place_after_app; [| reflexivity |].
  - split.
    + unfold entries. rewrite Hn.
      rewrite !fmap_app, !fmap_cons, H1, H2, Hk0. reflexivity.
    + rewrite !length_app. simpl. lia.
  - intros e' He'. apply Hfresh. apply elem_of_app. now left.
Qed.

Lemma entries_unlink k it d l :
  data_wf d -> index d !! k = Some it ->
  entries d = entry_of <$> l ->
  entries (unlink k it d) = entry_of <$> logical (ERemoveKey k) l /\
  S (length (logical (ERemoveKey k) l)) = length l.
Proof.
  intros Hwf Hk Hl.
  destruct (unlink_notes k it d Hwf Hk) as (l1 & n & l2 & Hd & Hn & Hf & Hnotes).
  destruct (entries_split d l l1 n l2 Hwf Hd Hl)
    as (a1 & a2 & k0 & -> & Hk0 & H1 & H2 & Hfresh).
  assert (k0 = k) as -> by congruence.
  assert (Hdrop : drop_key k (a1 ++ (k, second n) :: a2) = a1 ++ a2).
  { unfold drop_key. rewrite filter_app, filter_cons_False by (simpl; tauto).
    fold (drop_key k a1). fold (drop_key k a2).
    rewrite !drop_key_absent; [reflexivity| |];
      intros e He; apply Hfresh; apply elem_of_app; auto. }
  simpl. rewrite Hdrop. split.
  - unfold entries. rewrite Hnotes, !fmap_app, H1, H2. reflexivity.
  - rewrite !length_app. simpl. lia.
Qed.

(** [remove()] erases the first note. *)
Lemma entries_unlink_front k front rest d l :
  data_wf d -> notes d = front :: rest -> first front = Some k ->
  entries d = entry_of <$> l ->
  entries (unlink k (node front) d) = entry_of <$> logical ERemove l /\
  S (length (logical ERemove l)) = length l.
Proof.
  intros Hwf Hd Hf Hl. unfold entries, unlink in *. rewrite Hd in *. simpl.
  rewrite Nat.eqb_refl. simpl.
  destruct l as [|e l]; [discriminate|]. simpl in *.
  injection Hl as _ Hl. auto.
Qed.

(** *** Observing a binder *)

Lemma holds_contents this (s : state) es :
  holds (heap s) (vars s) this es <-> result (contents this s) = Some es.
Proof.
  unfold holds, contents, get_var, get_object, get_cell, mbind, M_bind,
    mret, M_ret, result. simpl. split.
  - intros (b & Hb & Hd). rewrite Hb. destruct (data b) as [p|].
    + destruct Hd as (c & Hc & <-). rewrite Hc. reflexivity.
    + now subst es.
  - destruct (vars s !! this) as [b|]; [|discriminate].
    intros Hr. exists b. split; [reflexivity|].
    destruct (data b) as [p|].
    + destruct (heap s !! p) as [c|]; [|discriminate].
      exists c. split; [reflexivity|]. simpl in Hr. congruence.
    + congruence.
Qed.

Lemma edited_holds h v this p d n d' fl h' v' :
  h !! p = Some (Cell d n) ->
  edited h v this p d n d' fl h' v' -> holds h' v' this (entries d').
Proof.
  intros Hp [(Hlt & p' & Hp' & -> & ->)|(-> & -> & ->)].
  - exists (Binder (Some p') fl). split; [apply lookup_insert_eq|]. simpl.
    exists (Cell d' 1). split; [|reflexivity].
    rewrite lookup_insert_ne by (intros ->; congruence).
    apply lookup_insert_eq.
  - exists (Binder (Some p) fl). split; [apply lookup_insert_eq|]. simpl.
    exists (Cell d' 1). split; [apply lookup_insert_eq|reflexivity].
Qed.

Lemma holds_owner h v this b p es :
  inv h v -> holds h v this es -> v !! this = Some b -> data b = Some p ->
  exists d n, h !! p = Some (Cell d n) /\ 1 <= n /\ data_wf d /\ entries d = es.
Proof.
  intros Hinv (b0 & Hb0 & Hh) Hb Hd.
  assert (b0 = b) as -> by congruence. rewrite Hd in Hh.
  destruct Hh as (c & Hc & He).
  destruct (inv_owner h v this b p Hinv Hb Hd) as (d & n & Hp & _ & Hn & Hwf).
  exists d, n. assert (c = Cell d n) as -> by congruence. auto.
Qed.

(** One edit that returns leaves the entries the logical order prescribes,
    one more or one less than before. *)
Lemma edit_step this e l h v :
  inv h v -> holds h v this (entry_of <$> l) ->
  wp (exec (edit_call this e))
     (fun _ h' v' =>
        inv h' v' /\ holds h' v' this (entry_of <$> logical e l) /\
        length (logical e l) + removed [e] = length l + inserted [e])
     (fun _ _ _ => True) h v.
Proof.
  intros Hinv Hholds. destruct Hholds as (b & Hb & Hh) eqn:Hholds'.
  clear Hholds'.
  assert (Hhold : holds h v this (entry_of <$> l)) by (exists b; auto).
  destruct e as [k x|prev_k k x| |k]; cbn [edit_call exec].
  - destruct (data b) as [p|] eqn:Hd.
    + destruct (holds_owner h v this b p _ Hinv Hhold Hb Hd)
        as (d & n & Hp & Hn & Hwf & He).
      apply (wp_insert_front this b p d n); auto.
      intros Hk. split; [exact I|]. intros h' v' Hed. split; [|split].
      * refine (inv_edited h v this b p d n _ _ h' v' Hinv Hb Hd Hp _ Hed).
        now apply data_wf_push_front.
      * rewrite <- (entries_push_front k x d l He).
        apply (edited_holds h v this p d n _ false h' v' Hp Hed).
      * unfold inserted, removed. simpl. lia.
    + apply (wp_insert_front_null this b); auto.
      intros p Hp. split; [exact I|]. split; [|split].
      * apply (inv_install h v this b); auto.
        apply data_wf_push_front; [apply data_wf_empty|apply lookup_empty].
      * destruct l as [|e l]; [|discriminate].
        exists (Binder (Some p) false). split; [apply lookup_insert_eq|].
        simpl. eexists. split; [apply lookup_insert_eq|reflexivity].
      * unfold inserted, removed. simpl. lia.
  - apply (wp_insert_after this b); auto.
    intros p Hd.
    destruct (holds_owner h v this b p _ Hinv Hhold Hb Hd)
      as (d & n & Hp & Hn & Hwf & He).
    exists d, n. split; [exact Hp|]. split; [exact Hn|]. split; [exact Hwf|].
    split; [auto|]. split; [auto|].
    intros prev Hprev Hk. split; [exact I|]. intros h' v' Hed.
    destruct (entries_link_after prev_k prev k x d l Hwf Hprev He) as [He' Hlen].
    split; [|split].
    + refine (inv_edited h v this b p d n _ _ h' v' Hinv Hb Hd Hp _ Hed).
      now apply (data_wf_link_after prev_k).
    + rewrite <- He'.
      apply (edited_holds h v this p d n _ false h' v' Hp Hed).
    + unfold inserted, removed. simpl in *. lia.
  - apply (wp_remove this b); auto.
    intros p Hd.
    destruct (holds_owner h v this b p _ Hinv Hhold Hb Hd)
      as (d & n & Hp & Hn & Hwf & He).
    exists d, n. split; [exact Hp|]. split; [exact Hn|]. split; [exact Hwf|].
    split; [auto|].
    intros front rest k Hnotes Hk. split; [exact I|]. intros h' v' Hed.
    destruct (entries_unlink_front k front rest d l Hwf Hnotes Hk He)
      as [He' Hlen].
    split; [|split].
    + refine (inv_edited h v this b p d n _ _ h' v' Hinv Hb Hd Hp _ Hed).
      apply data_wf_unlink; [exact Hwf|].
      destruct Hwf as (_ & _ & _ & Hidx). apply Hidx.
      exists (second front). rewrite <- Hk, note_eta, Hnotes. left.
    + rewrite <- He'.
      apply (edited_holds h v this p d n _ false h' v' Hp Hed).
    + unfold inserted, removed. simpl in *. lia.
  - apply (wp_remove_key this b); auto.
    intros p Hd.
    destruct (holds_owner h v this b p _ Hinv Hhold Hb Hd)
      as (d & n & Hp & Hn & Hwf & He).
    exists d, n. split; [exact Hp|]. split; [exact Hn|]. split; [exact Hwf|].
    split; [auto|].
    intros it_notes Hk. split; [exact I|]. intros h' v' Hed.
    destruct (entries_unlink k it_notes d l Hwf Hk He) as [He' Hlen].
    split; [|split].
    + refine (inv_edited h v this b p d n _ _ h' v' Hinv Hb Hd Hp _ Hed).
      now apply data_wf_unlink.
    + rewrite <- He'.
      apply (edited_holds h v this p d n _ false h' v' Hp Hed).
    + unfold inserted, removed. simpl in *. lia.
Qed.

Lemma find_node_middle (l1 l2 : list note) n :
  node n ∉ node <$> l1 -> find_node (node n) (l1 ++ n :: l2) = Some n.
Proof.
  unfold find_node. induction l1 as [|m l1 IH]; intros Hn; simpl.
  - now rewrite Nat.eqb_refl.
  - rewrite fmap_cons in Hn. apply not_elem_of_cons in Hn as [Hne Hn].
    destruct (Nat.eqb_spec (node m) (node n)); [congruence|]. now apply IH.
Qed.

Lemma next_node_middle p (l1 l2 : list note) n :
  node n ∉ node <$> l1 ->
  next_node p (node n) (l1 ++ n :: l2) = Some (list_begin p l2).
Proof.
  induction l1 as [|m l1 IH]; intros Hn; simpl.
  - now rewrite Nat.eqb_refl.
  - rewrite fmap_cons in Hn. apply not_elem_of_cons in Hn as [Hne Hn].
    destruct (Nat.eqb_spec (node m) (node n)); [congruence|]. now apply IH.
Qed.

(** The loop from a node of the list to its end meets the values of the
    notes from that node on, in list order, within as many rounds. *)
Lemma wp_iterate_loop p c (l1 l2 : list note) Q E h v :
  h !! p = Some c -> notes (object c) = l1 ++ l2 ->
  NoDup (node <$> notes (object c)) ->
  Q (second <$> l2) h v ->
  wp (iterate_loop (length l2) (ConstIterator (list_begin p l2) false)
        (ConstIterator (past_end p) false)) Q E h v.
Proof.
  intros Hp. revert l1 Q.
  induction l2 as [|n l2 IH]; intros l1 Q Hd Hnd HQ.
  - simpl. unfold iterator_eqb. simpl. rewrite Nat.eqb_refl.
    apply wp_ret. exact HQ.
  - assert (Hfresh : node n ∉ node <$> l1).
    { rewrite Hd, fmap_app, fmap_cons in Hnd.
      apply NoDup_app in Hnd as (_ & Hdisj & _).
      intros Hin. apply (Hdisj _ Hin). left. }
    simpl. unfold iterator_eqb. simpl.
    apply wp_bind. unfold dereference. simpl. unfold ref_get. simpl.
    apply wp_bind. apply (wp_get_object p c); [exact Hp|].
    rewrite Hd, find_node_middle by exact Hfresh. apply wp_ret.
    apply wp_bind. unfold increment. simpl.
    apply wp_bind. apply (wp_get_object p c); [exact Hp|].
    rewrite Hd, next_node_middle by exact Hfresh. apply wp_ret. simpl.
    apply wp_bind. apply (IH (l1 ++ [n])).
    + rewrite Hd, <- app_assoc. reflexivity.
    + exact Hnd.
    + apply wp_ret. exact HQ.
Qed.

Lemma wp_iterate this es Q E h v :
  inv h v -> holds h v this es ->
  Q (snd <$> es) h v -> wp (iterate this) Q E h v.
Proof.
  intros Hinv (b & Hb & Hh) HQ. unfold iterate.
  apply wp_bind. unfold cbegin. apply wp_bind.
  apply (wp_get_var this b); [exact Hb|].
  destruct (data b) as [p|] eqn:Hd.
  - destruct Hh as (c & Hc & He).
    destruct (inv_owner h v this b p Hinv Hb Hd) as (d & n & Hp & _ & _ & Hwf).
    assert (c = Cell d n) as -> by congruence. simpl in He.
    apply wp_bind. apply (wp_get_object p (Cell d n)); [exact Hp|].
    apply wp_ret. simpl.
    apply wp_bind. unfold cend. apply wp_bind.
    apply (wp_get_var this b); [exact Hb|]. rewrite Hd. apply wp_ret.
    apply wp_bind. apply (wp_size this b); [exact Hb|congruence|].
    intros p0 Hp0. assert (p0 = p) as -> by congruence.
    exists (Cell d n). split; [exact Hp|]. simpl.
    apply (wp_iterate_loop p (Cell d n) [] (notes d)); auto.
    + apply Hwf.
    + replace (second <$> notes d) with (snd <$> es); [exact HQ|].
      rewrite <- He. unfold entries. rewrite <- list_fmap_compose.
      reflexivity.
  - subst es. apply wp_ret.
    apply wp_bind. unfold cend. apply wp_bind.
    apply (wp_get_var this b); [exact Hb|]. rewrite Hd. apply wp_ret.
    apply wp_bind. apply (wp_size this b); [exact Hb| |congruence].
    intros _. simpl. unfold iterator_eqb. simpl. apply wp_ret. exact HQ.
Qed.

Lemma wp_size_holds this es Q E h v :
  holds h v this es -> Q (length es) h v -> wp (size this) Q E h v.
Proof.
  intros (b & Hb & Hh) HQ. apply (wp_size this b); [exact Hb| |].
  - intros Hd. rewrite Hd in Hh. now subst es.
  - intros p Hd. rewrite Hd in Hh. destruct Hh as (c & Hc & <-).
    exists c. split; [exact Hc|]. unfold entries in HQ.
    now rewrite length_fmap in HQ.
Qed.

(** *** Reachable states *)

Lemma initial_inv : inv ∅ ∅.
Proof.
  split; [|split].
  - intros p. rewrite owners_empty, tcount_nil. lia.
  - intros p c Hp. rewrite lookup_empty in Hp. discriminate.
  - intros x b p Hx. rewrite lookup_empty in Hx. discriminate.
Qed.

Lemma after_inv c (s : state) :
  inv (heap s) (vars s) ->
  inv (heap (after (exec c s) s)) (vars (after (exec c s) s)).
Proof.
  intros Hinv. destruct s as [h v fs]. simpl in Hinv.
  assert (Hc := exec_inv c h v Hinv fs).
  destruct (exec c (State h v fs)); simpl; auto.
Qed.

Lemma run_inv cs (s : state) :
  inv (heap s) (vars s) -> inv (heap (run cs s)) (vars (run cs s)).
Proof.
  revert s. induction cs as [|c cs IH]; intros s Hinv; simpl; [exact Hinv|].
  apply IH. now apply after_inv.
Qed.

Lemma inv_unsharable_unique (s : state) :
  inv (heap s) (vars s) -> unsharable_unique s.
Proof.
  intros Hinv x b p Hx Hfl Hp.
  destruct (inv_owner _ _ x b p Hinv Hx Hp) as (d & n & Hc & Hn & _ & _).
  destruct Hinv as (_ & _ & HC). assert (H1 := HC x b p Hx Hfl Hp).
  split.
  - exists (Cell d n). split; [exact Hc|]. simpl. lia.
  - intros y b' Hne Hy Hown.
    assert (1 < owners (vars s) p); [|lia].
    apply (owners_two (vars s) x y b b'); auto.
Qed.

(** C8: in every state a program reaches from the start by construction,
    copy, move, assignment, destruction, [insert_front], [insert_after],
    [remove], [remove(k)], both [read]s, [size], [clear] and writes through
    the references it was given, whatever fails on the way, a binder whose
    [unsharable] flag is set and that references an object is the only owner
    of that object: the owner count is 1 and no other binder references
    it. *)
Theorem unsharable_binder_owns_alone (cs : list call) (fs : list bool) :
  unsharable_unique (run cs (initial fs)).
Proof.
  apply inv_unsharable_unique. apply run_inv. simpl. apply initial_inv.
Qed.

(** *** Iteration order *)

Lemma snd_entries (l : list (K * V)) : snd <$> (entry_of <$> l) = snd <$> l.
Proof. rewrite <- list_fmap_compose. reflexivity. Qed.

Lemma logical_all_cons e es l :
  logical_all (e :: es) l = logical_all es (logical e l).
Proof. reflexivity. Qed.

Lemma inserted_cons e es : inserted (e :: es) = inserted [e] + inserted es.
Proof. unfold inserted. simpl. destruct (is_insert e); reflexivity. Qed.

Lemma removed_cons e es : removed (e :: es) = removed [e] + removed es.
Proof. unfold removed. simpl. destruct (is_insert e); reflexivity. Qed.

Lemma iterate_result this (s : state) es :
  inv (heap s) (vars s) -> holds (heap s) (vars s) this es ->
  result (iterate this s) = Some (snd <$> es).
Proof.
  intros Hinv Hh.
  assert (Hw := wp_run (iterate this) (fun r _ _ => r = snd <$> es)
                  (fun _ _ _ => False) s
                  (wp_iterate this es _ _ _ _ Hinv Hh eq_refl)).
  destruct (iterate this s); simpl in *; [now subst|contradiction..].
Qed.

Lemma size_result this (s : state) es :
  holds (heap s) (vars s) this es ->
  result (size this s) = Some (length es).
Proof.
  intros Hh.
  assert (Hw := wp_run (size this) (fun r _ _ => r = length es)
                  (fun _ _ _ => False) s
                  (wp_size_holds this es _ _ _ _ Hh eq_refl)).
  destruct (size this s); simpl in *; [now subst|contradiction..].
Qed.

(** C6: when a sequence of [insert_front], [insert_after], [remove] and
    [remove(k)] calls on a binder all return, the binder holds its entries in
    the logical order the calls define, iterating from [cbegin()] to [cend()]
    meets their values in that order, and [size()] is the number of entries:
    those there at the start and those inserted, less those removed. *)
Theorem iteration_follows_logical_order
    (this : var) (es : list edit) (l : list (K * V)) (s s' : state) :
  inv (heap s) (vars s) ->
  result (contents this s) = Some (entry_of <$> l) ->
  run_edits this es s = Some s' ->
  result (contents this s') = Some (entry_of <$> logical_all es l) /\
  result (iterate this s') = Some (snd <$> logical_all es l) /\
  result (size this s') = Some (length (logical_all es l)) /\
  length (logical_all es l) + removed es = length l + inserted es.
Proof.
  revert l s. induction es as [|e es IH]; intros l s Hinv Hc Hrun.
  - simpl in Hrun. injection Hrun as <-. apply holds_contents in Hc as Hh.
    change (logical_all [] l) with l.
    split; [exact Hc|]. split; [|split].
    + rewrite <- snd_entries. now apply iterate_result.
    + rewrite <- (length_fmap entry_of l). now apply size_result.
    + unfold inserted, removed. simpl. lia.
  - simpl in Hrun. apply holds_contents in Hc.
    assert (Hstep := wp_run _ _ _ s (edit_step this e l _ _ Hinv Hc)).
    destruct (exec (edit_call this e) s) as [[] s1| |]; [|discriminate..].
    destruct Hstep as (Hinv1 & Hh1 & Hlen).
    apply holds_contents in Hh1.
    destruct (IH (logical e l) s1 Hinv1 Hh1 Hrun) as (H1 & H2 & H3 & H4).
    rewrite logical_all_cons, inserted_cons, removed_cons.
    repeat split; auto. lia.
Qed.

(** *** Copy on write *)

(** A mutating call on a binder that has an object either returns in an
    [edited] state or throws in the state it started from. *)
Lemma mutating_edited this c b p d n h v :
  inv h v -> v !! this = Some b -> data b = Some p ->
  h !! p = Some (Cell d n) -> mutating this c ->
  wp (exec c)
     (fun _ h' v' => exists d' fl, edited h v this p d n d' fl h' v')
     (fun _ h' v' => h' = h /\ v' = v) h v.
Proof.
  intros Hinv Hb Hd Hp Hmut.
  destruct (inv_owner h v this b p Hinv Hb Hd) as (d0 & n0 & Hp0 & _ & Hn & Hwf).
  assert (d0 = d /\ n0 = n) as [-> ->] by (split; congruence). clear Hp0.
  assert (Hcell : forall p0, data b = Some p0 -> exists d1 n1,
             h !! p0 = Some (Cell d1 n1) /\ d1 = d /\ n1 = n /\ p0 = p).
  { intros p0 Hp0. assert (p0 = p) as -> by congruence.
    exists d, n. repeat split; auto. }
  destruct Hmut as [[e ->]|[k ->]].
  - destruct e as [k x|prev_k k x| |k]; cbn [edit_call exec].
    + apply (wp_insert_front this b p d n); auto.
      intros Hk. split; [auto|]. eauto.
    + apply (wp_insert_after this b); [exact Hb|auto|].
      intros p0 Hp0. destruct (Hcell p0 Hp0) as (d1 & n1 & Hc & -> & -> & ->).
      exists d, n. split; [exact Hc|]. split; [exact Hn|]. split; [exact Hwf|].
      split; [auto|]. split; [auto|].
      intros prev Hprev Hk. split; [auto|]. eauto.
    + apply (wp_remove this b); [exact Hb|auto|].
      intros p0 Hp0. destruct (Hcell p0 Hp0) as (d1 & n1 & Hc & -> & -> & ->).
      exists d, n. split; [exact Hc|]. split; [exact Hn|]. split; [exact Hwf|].
      split; [auto|].
      intros front rest k Hnotes Hk. split; [auto|]. eauto.
    + apply (wp_remove_key this b); [exact Hb|auto|].
      intros p0 Hp0. destruct (Hcell p0 Hp0) as (d1 & n1 & Hc & -> & -> & ->).
      exists d, n. split; [exact Hc|]. split; [exact Hn|]. split; [exact Hwf|].
      split; [auto|].
      intros it_notes Hk. split; [auto|]. eauto.
  - cbn [exec]. apply wp_bind. apply (wp_read this b); [exact Hb|auto|].
    intros p0 Hp0. destruct (Hcell p0 Hp0) as (d1 & n1 & Hc & -> & -> & ->).
    exists d, n. split; [exact Hc|]. split; [exact Hn|]. split; [exact Hwf|].
    split; [auto|].
    intros it_notes Hk. split; [auto|]. intros q h' v' Hed _.
    apply wp_ret. eauto.
Qed.

(** A mutating call that returns has left the object [edit_object]
    computes from the one it started from, in an [edited] state. *)
Lemma mutating_effect this c b p d n h v :
  inv h v -> v !! this = Some b -> data b = Some p ->
  h !! p = Some (Cell d n) -> mutating this c ->
  wp (exec c)
     (fun _ h' v' => exists d' fl,
        edit_object c d = Some (d', fl) /\
        edited h v this p d n d' fl h' v')
     (fun _ h' v' => h' = h /\ v' = v) h v.
Proof.
  intros Hinv Hb Hd Hp Hmut.
  destruct (inv_owner h v this b p Hinv Hb Hd) as (d0 & n0 & Hp0 & _ & Hn & Hwf).
  assert (d0 = d /\ n0 = n) as [-> ->] by (split; congruence). clear Hp0.
  assert (Hcell : forall p0, data b = Some p0 -> exists d1 n1,
             h !! p0 = Some (Cell d1 n1) /\ d1 = d /\ n1 = n /\ p0 = p).
  { intros p0 Hp0. assert (p0 = p) as -> by congruence.
    exists d, n. repeat split; auto. }
  destruct Hmut as [[e ->]|[k ->]].
  - destruct e as [k x|prev_k k x| |k]; cbn [edit_call exec edit_object].
    + apply (wp_insert_front this b p d n); auto.
      intros Hk. split; [auto|]. eauto.
    + apply (wp_insert_after this b); [exact Hb|auto|].
      intros p0 Hp0. destruct (Hcell p0 Hp0) as (d1 & n1 & Hc & -> & -> & ->).
      exists d, n. split; [exact Hc|]. split; [exact Hn|]. split; [exact Hwf|].
      split; [auto|]. split; [auto|].
      intros prev Hprev Hk. split; [auto|]. rewrite Hprev. eauto.
    + apply (wp_remove this b); [exact Hb|auto|].
      intros p0 Hp0. destruct (Hcell p0 Hp0) as (d1 & n1 & Hc & -> & -> & ->).
      exists d, n. split; [exact Hc|]. split; [exact Hn|]. split; [exact Hwf|].
      split; [auto|].
      intros front rest k Hnotes Hk. split; [auto|]. rewrite Hnotes, Hk. eauto.
    + apply (wp_remove_key this b); [exact Hb|auto|].
      intros p0 Hp0. destruct (Hcell p0 Hp0) as (d1 & n1 & Hc & -> & -> & ->).
      exists d, n. split; [exact Hc|]. split; [exact Hn|]. split; [exact Hwf|].
      split; [auto|].
      intros it_notes Hk. split; [auto|]. rewrite Hk. eauto.
  - cbn [exec edit_object]. apply wp_bind.
    apply (wp_read this b); [exact Hb|auto|].
    intros p0 Hp0. destruct (Hcell p0 Hp0) as (d1 & n1 & Hc & -> & -> & ->).
    exists d, n. split; [exact Hc|]. split; [exact Hn|]. split; [exact Hwf|].
    split; [auto|].
    intros it_notes Hk. split; [auto|]. intros q h' v' Hed _.
    apply wp_ret. eauto.
Qed.

(** The object [edit_object] computes holds the entries the logical order
    prescribes. *)
Lemma edit_object_entries this e d d' fl l :
  data_wf d -> edit_object (edit_call this e) d = Some (d', fl) ->
  entries d = entry_of <$> l ->
  entries d' = entry_of <$> logical e l /\ fl = false.
Proof.
  intros Hwf Hedit Hl.
  destruct e as [k x|prev_k k x| |k]; cbn [edit_call edit_object] in Hedit.
  - injection Hedit as <- <-. split; [|reflexivity].
    now apply entries_push_front.
  - destruct (index d !! prev_k) as [prev|] eqn:Hprev; [|discriminate].
    injection Hedit as <- <-. split; [|reflexivity].
    now apply (entries_link_after prev_k prev k x d l).
  - destruct (notes d) as [|front rest] eqn:Hnotes; [discriminate|].
    destruct (first front) as [k|] eqn:Hk; [|discriminate].
    injection Hedit as <- <-. split; [|reflexivity].
    now apply (entries_unlink_front k front rest d l).
  - destruct (index d !! k) as [it_notes|] eqn:Hk; [|discriminate].
    injection Hedit as <- <-. split; [|reflexivity].
    now apply (entries_unlink k it_notes d l).
Qed.

(** Amended C2: a mutating call ([insert_front], [insert_after], [remove],
    [remove(k)], mutable [read]) that returns leaves the object [d'] the
    member computes from the object [d] the binder started with: for the
    four edits the entries of [d] changed as the logical order prescribes,
    for the mutable [read] the object [d] itself.  When [d] has more than
    one owner, [d'] is a copy at a fresh address, held by this binder alone,
    and the object at the former address is [d] as it was, with one owner
    less.  When [d] has a single owner it is replaced by [d'] in place,
    whether the binder is marked unsharable or not. *)
Theorem mutation_copies_shared_object
    (this : var) (c : call) (b : binder) (p : ptr) (d : data_t) (n : nat)
    (s s' : state) :
  inv (heap s) (vars s) ->
  vars s !! this = Some b -> data b = Some p ->
  heap s !! p = Some (Cell d n) ->
  mutating this c ->
  exec c s = Return () s' ->
  exists d' fl,
    edit_object c d = Some (d', fl) /\
    (forall e l, c = edit_call this e -> entries d = entry_of <$> l ->
       entries d' = entry_of <$> logical e l) /\
    (forall k, c = Read this k -> d' = d) /\
    edited (heap s) (vars s) this p d n d' fl (heap s') (vars s') /\
    (1 < n ->
       heap s' !! p = Some (Cell d (n - 1)) /\
       exists p', p' <> p /\ heap s !! p' = None /\
         vars s' !! this = Some (Binder (Some p') fl) /\
         heap s' !! p' = Some (Cell d' 1)) /\
    (n = 1 ->
       vars s' !! this = Some (Binder (Some p) fl) /\
       heap s' = <[p := Cell d' 1]> (heap s)).
Proof.
  intros Hinv Hb Hd Hp Hmut Hexec.
  assert (Hw := wp_run _ _ _ s
                  (mutating_effect this c b p d n _ _ Hinv Hb Hd Hp Hmut)).
  rewrite Hexec in Hw. destruct Hw as (d' & fl & Hedit & Hed).
  destruct (inv_owner _ _ this b p Hinv Hb Hd) as (d0 & n0 & Hp0 & _ & _ & Hwf).
  assert (d0 = d) as -> by congruence.
  exists d', fl. split; [exact Hedit|]. split; [|split; [|split; [exact Hed|split]]].
  - intros e l -> Hl.
    now destruct (edit_object_entries this e d d' fl l Hwf Hedit Hl).
  - intros k ->. cbn [edit_object] in Hedit. congruence.
  - intros Hlt. destruct Hed as [(_ & p' & Hp' & Hh & Hv)|(-> & _)]; [|lia].
    assert (Hne : p' <> p) by (intros ->; congruence).
    split.
    + rewrite Hh. apply lookup_insert_eq.
    + exists p'. split; [exact Hne|]. split; [exact Hp'|]. split.
      * rewrite Hv. apply lookup_insert_eq.
      * rewrite Hh, lookup_insert_ne by congruence. apply lookup_insert_eq.
  - intros ->. destruct Hed as [(Hlt & _)|(_ & Hh & Hv)]; [lia|].
    split; [rewrite Hv; apply lookup_insert_eq|exact Hh].
Qed.

(** The sound part of C1: a mutating call that throws on a binder that has
    an object leaves the memory and every binder as they were; a copy made
    on the way is gone. *)
Lemma failure_keeps_state this c b p (s s' : state) e :
  inv (heap s) (vars s) ->
  vars s !! this = Some b -> data b = Some p ->
  mutating this c ->
  exec c s = Throw e s' ->
  heap s' = heap s /\ vars s' = vars s.
Proof.
  intros Hinv Hb Hd Hmut Hexec.
  destruct (inv_owner _ _ this b p Hinv Hb Hd) as (d & n & Hp & _).
  assert (Hw := wp_run _ _ _ s
                  (mutating_edited this c b p d n _ _ Hinv Hb Hd Hp Hmut)).
  rewrite Hexec in Hw. exact Hw.
Qed.

(** *** A mutable reference and a later copy *)



Lemma wp_ref_set p c it_notes w Q E h v :
  h !! p = Some c -> it_notes ∈ node <$> notes (object c) ->
  Q () (<[p := Cell (Data (set_second it_notes w (notes (object c)))
                          (index (object c))) (use_count c)]> h) v ->
  wp (ref_set (p, it_notes) w) Q E h v.
Proof.
  intros Hp Hin HQ. unfold ref_set. simpl. apply wp_bind.
  apply (wp_get_object p c); [exact Hp|].
  destruct (find_node_is_Some _ _ Hin) as [n ->].
  apply (wp_set_object p c); [exact Hp|exact HQ].
Qed.


Lemma read_defined this k (s s1 : state) r :
  read this k s = Return r s1 -> is_Some (vars s !! this).
Proof.
  unfold read, mbind, M_bind, get_var. simpl.
  destruct (vars s !! this); [eauto|discriminate].
Qed.


(** *** Rejected calls *)

Lemma key_in_cases this k (s : state) (r : bool) :
  result (key_in this k s) = Some r ->
  exists b, vars s !! this = Some b /\ has_key (data b) k s = Return r s.
Proof.
  unfold key_in, mbind, M_bind, get_var. simpl.
  destruct (vars s !! this) as [b|]; [|discriminate].
  intros Hr. exists b. split; [reflexivity|].
  unfold has_key, get_object, get_cell, mbind, M_bind, mret, M_ret in *.
  destruct (data b) as [p|]; simpl in *.
  - destruct (heap s !! p); simpl in *; [congruence|discriminate].
  - congruence.
Qed.

(** Amended C5: [remove(k)] with [k] absent throws "Key not found";
    [insert_front(k, v)] with [k] present throws "Key already exists";
    [insert_after(p, k, v)] throws "Prev_key not found" when [p] is absent,
    whether [k] is present or not, and "Key already exists" when [p] and [k]
    are both present; [remove()] on a binder of size 0 throws
    "Empty binder".  Each of these calls throws in the very state it was
    made in, so that size and iteration order are what they were. *)
Theorem rejected_call_keeps_state
    (this : var) (k prev_k : K) (x : V) (s : state) :
  (result (key_in this k s) = Some false ->
     remove_key this k s = Throw (invalid_argument "Key not found") s) /\
  (result (key_in this k s) = Some true ->
     insert_front this k x s
     = Throw (invalid_argument "Key already exists") s) /\
  (result (key_in this prev_k s) = Some true ->
   result (key_in this k s) = Some true ->
     insert_after this prev_k k x s
     = Throw (invalid_argument "Key already exists") s) /\
  (result (key_in this prev_k s) = Some false ->
     insert_after this prev_k k x s
     = Throw (invalid_argument "Prev_key not found") s) /\
  (result (size this s) = Some 0 ->
     remove this s = Throw (invalid_argument "Empty binder") s).
Proof.
  split; [|split; [|split; [|split]]].
  - intros Hk. destruct (key_in_cases this k s false Hk) as (b & Hb & Hhas).
    unfold remove_key, mbind, M_bind, get_var. simpl.
    rewrite Hb, Hhas. reflexivity.
  - intros Hk. destruct (key_in_cases this k s true Hk) as (b & Hb & Hhas).
    unfold insert_front, mbind, M_bind, get_var. simpl.
    rewrite Hb, Hhas. reflexivity.
  - intros Hp Hk.
    destruct (key_in_cases this prev_k s true Hp) as (b & Hb & Hhasp).
    destruct (key_in_cases this k s true Hk) as (b' & Hb' & Hhask).
    assert (b' = b) as -> by congruence.
    unfold insert_after, mbind, M_bind, get_var. simpl.
    rewrite Hb, Hhasp. simpl. rewrite Hhask. reflexivity.
  - intros Hp.
    destruct (key_in_cases this prev_k s false Hp) as (b & Hb & Hhasp).
    unfold insert_after, mbind, M_bind, get_var. simpl.
    rewrite Hb, Hhasp. reflexivity.
  - unfold remove, mbind, M_bind. simpl.
    destruct (size this s) as [n s0|e s0|] eqn:Hsize; simpl;
      [|discriminate..].
    intros [= ->]. simpl.
    assert (s0 = s) as ->; [|reflexivity].
    cbv [size mbind M_bind get_var get_object get_cell mret M_ret] in Hsize.
    destruct (vars s !! this) as [b|]; [|discriminate].
    destruct (data b) as [p|]; [|now inversion Hsize].
    destruct (heap s !! p); [now inversion Hsize|discriminate].
Qed.

(** *** What a call leaves alone *)

Lemma wp_conj {A} (m : M A) Q1 Q2 E1 E2 h v :
  wp m Q1 E1 h v -> wp m Q2 E2 h v ->
  wp m (fun a h' v' => Q1 a h' v' /\ Q2 a h' v')
       (fun e h' v' => E1 e h' v' /\ E2 e h' v') h v.
Proof.
  intros H1 H2 fs. specialize (H1 fs). specialize (H2 fs).
  destruct (m (State h v fs)); auto.
Qed.

Lemma frame_lookup T h v h' v' :
  (forall y, y ∉ T -> v' !! y = v !! y) ->
  (forall y b q c, y ∉ T -> v !! y = Some b -> data b = Some q ->
     h !! q = Some c -> exists c', h' !! q = Some c' /\ object c' = object c) ->
  frame T h v h' v'.
Proof.
  intros Hv Hh y es Hy (b & Hb & Hd). exists b.
  split; [now rewrite Hv|].
  destruct (data b) as [q|] eqn:Hq; [|exact Hd].
  destruct Hd as (c & Hc & He).
  destruct (Hh y b q c Hy Hb Hq Hc) as (c' & Hc' & Ho).
  exists c'. split; [exact Hc'|]. now rewrite Ho.
Qed.

Lemma frame_refl T h v : frame T h v h v.
Proof. intros y es _ Hh. exact Hh. Qed.

Lemma not_in_one (y x : var) : y ∉ [x] -> y <> x.
Proof. intros Hy ->. apply Hy. left. Qed.

Lemma not_in_two (y x z : var) : y ∉ [x; z] -> y <> x /\ y <> z.
Proof.
  intros Hy. split; intros ->; apply Hy; [left|right; left].
Qed.

Lemma edited_frame h v this b p d n d' fl h' v' :
  inv h v -> v !! this = Some b -> data b = Some p ->
  h !! p = Some (Cell d n) ->
  edited h v this p d n d' fl h' v' -> frame [this] h v h' v'.
Proof.
  intros Hinv Hb Hd Hp Hed. apply frame_lookup.
  - intros y Hy. apply not_in_one in Hy.
    destruct Hed as [(_ & p' & _ & _ & ->)|(_ & _ & ->)];
      now rewrite lookup_insert_ne by congruence.
  - intros y b0 q c Hy Hy0 Hq Hc. apply not_in_one in Hy.
    destruct Hed as [(_ & p' & Hp' & -> & _)|(-> & -> & _)].
    + destruct (decide (q = p)) as [->|Hne].
      * exists (Cell d (n - 1)). rewrite lookup_insert_eq.
        split; [reflexivity|]. rewrite Hp in Hc. now injection Hc as <-.
      * exists c. split; [|reflexivity].
        rewrite !lookup_insert_ne by congruence. exact Hc.
    + assert (Hne : q <> p).
      { intros ->.
        destruct (inv_owner h v this b p Hinv Hb Hd)
          as (d0 & n0 & Hp0 & Hn0 & _).
        assert (n0 = 1) by congruence.
        assert (1 < owners v p); [|lia].
        apply (owners_two v this y b b0); auto. }
      exists c. split; [|reflexivity].
      now rewrite lookup_insert_ne by congruence.
Qed.

Lemma released_frame t h v x b h' y b0 q c :
  inv_ext t h v -> v !! x = Some b -> released h (data b) h' ->
  y <> x -> v !! y = Some b0 -> data b0 = Some q -> h !! q = Some c ->
  exists c', h' !! q = Some c' /\ object c' = object c.
Proof.
  intros Hinv Hb Hrel Hy Hy0 Hq Hc.
  destruct (data b) as [p|] eqn:Hd; simpl in Hrel; [|subst h'; eauto].
  destruct Hrel as (c0 & Hc0 & Hrel).
  destruct (decide (q = p)) as [->|Hne].
  - assert (c0 = c) as -> by congruence.
    assert (Htwo : 1 < owners v p)
      by (apply (owners_two v x y b b0); auto).
    destruct Hinv as (_ & HB & _). destruct (HB p c Hc) as [Hn _].
    destruct Hrel as [[Hle _]|[_ ->]]; [lia|].
    eexists. rewrite lookup_insert_eq. split; reflexivity.
  - exists c. split; [|reflexivity].
    destruct Hrel as [[_ ->]|[_ ->]].
    + now rewrite lookup_delete_ne by congruence.
    + now rewrite lookup_insert_ne by congruence.
Qed.

Lemma acquired_object h o h' q c :
  acquired h o h' -> h !! q = Some c ->
  exists c', h' !! q = Some c' /\ object c' = object c.
Proof.
  intros Hacq Hc. destruct o as [p|]; simpl in Hacq; [|subst h'; eauto].
  destruct Hacq as (c0 & Hc0 & ->).
  destruct (decide (q = p)) as [->|Hne].
  - assert (c0 = c) as -> by congruence.
    eexists. rewrite lookup_insert_eq. split; reflexivity.
  - exists c. split; [|reflexivity]. now rewrite lookup_insert_ne by congruence.
Qed.

Lemma fresh_object (h : gmap ptr cell) p' c0 q c :
  h !! p' = None -> h !! q = Some c ->
  exists c', <[p' := c0]> h !! q = Some c' /\ object c' = object c.
Proof.
  intros Hp' Hc. exists c. split; [|reflexivity].
  rewrite lookup_insert_ne; [exact Hc|]. intros ->. congruence.
Qed.

Lemma rolled_back_frame c h v h' v' :
  inv h v -> rolled_back c h v h' v' -> frame [] h v h' v'.
Proof.
  intros Hinv [[-> ->]|(this & k & x & b & p & _ & Hb & Hd & Hp & -> & ->)];
    [apply frame_refl|].
  intros y es _ (b0 & Hb0 & Hh).
  destruct (decide (y = this)) as [->|Hne].
  - assert (b0 = b) as -> by congruence. rewrite Hd in Hh. subst es.
    exists (Binder (Some p) (unsharable b)).
    split; [apply lookup_insert_eq|]. simpl.
    eexists. split; [apply lookup_insert_eq|reflexivity].
  - exists b0. split; [now rewrite lookup_insert_ne by congruence|].
    destruct (data b0) as [q|] eqn:Hq; [|exact Hh].
    destruct Hh as (c0 & Hc0 & He). exists c0. split; [|exact He].
    rewrite lookup_insert_ne; [exact Hc0|]. intros ->. congruence.
Qed.

Lemma copy_construct_grows other o h v :
  inv h v -> v !! other = Some o ->
  wp (copy_construct other)
     (fun b' h' _ =>
        (forall q c, h !! q = Some c ->
           exists c', h' !! q = Some c' /\ object c' = object c) /\
        (forall es, holds h v other es ->
           holds h' (<[other := b']> v) other es))
     (fun e h' v' => e = bad_alloc /\ h' = h /\ v' = v) h v.
Proof.
  intros Hinv Ho. apply (wp_copy_construct other o); [exact Ho| |].
  - intros p Hp.
    destruct (inv_owner h v other o p Hinv Ho Hp) as (d & n & Hc & _ & _ & Hwf).
    exists (Cell d n). split; [exact Hc|]. split; [exact Hwf|].
    intros _. split; [auto|]. intros p' Hp'. split.
    + intros q c0 Hq. now apply fresh_object.
    + intros es (b0 & Hb0 & Hh). assert (b0 = o) as -> by congruence.
      rewrite Hp in Hh. destruct Hh as (c0 & Hc0 & He).
      assert (c0 = Cell d n) as -> by congruence.
      eexists. split; [apply lookup_insert_eq|]. simpl.
      eexists. split; [apply lookup_insert_eq|exact He].
  - intros _ h' Hacq. split.
    + intros q c0 Hq. exact (acquired_object h _ h' q c0 Hacq Hq).
    + intros es (b0 & Hb0 & Hh). assert (b0 = o) as -> by congruence.
      eexists. split; [apply lookup_insert_eq|]. simpl.
      destruct (data o) as [p|]; [|exact Hh].
      destruct Hh as (c0 & Hc0 & He).
      destruct (acquired_object h _ h' p c0 Hacq Hc0) as (c' & Hc' & Ho').
      exists c'. split; [exact Hc'|congruence].
Qed.

Lemma copy_construct_spec other o h v :
  inv h v -> v !! other = Some o ->
  wp (copy_construct other)
     (fun b' h' v' =>
        v' = v /\ unsharable b' = false /\ inv_ext [data b'] h' v /\
        fits v b' /\
        (forall q c, h !! q = Some c ->
           exists c', h' !! q = Some c' /\ object c' = object c) /\
        (forall es, holds h v other es ->
           holds h' (<[other := b']> v) other es))
     (fun e h' v' => e = bad_alloc /\ h' = h /\ v' = v) h v.
Proof.
  intros Hinv Ho.
  eapply wp_mono;
    [exact (wp_conj _ _ _ _ _ _ _ (copy_construct_inv other o h v Hinv Ho)
              (copy_construct_grows other o h v Hinv Ho))| |].
  - intros b' h' v' ((-> & Hfl & Hi & Hf) & Hg & Hh). auto 10.
  - intros e h' v' [_ He]. exact He.
Qed.

Lemma move_construct_spec other o h v :
  inv h v -> v !! other = Some o ->
  wp (move_construct other)
     (fun b' h' v' =>
        h' = h /\ v' = <[other := Binder None (unsharable o)]> v /\
        b' = Binder (data o) (unsharable o) /\
        inv_ext [data b'] h v' /\ fits v' b')
     (fun _ _ _ => False) h v.
Proof.
  intros Hinv Ho.
  eapply wp_mono;
    [exact (wp_conj _ _ _ _ _ _ _ (move_construct_inv other o h v Hinv Ho)
              (wp_move_construct other o
                 (fun b' _ _ => b' = Binder (data o) (unsharable o))
                 (fun _ _ _ => False) h v Ho eq_refl))| |].
  - intros b' h' v' ((-> & -> & _ & Hi & Hf) & ->). auto 10.
  - intros e h' v' [_ []].
Qed.

Lemma assign_frame this t b' T h0 v0 h v :
  inv_ext [data b'] h v -> v !! this = Some t ->
  this ∈ T ->
  (forall y, y ∉ T -> v !! y = v0 !! y) ->
  (forall q c, h0 !! q = Some c ->
     exists c', h !! q = Some c' /\ object c' = object c) ->
  wp (assign this b') (fun _ => frame T h0 v0) (fun _ _ _ => False) h v.
Proof.
  intros Hinv Ht Hin Hv Hh. apply (wp_assign this t); [exact Ht| |].
  - intros p Hd. now apply (inv_is_Some [data b'] h v this t).
  - intros h' Hrel. apply frame_lookup.
    + intros y Hy. rewrite lookup_insert_ne; [now apply Hv|].
      intros <-. contradiction.
    + intros y b0 q c Hy Hy0 Hq Hc.
      destruct (Hh q c Hc) as (c1 & Hc1 & Ho1).
      assert (Hne : y <> this) by (intros ->; contradiction).
      rewrite <- Hv in Hy0 by exact Hy.
      destruct (released_frame [data b'] h v this t h' y b0 q c1
                  Hinv Ht Hrel Hne Hy0 Hq Hc1) as (c' & Hc' & Ho').
      exists c'. split; [exact Hc'|congruence].
Qed.

Lemma frame_declare x b' h v h' :
  (forall q c, h !! q = Some c ->
     exists c', h' !! q = Some c' /\ object c' = object c) ->
  frame [x] h v h' (<[x := b']> v).
Proof.
  intros Hh. apply frame_lookup.
  - intros y Hy. apply not_in_one in Hy. now rewrite lookup_insert_ne.
  - intros y b0 q c _ _ _. apply Hh.
Qed.

Lemma frame_all T h v h' v' this :
  frame (this :: T) h v h' v' ->
  (forall es, holds h v this es -> holds h' v' this es) ->
  frame T h v h' v'.
Proof.
  intros Hf Hthis y es Hy Hh. destruct (decide (y = this)) as [->|Hne].
  - now apply Hthis.
  - apply Hf; [|exact Hh]. intros Hin. apply elem_of_cons in Hin as [?|?]; auto.
Qed.

(** A call made on binders that exist has defined behaviour.  When it
    returns, the binders it does not touch hold what they held; when it
    throws, the exception is one of those it may let escape and the state is
    rolled back. *)
Lemma exec_spec c h v :
  inv h v -> member_call c v ->
  wp (exec c)
     (fun _ h' v' => frame (touched c) h v h' v')
     (fun e h' v' => allowed c e /\ rolled_back c h v h' v') h v.
Proof.
  intros Hinv Hc. destruct c as
    [x|x other|x other|this other|this other|x|this k x|this prev_k k x
    |this|this k|this k|this k|this|this|r w];
    cbn [exec touched member_call] in *.
  - (* binder() *)
    apply wp_bind, wp_ret. apply wp_declare; [exact Hc|].
    apply frame_declare. eauto.
  - (* binder(const binder&) *)
    destruct Hc as [Hx [o Ho]]. apply wp_bind.
    eapply wp_mono; [apply (copy_construct_spec other o h v Hinv Ho)| |].
    + intros b' h' v' (-> & _ & _ & _ & Hgrow & _).
      apply wp_declare; [exact Hx|]. now apply frame_declare.
    + intros e h' v' (-> & -> & ->). split; [exact I|left; auto].
  - (* binder(binder&&) *)
    destruct Hc as [Hx [o Ho]]. apply wp_bind.
    eapply wp_mono; [apply (move_construct_spec other o h v Hinv Ho)| |].
    + intros b' h' v' (-> & -> & -> & _).
      assert (Hne : x <> other) by (intros ->; congruence).
      apply wp_declare; [now rewrite lookup_insert_ne by congruence|].
      apply frame_lookup; [|eauto].
      intros y Hy. apply not_in_two in Hy as [Hy1 Hy2].
      now rewrite !lookup_insert_ne by congruence.
    + intros e h' v' [].
  - (* operator=, from a copy *)
    destruct Hc as [[t Ht] [o Ho]]. unfold copy_assign. apply wp_bind.
    eapply wp_mono; [apply (copy_construct_spec other o h v Hinv Ho)| |].
    + intros b' h' v' (-> & _ & Hi & _ & Hgrow & _).
      eapply wp_mono;
        [apply (assign_frame this t b' [this] h v h' v Hi Ht)| |].
      * left.
      * auto.
      * exact Hgrow.
      * auto.
      * intros e h0 v0 [].
    + intros e h' v' (-> & -> & ->). split; [exact I|left; auto].
  - (* operator=, from a moved value *)
    destruct Hc as [[t Ht] [o Ho]]. unfold move_assign. apply wp_bind.
    eapply wp_mono; [apply (move_construct_spec other o h v Hinv Ho)| |].
    + intros b' h' v' (-> & -> & -> & Hi & _).
      assert (Ht' : exists t', <[other := Binder None (unsharable o)]> v
                               !! this = Some t').
      { destruct (decide (this = other)) as [->|Hne].
        - rewrite lookup_insert_eq. eauto.
        - rewrite lookup_insert_ne by congruence. eauto. }
      destruct Ht' as [t' Ht'].
      eapply wp_mono;
        [apply (assign_frame this t' _ [this; other] h v h _ Hi Ht')| |].
      * left.
      * intros y Hy. apply not_in_two in Hy as [Hy1 Hy2].
        now rewrite lookup_insert_ne by congruence.
      * eauto.
      * auto.
      * intros e h0 v0 [].
    + intros e h' v' [].
  - (* ~binder() *)
    destruct Hc as [b Hb]. apply (wp_destroy x b); [exact Hb| |].
    + intros p Hd. now apply (inv_is_Some [] h v x b).
    + intros h' Hrel. apply frame_lookup.
      * intros y Hy. apply not_in_one in Hy. now rewrite lookup_delete_ne.
      * intros y b0 q c Hy Hy0 Hq Hq0. apply not_in_one in Hy.
        exact (released_frame [] h v x b h' y b0 q c Hinv Hb Hrel Hy Hy0 Hq Hq0).
  - (* insert_front *)
    destruct Hc as [b Hb]. destruct (data b) as [p|] eqn:Hd.
    + destruct (inv_owner h v this b p Hinv Hb Hd)
        as (d & n & Hp & _ & Hn & Hwf).
      apply (wp_insert_front this b p d n); auto.
      * intros _. split; [reflexivity|left; auto].
      * intros _. split; [split; [exact I|left; auto]|].
        intros h' v' Hed.
        exact (edited_frame h v this b p d n _ _ h' v' Hinv Hb Hd Hp Hed).
    + apply (wp_insert_front_null this b); auto.
      * split; [exact I|left; auto].
      * intros p Hp. split.
        -- split; [exact I|]. right. exists this, k, x, b, p. auto 10.
        -- apply frame_lookup.
           ++ intros y Hy. apply not_in_one in Hy.
              now rewrite lookup_insert_ne.
           ++ intros y b0 q c _ _ _ Hq. now apply fresh_object.
  - (* insert_after *)
    destruct Hc as [b Hb]. apply (wp_insert_after this b); [exact Hb| |].
    + intros _. split; [left; reflexivity|left; auto].
    + intros p Hd.
      destruct (inv_owner h v this b p Hinv Hb Hd)
        as (d & n & Hp & _ & Hn & Hwf).
      exists d, n. split; [exact Hp|]. split; [exact Hn|]. split; [exact Hwf|].
      split; [|split].
      * intros _. split; [left; reflexivity|left; auto].
      * intros _ _. split; [right; reflexivity|left; auto].
      * intros prev _ _. split; [split; [exact I|left; auto]|].
        intros h' v' Hed.
        exact (edited_frame h v this b p d n _ _ h' v' Hinv Hb Hd Hp Hed).
  - (* remove() *)
    destruct Hc as [b Hb]. apply (wp_remove this b); [exact Hb| |].
    + intros _. split; [reflexivity|left; auto].
    + intros p Hd.
      destruct (inv_owner h v this b p Hinv Hb Hd)
        as (d & n & Hp & _ & Hn & Hwf).
      exists d, n. split; [exact Hp|]. split; [exact Hn|]. split; [exact Hwf|].
      split.
      * intros _. split; [reflexivity|left; auto].
      * intros front rest k _ _. split; [split; [exact I|left; auto]|].
        intros h' v' Hed.
        exact (edited_frame h v this b p d n _ _ h' v' Hinv Hb Hd Hp Hed).
  - (* remove(k) *)
    destruct Hc as [b Hb]. apply (wp_remove_key this b); [exact Hb| |].
    + intros _. split; [reflexivity|left; auto].
    + intros p Hd.
      destruct (inv_owner h v this b p Hinv Hb Hd)
        as (d & n & Hp & _ & Hn & Hwf).
      exists d, n. split; [exact Hp|]. split; [exact Hn|]. split; [exact Hwf|].
      split.
      * intros _. split; [reflexivity|left; auto].
      * intros it_notes _. split; [split; [exact I|left; auto]|].
        intros h' v' Hed.
        exact (edited_frame h v this b p d n _ _ h' v' Hinv Hb Hd Hp Hed).
  - (* read(k) *)
    destruct Hc as [b Hb]. apply wp_bind.
    apply (wp_read this b); [exact Hb| |].
    + intros _. split; [reflexivity|left; auto].
    + intros p Hd.
      destruct (inv_owner h v this b p Hinv Hb Hd)
        as (d & n & Hp & _ & Hn & Hwf).
      exists d, n. split; [exact Hp|]. split; [exact Hn|]. split; [exact Hwf|].
      split.
      * intros _. split; [reflexivity|left; auto].
      * intros it_notes _. split; [split; [exact I|left; auto]|].
        intros q h' v' Hed _. apply wp_ret.
        apply (frame_all [] h v h' v' this).
        -- exact (edited_frame h v this b p d n _ _ h' v' Hinv Hb Hd Hp Hed).
        -- intros es (b0 & Hb0 & Hh). assert (b0 = b) as -> by congruence.
           rewrite Hd in Hh. destruct Hh as (c0 & Hc0 & <-).
           assert (c0 = Cell d n) as -> by congruence.
           exact (edited_holds h v this p d n d true h' v' Hp Hed).
  - (* read(k) const *)
    destruct Hc as [b Hb]. apply wp_bind.
    apply (wp_read_const this b); [exact Hb| |].
    + intros _. split; [reflexivity|left; auto].
    + intros p Hd.
      destruct (inv_owner h v this b p Hinv Hb Hd)
        as (d & n & Hp & _ & Hn & Hwf).
      exists d, n. split; [exact Hp|]. split; [exact Hwf|]. split.
      * intros _. split; [reflexivity|left; auto].
      * intros it_notes _. apply wp_ret. apply frame_refl.
  - (* size() *)
    destruct Hc as [b Hb]. apply wp_bind.
    apply (wp_size this b); [exact Hb| |].
    + intros _. apply wp_ret. apply frame_refl.
    + intros p Hd.
      destruct (inv_owner h v this b p Hinv Hb Hd) as (d & n & Hp & _).
      exists (Cell d n). split; [exact Hp|]. apply wp_ret. apply frame_refl.
  - (* clear() *)
    destruct Hc as [b Hb]. apply (wp_clear this b); [exact Hb| |].
    + intros p Hd. now apply (inv_is_Some [] h v this b).
    + intros h' Hrel. apply frame_lookup.
      * intros y Hy. apply not_in_one in Hy. now rewrite lookup_insert_ne.
      * intros y b0 q c Hy Hy0 Hq Hq0. apply not_in_one in Hy.
        exact (released_frame [] h v this b h' y b0 q c
                 Hinv Hb Hrel Hy Hy0 Hq Hq0).
  - contradiction.
Qed.

Lemma inv_holds h v y b :
  inv h v -> v !! y = Some b -> exists es, holds h v y es.
Proof.
  intros Hinv Hy. destruct (data b) as [p|] eqn:Hd.
  - destruct (inv_owner h v y b p Hinv Hy Hd) as (d & n & Hp & _).
    exists (entries d), b. split; [exact Hy|]. rewrite Hd. eauto.
  - exists [], b. split; [exact Hy|]. now rewrite Hd.
Qed.

(** X16.  In a well-formed state, a constructor that names a new binder
    and every member called on a binder that exists have defined behaviour:
    no null pointer is dereferenced and no iterator is used past the end of
    its list.  So has the loop from [cbegin()] to [cend()], which ends
    within [size()] rounds. *)
Theorem member_call_is_defined (c : call) (this : var) (s : state) :
  inv (heap s) (vars s) ->
  (member_call c (vars s) -> exec c s <> Undefined) /\
  (is_Some (vars s !! this) -> is_Some (result (iterate this s))).
Proof.
  intros Hinv. split.
  - intros Hc Hu.
    assert (Hw := wp_run _ _ _ s (exec_spec c _ _ Hinv Hc)).
    rewrite Hu in Hw. exact Hw.
  - intros [b Hb]. destruct (inv_holds _ _ this b Hinv Hb) as [es Hes].
    rewrite (iterate_result this s es Hinv Hes). eauto.
Qed.

(** X17.  The only exceptions a call lets escape are the
    [std::invalid_argument] of the member, with the message of that member,
    and, from the copy constructor, the copy assignment and the members that
    edit, the failure of a copy or of an insertion; the default and the move
    constructor, the move assignment, the destructor, [size] and [clear]
    throw nothing.  A call that throws leaves the memory and every binder
    as they were, with one exception: [insert_front] on a binder without
    object leaves the binder a new empty object.  In either case every
    binder holds the entries it held. *)
Theorem thrown_call_rolls_back (c : call) (s s' : state) (e : exn) :
  inv (heap s) (vars s) -> member_call c (vars s) ->
  exec c s = Throw e s' ->
  allowed c e /\
  rolled_back c (heap s) (vars s) (heap s') (vars s') /\
  forall y es, result (contents y s) = Some es ->
               result (contents y s') = Some es.
Proof.
  intros Hinv Hc Hexec.
  assert (Hw := wp_run _ _ _ s (exec_spec c _ _ Hinv Hc)).
  rewrite Hexec in Hw. destruct Hw as [Ha Hr].
  split; [exact Ha|]. split; [exact Hr|].
  intros y es Hy. apply holds_contents. apply holds_contents in Hy.
  refine (rolled_back_frame c _ _ _ _ Hinv Hr y es _ Hy).
  apply not_elem_of_nil.
Qed.

(** X18.  Binders are values: whatever a call does to the binders it is
    made on, and whether it returns or throws, every other binder holds
    the entries it held, in the same order, has the size it had and is
    iterated as before, even when it shared its object with a binder the
    call changed. *)
Theorem untouched_binders_keep_entries
    (c : call) (y : var) (es : list (option K * V)) (s : state) :
  inv (heap s) (vars s) -> member_call c (vars s) ->
  y ∉ touched c ->
  result (contents y s) = Some es ->
  let s' := after (exec c s) s in
  result (contents y s') = Some es /\
  result (size y s') = Some (length es) /\
  result (iterate y s') = Some (snd <$> es).
Proof.
  intros Hinv Hc Hy Hes s'.
  assert (Hinv' : inv (heap s') (vars s')) by now apply after_inv.
  assert (Hh : holds (heap s') (vars s') y es).
  { apply holds_contents in Hes. subst s'.
    assert (Hw := wp_run _ _ _ s (exec_spec c _ _ Hinv Hc)).
    destruct (exec c s) as [[] s1|e s1|]; simpl in *.
    - now apply Hw.
    - destruct Hw as [_ Hr].
      refine (rolled_back_frame c _ _ _ _ Hinv Hr y es _ Hes).
      apply not_elem_of_nil.
    - contradiction. }
  split; [now apply holds_contents|].
  split; [now apply size_result|now apply iterate_result].
Qed.

(** *** Every object has an owner *)

Lemma preserves_ret {A} P (a : A) : preserves P (mret a).
Proof. intros s HP. exact HP. Qed.

Lemma preserves_bind {A B} P (m : M A) (k : A -> M B) :
  preserves P m -> (forall a, preserves P (k a)) -> preserves P (m ≫= k).
Proof.
  intros Hm Hk s HP. specialize (Hm s HP). unfold mbind, M_bind.
  destruct (m s) as [a s'|e s'|]; [exact (Hk a s' Hm)|exact Hm|exact I].
Qed.

Lemma preserves_throw {A} P (e : exn) : preserves P (throw (A := A) e).
Proof. intros s HP. exact HP. Qed.

Lemma preserves_undefined {A} P : preserves P (undefined (A := A)).
Proof. intros s HP. exact I. Qed.

Lemma preserves_may_throw P : preserves P may_throw.
Proof.
  intros s HP. unfold may_throw. destruct (faults s) as [|[] fs]; exact HP.
Qed.

Lemma preserves_try {A} P (m : M A) (hd : M unit) :
  preserves P m -> preserves P hd -> preserves P (try_catch_rethrow m hd).
Proof.
  intros Hm Hh s HP. specialize (Hm s HP). unfold try_catch_rethrow.
  destruct (m s) as [a s'|e s'|]; [exact Hm| |exact I].
  specialize (Hh s' Hm). destruct (hd s'); exact Hh.
Qed.

Lemma preserves_get_var P x : preserves P (get_var x).
Proof. intros s HP. unfold get_var. destruct (vars s !! x); [exact HP|exact I]. Qed.

Lemma preserves_set_var P x b : preserves P (set_var x b).
Proof. intros s HP. exact HP. Qed.

Lemma preserves_unset_var P x : preserves P (unset_var x).
Proof. intros s HP. exact HP. Qed.

Lemma preserves_declare P x b : preserves P (declare x b).
Proof. intros s HP. unfold declare. destruct (vars s !! x); [exact I|exact HP]. Qed.

Lemma counted_get_cell {B} p (k : cell -> M B) :
  (forall c, 1 <= use_count c -> preserves counted (k c)) ->
  preserves counted (get_cell p ≫= k).
Proof.
  intros Hk s HP. unfold mbind, M_bind, get_cell.
  destruct (heap s !! p) as [c|] eqn:Hc; [|exact I].
  exact (Hk c (HP p c Hc) s HP).
Qed.

Lemma counted_set_cell p c :
  1 <= use_count c -> preserves counted (set_cell p c).
Proof.
  intros Hn s HP q c0. simpl.
  destruct (decide (q = p)) as [->|Hne].
  - rewrite lookup_insert_eq. now intros [= <-].
  - rewrite lookup_insert_ne by congruence. apply HP.
Qed.

Lemma counted_free_cell p : preserves counted (free_cell p).
Proof.
  intros s HP q c0. simpl. intros Hq.
  apply lookup_delete_Some in Hq as [_ Hq]. exact (HP q c0 Hq).
Qed.

Lemma counted_alloc d : preserves counted (alloc d).
Proof. intros s. apply (counted_set_cell _ (Cell d 1)). simpl. lia. Qed.

Create HintDb counted.

#[local] Hint Resolve preserves_ret preserves_throw preserves_undefined
  preserves_may_throw preserves_get_var preserves_set_var preserves_unset_var
  preserves_declare counted_free_cell counted_alloc : counted.
#[local] Hint Extern 2 (preserves _ (_ ≫= _)) =>
  (apply counted_get_cell; intros ? ?) : counted.
#[local] Hint Extern 3 (preserves _ (_ ≫= _)) =>
  (apply preserves_bind; [|intros ?]) : counted.
#[local] Hint Extern 2 (preserves _ (try_catch_rethrow _ _)) =>
  (apply preserves_try) : counted.
#[local] Hint Extern 2 (preserves _ (with_local _ _)) =>
  (apply preserves_try) : counted.
#[local] Hint Extern 2 (preserves _ (set_cell _ _)) =>
  (apply counted_set_cell; simpl; lia) : counted.
#[local] Hint Extern 4 (preserves _ (match ?x with _ => _ end)) =>
  (destruct x eqn:?) : counted.

Ltac counted_by d := unfold d; auto 30 with counted.

Lemma counted_get_object p : preserves counted (get_object p).
Proof. counted_by get_object. Qed.

Lemma counted_set_object p d : preserves counted (set_object p d).
Proof. counted_by set_object. Qed.

Lemma counted_sp_release o : preserves counted (sp_release o).
Proof.
  unfold sp_release. destruct o as [p|]; [|auto with counted].
  apply counted_get_cell. intros c Hc.
  destruct (Nat.leb_spec (use_count c) 1); [auto with counted|].
  apply counted_set_cell. simpl. lia.
Qed.

Lemma counted_sp_copy o : preserves counted (sp_copy o).
Proof. counted_by sp_copy. Qed.

Lemma counted_sp_use_count o : preserves counted (sp_use_count o).
Proof. counted_by sp_use_count. Qed.

Lemma counted_sp_deref o : preserves counted (sp_deref o).
Proof. counted_by sp_deref. Qed.

#[local] Hint Resolve counted_get_object counted_set_object counted_sp_release
  counted_sp_copy counted_sp_use_count counted_sp_deref : counted.

Lemma counted_copy_notes l : preserves counted (copy_notes l).
Proof. induction l as [|n l IH]; simpl; auto 10 with counted. Qed.

Lemma counted_rebuild_index l idx : preserves counted (rebuild_index l idx).
Proof.
  revert idx. induction l as [|n l IH]; intros idx; simpl;
    auto 10 with counted.
Qed.

#[local] Hint Resolve counted_copy_notes counted_rebuild_index : counted.

Lemma counted_make_shared_copy p : preserves counted (make_shared_copy p).
Proof. unfold make_shared_copy, copy_data. auto 30 with counted. Qed.

Lemma counted_make_shared : preserves counted make_shared.
Proof. counted_by make_shared. Qed.

#[local] Hint Resolve counted_make_shared_copy counted_make_shared : counted.

Lemma counted_going_to_edit this : preserves counted (going_to_edit this).
Proof. counted_by going_to_edit. Qed.

Lemma counted_successful_edit this nd :
  preserves counted (successful_edit this nd).
Proof. counted_by successful_edit. Qed.

Lemma counted_has_key o k : preserves counted (has_key o k).
Proof. counted_by has_key. Qed.

#[local] Hint Resolve counted_going_to_edit counted_successful_edit
  counted_has_key : counted.

Lemma counted_insert_front this k x : preserves counted (insert_front this k x).
Proof. unfold insert_front, insert_front_body. auto 40 with counted. Qed.

Lemma counted_insert_after this prev_k k x :
  preserves counted (insert_after this prev_k k x).
Proof. unfold insert_after, insert_after_body. auto 40 with counted. Qed.

Lemma counted_remove_key this k : preserves counted (remove_key this k).
Proof. unfold remove_key, remove_body. auto 40 with counted. Qed.

Lemma counted_size this : preserves counted (size this).
Proof. counted_by size. Qed.

#[local] Hint Resolve counted_remove_key counted_size : counted.

Lemma counted_remove this : preserves counted (remove this).
Proof. counted_by remove. Qed.

Lemma counted_read this k : preserves counted (read this k).
Proof. unfold read, value_ref. auto 40 with counted. Qed.

Lemma counted_read_const this k : preserves counted (read_const this k).
Proof. unfold read_const, value_ref. auto 40 with counted. Qed.

Lemma counted_copy_construct other : preserves counted (copy_construct other).
Proof. counted_by copy_construct. Qed.

Lemma counted_assign this o : preserves counted (assign this o).
Proof. unfold assign, destruct_value. auto 20 with counted. Qed.

#[local] Hint Resolve counted_insert_front counted_insert_after counted_remove
  counted_read counted_read_const counted_copy_construct counted_assign
  : counted.

Lemma counted_exec c : preserves counted (exec c).
Proof.
  destruct c; cbn [exec];
    unfold copy_assign, move_assign, default_construct, move_construct,
      destroy, destruct_value, clear, ref_set;
    auto 30 with counted.
Qed.

Lemma counted_run cs (s : state) :
  counted (heap s) -> counted (heap (run cs s)).
Proof.
  revert s. induction cs as [|c cs IH]; intros s Hs; simpl; [exact Hs|].
  apply IH. assert (Hc := counted_exec c s Hs).
  destruct (exec c s); simpl; auto.
Qed.

Lemma owners_exists (v : gmap var binder) p :
  0 < owners v p -> exists x b, v !! x = Some b /\ data b = Some p.
Proof.
  unfold owners. intros Hn.
  destruct (map_choose (filter (fun xb : var * binder => data xb.2 = Some p) v))
    as (x & b & Hxb).
  - intros Hempty. rewrite Hempty, map_size_empty in Hn. lia.
  - apply map_lookup_filter_Some in Hxb as [Hx Hb]. eauto.
Qed.

(** X19.  In every state a program reaches, whatever failed on the way:
    the owner count of every object in memory is the number of binders that
    reference it, which is at least one, and the object is well formed; the
    object of a binder is in memory.  Nothing leaks and nothing dangles:
    once every binder is destroyed, the memory is empty. *)
Theorem no_leak_no_dangling (cs : list call) (fs : list bool) :
  let s := run cs (initial fs) in
  (forall p c, heap s !! p = Some c ->
     use_count c = owners (vars s) p /\
     (exists x b, vars s !! x = Some b /\ data b = Some p) /\
     data_wf (object c)) /\
  (forall x b p, vars s !! x = Some b -> data b = Some p ->
     is_Some (heap s !! p)) /\
  (vars s = ∅ -> heap s = ∅).
Proof.
  intros s.
  assert (Hinv : inv (heap s) (vars s)) by (apply run_inv, initial_inv).
  assert (Hcnt : counted (heap s)).
  { apply counted_run. intros p c Hp. simpl in Hp.
    rewrite lookup_empty in Hp. discriminate. }
  assert (Hcell : forall p c, heap s !! p = Some c ->
            use_count c = owners (vars s) p /\
            (exists x b, vars s !! x = Some b /\ data b = Some p) /\
            data_wf (object c)).
  { intros p c Hp. destruct Hinv as (_ & HB & _).
    destruct (HB p c Hp) as [Hn Hwf]. rewrite tcount_nil, Nat.add_0_r in Hn.
    split; [exact Hn|]. split; [|exact Hwf].
    apply owners_exists. rewrite <- Hn. exact (Hcnt p c Hp). }
  split; [exact Hcell|]. split.
  - intros x b p Hx Hp. exact (inv_is_Some [] _ _ x b p Hinv Hx Hp).
  - intros Hv. apply map_eq. intros p. rewrite lookup_empty.
    destruct (heap s !! p) as [c|] eqn:Hp; [|reflexivity].
    destruct (Hcell p c Hp) as (_ & (x & b & Hx & _) & _).
    rewrite Hv, lookup_empty in Hx. discriminate.
Qed.

(** *** Looking a key up *)

Lemma find_node_elem (l : list note) n :
  NoDup (node <$> l) -> n ∈ l -> find_node (node n) l = Some n.
Proof.
  intros Hnd Hin. apply list_elem_of_split in Hin as (l1 & l2 & ->).
  apply find_node_middle. rewrite fmap_app, fmap_cons in Hnd.
  apply NoDup_app in Hnd as (_ & Hdisj & _).
  intros Hn. apply (Hdisj _ Hn). left.
Qed.

Lemma value_of_elem (l : list (K * V)) k x :
  NoDup (fst <$> l) -> (k, x) ∈ l -> value_of k l = Some x.
Proof.
  unfold value_of. induction l as [|[k0 x0] l IH]; intros Hnd Hin;
    [inversion Hin|].
  rewrite fmap_cons in Hnd. apply NoDup_cons in Hnd as [Hk0 Hnd].
  cbn [List.find fst]. destruct (decide (k0 = k)) as [->|Hne].
  - rewrite bool_decide_true by reflexivity. simpl.
    apply elem_of_cons in Hin as [[= <-]|Hin]; [reflexivity|].
    exfalso. apply Hk0. apply list_elem_of_fmap. exists (k, x). auto.
  - rewrite bool_decide_false by exact Hne.
    apply elem_of_cons in Hin as [[= <- <-]|Hin]; [congruence|]. auto.
Qed.

Lemma value_of_None (l : list (K * V)) k :
  value_of k l = None <-> forall e, e ∈ l -> e.1 <> k.
Proof.
  unfold value_of. induction l as [|e0 l IH]; cbn [List.find].
  - split; [intros _ e He; inversion He|reflexivity].
  - destruct (decide (e0.1 = k)) as [He0|He0].
    + rewrite bool_decide_true by exact He0. simpl.
      split; [discriminate|]. intros Hl. exfalso. apply (Hl e0); [left|exact He0].
    + rewrite bool_decide_false by exact He0. rewrite IH. split.
      * intros Hl e He. apply elem_of_cons in He as [->|He]; auto.
      * intros Hl e He. apply Hl. now right.
Qed.

Lemma entries_keys (d : data_t) (l : list (K * V)) :
  data_wf d -> entries d = entry_of <$> l -> NoDup (fst <$> l).
Proof.
  intros (_ & Hkeys & _) Hl.
  assert (Hf : first <$> notes d = Some <$> (fst <$> l)).
  { transitivity (fst <$> entries d).
    - unfold entries. rewrite <- list_fmap_compose. reflexivity.
    - rewrite Hl, <- !list_fmap_compose. reflexivity. }
  rewrite Hf in Hkeys. apply (NoDup_fmap_1 Some). exact Hkeys.
Qed.

Lemma entries_elem (d : data_t) (l : list (K * V)) k x :
  entries d = entry_of <$> l ->
  (k, x) ∈ l <-> exists i, Note i (Some k) x ∈ notes d.
Proof.
  intros Hl. split.
  - intros Hin.
    assert (He : entry_of (k, x) ∈ entries d)
      by (rewrite Hl; apply list_elem_of_fmap; eauto).
    unfold entries in He. apply list_elem_of_fmap in He as (n & Hn & Hin').
    exists (node n). destruct n as [i f w]. simpl in *.
    unfold entry_of in Hn. simpl in Hn. injection Hn as <- <-. exact Hin'.
  - intros [i Hi].
    assert (He : (Some k, x) ∈ entry_of <$> l).
    { rewrite <- Hl. unfold entries. apply list_elem_of_fmap.
      exists (Note i (Some k) x). auto. }
    apply list_elem_of_fmap in He as ([k' x'] & He & Hin).
    unfold entry_of in He. simpl in He. injection He as <- <-. exact Hin.
Qed.

(** The index of a well-formed object finds the node of a key exactly
    when the entries hold the key, and the node holds the value of the
    key. *)
Lemma index_value (d : data_t) (l : list (K * V)) k :
  data_wf d -> entries d = entry_of <$> l ->
  match index d !! k with
  | Some i => exists n, find_node i (notes d) = Some n /\ node n = i /\
                        first n = Some k /\ value_of k l = Some (second n)
  | None => value_of k l = None
  end.
Proof.
  intros Hwf Hl. assert (Hkeys := entries_keys d l Hwf Hl).
  destruct Hwf as (Hnodes & _ & _ & Hidx).
  destruct (index d !! k) as [i|] eqn:Hk.
  - apply Hidx in Hk as [x Hx]. exists (Note i (Some k) x).
    split; [exact (find_node_elem _ _ Hnodes Hx)|].
    split; [reflexivity|]. split; [reflexivity|]. simpl.
    apply value_of_elem; [exact Hkeys|]. apply (entries_elem d l k x Hl). eauto.
  - apply value_of_None. intros [k' x] He Hk'. simpl in Hk'. subst k'.
    apply (entries_elem d l k x Hl) in He as [i Hi].
    assert (Hsome : index d !! k = Some i) by (apply Hidx; eauto).
    congruence.
Qed.

Lemma read_const_lookup
    (this : var) (k : K) (l : list (K * V)) (s : state) :
  inv (heap s) (vars s) ->
  result (contents this s) = Some (entry_of <$> l) ->
  match value_of k l with
  | Some x => read_const_value this k s = Return x s /\
              key_in this k s = Return true s
  | None => read_const this k s = Throw (invalid_argument "Key not found") s /\
            key_in this k s = Return false s
  end.
Proof.
  intros Hinv Hc. apply holds_contents in Hc.
  assert (Hhold := Hc). destruct Hc as (b & Hb & Hh).
  unfold read_const_value, read_const, key_in, has_key, value_ref, ref_get,
    get_object, get_cell, get_var, sp_deref, throw, mbind, M_bind, mret, M_ret.
  rewrite Hb. destruct (data b) as [p|] eqn:Hd.
  - destruct (holds_owner _ _ this b p _ Hinv Hhold Hb Hd)
      as (d & n & Hp & _ & Hwf & He).
    unfold contains. simpl. rewrite !Hp. simpl.
    assert (Hv := index_value d l k Hwf He).
    destruct (index d !! k) as [i|] eqn:Hk; simpl.
    + destruct Hv as (m & Hm & _ & _ & ->). unfold find_node in *.
      repeat (rewrite ?Hp, ?Hk, ?Hm; simpl). auto.
    + rewrite Hv. auto.
  - destruct l as [|e l]; [|discriminate]. simpl. auto.
Qed.

(** X20.  [read(k) const] looks the key up in the entries of the binder:
    it returns a reference to the value stored with [k] and leaves the
    state as it is; when the binder has no entry for [k], and so when it has
    no object, it throws "Key not found", in the state as it is. *)
Theorem read_const_finds_value
    (this : var) (k : K) (l : list (K * V)) (s : state) :
  inv (heap s) (vars s) ->
  result (contents this s) = Some (entry_of <$> l) ->
  match value_of k l with
  | Some x => read_const_value this k s = Return x s /\
              key_in this k s = Return true s
  | None => read_const this k s = Throw (invalid_argument "Key not found") s /\
            key_in this k s = Return false s
  end.
Proof. apply read_const_lookup. Qed.

(** *** Copies, moves and giving an object up *)

Lemma wp_returns {A} (m : M A) (Q : A -> gmap ptr cell -> gmap var binder -> Prop)
    (s : state) :
  wp m Q (fun _ _ _ => False) (heap s) (vars s) ->
  exists a s', m s = Return a s' /\ Q a (heap s') (vars s').
Proof.
  intros Hw. apply wp_run in Hw.
  destruct (m s) as [a s'|e s'|]; [eauto|contradiction..].
Qed.

Lemma released_temp t h v x b h' q c :
  inv_ext (Some q :: t) h v -> v !! x = Some b -> released h (data b) h' ->
  h !! q = Some c ->
  exists c', h' !! q = Some c' /\ object c' = object c.
Proof.
  intros Hinv Hb Hrel Hc.
  destruct (data b) as [p|] eqn:Hd; simpl in Hrel; [|subst h'; eauto].
  destruct Hrel as (c0 & Hc0 & Hrel).
  destruct (decide (q = p)) as [->|Hne].
  - assert (c0 = c) as -> by congruence.
    assert (Hone : 0 < owners v p) by (apply (owners_pos v x b); auto).
    destruct Hinv as (_ & HB & _). destruct (HB p c Hc) as [Hn _].
    rewrite tcount_cons, owns_eq in Hn.
    destruct Hrel as [[Hle _]|[_ ->]]; [lia|].
    eexists. rewrite lookup_insert_eq. split; reflexivity.
  - exists c. split; [|reflexivity].
    destruct Hrel as [[_ ->]|[_ ->]].
    + now rewrite lookup_delete_ne by congruence.
    + now rewrite lookup_insert_ne by congruence.
Qed.

Lemma holds_value h (v : gmap var binder) x b' es :
  holds h (<[x := b']> v) x es <->
  match data b' with
  | None => es = []
  | Some p => exists c, h !! p = Some c /\ entries (object c) = es
  end.
Proof.
  split.
  - intros (b0 & Hb0 & Hm). rewrite lookup_insert_eq in Hb0.
    now injection Hb0 as <-.
  - intros Hm. exists b'. split; [apply lookup_insert_eq|exact Hm].
Qed.

Lemma copy_construct_holds x other o es h v :
  inv h v -> v !! other = Some o -> v !! x = None ->
  holds h v other es ->
  wp (exec (CopyConstruct x other))
     (fun _ h' v' => holds h' v' x es /\ holds h' v' other es)
     (fun _ _ _ => True) h v.
Proof.
  intros Hinv Ho Hx Hes. cbn [exec]. apply wp_bind.
  eapply wp_mono; [apply (copy_construct_spec other o h v Hinv Ho)| |auto].
  intros b' h' v' (-> & _ & _ & _ & Hgrow & Hh).
  apply wp_declare; [exact Hx|]. split.
  - apply holds_value. apply (holds_value h' v other). now apply Hh.
  - refine (frame_declare x b' h v h' Hgrow other es _ Hes).
    intros Hin. apply list_elem_of_singleton in Hin. congruence.
Qed.

Lemma copy_assign_holds this other t o es h v :
  inv h v -> v !! this = Some t -> v !! other = Some o ->
  holds h v other es ->
  wp (exec (CopyAssign this other))
     (fun _ h' v' => holds h' v' this es /\ holds h' v' other es)
     (fun _ _ _ => True) h v.
Proof.
  intros Hinv Ht Ho Hes. cbn [exec]. unfold copy_assign. apply wp_bind.
  eapply wp_mono; [apply (copy_construct_spec other o h v Hinv Ho)| |auto].
  intros b' h1 v1 (-> & _ & Hi & _ & Hgrow & Hh).
  apply (wp_assign this t); [exact Ht| |].
  { intros p Hd. now apply (inv_is_Some [data b'] h1 v this t). }
  intros h' Hrel.
  assert (Hthis : holds h' (<[this := Binder (data b') false]> v) this es).
  { apply holds_value. simpl.
    specialize (Hh es Hes). apply holds_value in Hh.
    destruct (data b') as [q|] eqn:Hq; [|exact Hh].
    destruct Hh as (c1 & Hc1 & He).
    destruct (released_temp [] h1 v this t h' q c1 Hi Ht Hrel Hc1)
      as (c' & Hc' & Ho').
    exists c'. split; [exact Hc'|congruence]. }
  split; [exact Hthis|].
  destruct (decide (other = this)) as [->|Hne]; [exact Hthis|].
  destruct Hes as (o0 & Ho0 & Hm). assert (o0 = o) as -> by congruence.
  exists o. split; [now rewrite lookup_insert_ne by congruence|].
  destruct (data o) as [p|] eqn:Hp; [|exact Hm].
  destruct Hm as (c & Hc & He).
  destruct (Hgrow p c Hc) as (c1 & Hc1 & Ho1).
  destruct (released_frame [data b'] h1 v this t h' other o p c1
              Hi Ht Hrel Hne Ho Hp Hc1) as (c' & Hc' & Ho').
  exists c'. split; [exact Hc'|congruence].
Qed.

(** X21.  A copy holds what its source holds: when the copy constructor
    or the copy assignment returns, the new binder, or the binder assigned
    to, holds the entries of the source in their order, and the source holds
    them still; assigning a binder to itself changes nothing of them. *)
Theorem copy_holds_source_entries
    (x this other : var) (es : list (option K * V)) (s : state) :
  inv (heap s) (vars s) ->
  result (contents other s) = Some es ->
  (vars s !! x = None ->
   forall s', exec (CopyConstruct x other) s = Return () s' ->
     result (contents x s') = Some es /\
     result (contents other s') = Some es) /\
  (is_Some (vars s !! this) ->
   forall s', exec (CopyAssign this other) s = Return () s' ->
     result (contents this s') = Some es /\
     result (contents other s') = Some es).
Proof.
  intros Hinv Hes. apply holds_contents in Hes.
  assert (Ho : is_Some (vars s !! other)) by (destruct Hes as (o & -> & _); eauto).
  destruct Ho as [o Ho]. split.
  - intros Hx s' Hexec.
    assert (Hw := wp_run _ _ _ s
                    (copy_construct_holds x other o es _ _ Hinv Ho Hx Hes)).
    rewrite Hexec in Hw. destruct Hw as [H1 H2].
    split; now apply holds_contents.
  - intros [t Ht] s' Hexec.
    assert (Hw := wp_run _ _ _ s
                    (copy_assign_holds this other t o es _ _ Hinv Ht Ho Hes)).
    rewrite Hexec in Hw. destruct Hw as [H1 H2].
    split; now apply holds_contents.
Qed.

Lemma move_construct_holds x other o es h v :
  inv h v -> v !! other = Some o -> v !! x = None ->
  holds h v other es ->
  wp (exec (MoveConstruct x other))
     (fun _ h' v' => h' = h /\ holds h' v' x es /\ holds h' v' other [])
     (fun _ _ _ => False) h v.
Proof.
  intros Hinv Ho Hx Hes. cbn [exec]. apply wp_bind.
  apply (wp_move_construct other o); [exact Ho|].
  assert (Hne : x <> other) by (intros ->; congruence).
  apply wp_declare; [now rewrite lookup_insert_ne by congruence|].
  split; [reflexivity|]. split.
  - apply holds_value. simpl.
    destruct Hes as (o0 & Ho0 & Hm). now assert (o0 = o) as -> by congruence.
  - exists (Binder None (unsharable o)). split; [|reflexivity].
    rewrite lookup_insert_ne by congruence. apply lookup_insert_eq.
Qed.

Lemma move_assign_holds this other t o es h v :
  inv h v -> v !! this = Some t -> v !! other = Some o -> this <> other ->
  holds h v other es ->
  wp (exec (MoveAssign this other))
     (fun _ h' v' => holds h' v' this es /\ holds h' v' other [])
     (fun _ _ _ => False) h v.
Proof.
  intros Hinv Ht Ho Hne Hes. cbn [exec]. unfold move_assign. apply wp_bind.
  eapply wp_mono; [apply (move_construct_spec other o h v Hinv Ho)| |auto].
  intros b' h1 v1 (-> & -> & -> & Hi & _). simpl in Hi.
  assert (Ht' : <[other := Binder None (unsharable o)]> v !! this = Some t)
    by now rewrite lookup_insert_ne by congruence.
  apply (wp_assign this t); [exact Ht'| |].
  { intros p Hd. exact (inv_is_Some _ _ _ this t p Hi Ht' Hd). }
  intros h' Hrel. simpl. split.
  - apply holds_value. simpl.
    destruct Hes as (o0 & Ho0 & Hm). assert (o0 = o) as -> by congruence.
    destruct (data o) as [q|] eqn:Hq; [|exact Hm].
    destruct Hm as (c & Hc & He).
    destruct (released_temp [] h _ this t h' q c Hi Ht' Hrel Hc)
      as (c' & Hc' & Ho').
    exists c'. split; [exact Hc'|congruence].
  - exists (Binder None (unsharable o)). split; [|reflexivity].
    rewrite lookup_insert_ne by congruence. apply lookup_insert_eq.
Qed.

(** X22.  A move hands the entries over without copying them: the move
    constructor and the move assignment from another binder always return,
    the destination then holds the entries the source held, in their order,
    and the source holds none; the move constructor leaves the memory as it
    is. *)
Theorem move_transfers_entries
    (x this other : var) (es : list (option K * V)) (s : state) :
  inv (heap s) (vars s) ->
  result (contents other s) = Some es ->
  (vars s !! x = None ->
   exists s', exec (MoveConstruct x other) s = Return () s' /\
     heap s' = heap s /\
     result (contents x s') = Some es /\
     result (contents other s') = Some []) /\
  (is_Some (vars s !! this) -> this <> other ->
   exists s', exec (MoveAssign this other) s = Return () s' /\
     result (contents this s') = Some es /\
     result (contents other s') = Some []).
Proof.
  intros Hinv Hes. apply holds_contents in Hes.
  assert (Ho : is_Some (vars s !! other)) by (destruct Hes as (o & -> & _); eauto).
  destruct Ho as [o Ho]. split.
  - intros Hx.
    destruct (wp_returns _ _ s
                (move_construct_holds x other o es _ _ Hinv Ho Hx Hes))
      as ([] & s' & Hexec & Hh & H1 & H2).
    exists s'. split; [exact Hexec|]. split; [exact Hh|].
    split; now apply holds_contents.
  - intros [t Ht] Hne.
    destruct (wp_returns _ _ s
                (move_assign_holds this other t o es _ _ Hinv Ht Ho Hne Hes))
      as ([] & s' & Hexec & H1 & H2).
    exists s'. split; [exact Hexec|]. split; now apply holds_contents.
Qed.

(** X23.  [clear()] and the destructor always return and give the object
    of the binder up: when the binder was its only owner the object is
    deleted, otherwise it stays as it is with one owner less.  After
    [clear()] the binder has no object, is not marked unsharable and has
    size 0. *)
Theorem clear_releases_object (this : var) (b : binder) (s : state) :
  inv (heap s) (vars s) ->
  vars s !! this = Some b ->
  exists s1 s2,
    clear this s = Return () s1 /\ destroy this s = Return () s2 /\
    vars s1 = <[this := Binder None false]> (vars s) /\
    vars s2 = delete this (vars s) /\
    heap s1 = heap s2 /\
    result (size this s1) = Some 0 /\
    match data b with
    | None => heap s1 = heap s
    | Some p => exists c, heap s !! p = Some c /\
        if use_count c =? 1 then heap s1 = delete p (heap s)
        else heap s1 = <[p := Cell (object c) (use_count c - 1)]> (heap s)
    end.
Proof.
  intros Hinv Hb.
  assert (Hsome : forall p, data b = Some p -> is_Some (heap s !! p)).
  { intros p Hd. exact (inv_is_Some [] (heap s) (vars s) this b p Hinv Hb Hd). }
  unfold clear, destroy, destruct_value, set_var, unset_var, get_var,
    mbind, M_bind. rewrite Hb. simpl.
  unfold sp_release, get_cell, free_cell, set_cell, mbind, M_bind, mret, M_ret.
  destruct (data b) as [p|] eqn:Hd; simpl.
  - destruct (Hsome p eq_refl) as [c Hc]. rewrite Hc.
    destruct (inv_owner _ _ this b p Hinv Hb Hd) as (d & n & Hp & _ & Hn & _).
    assert (c = Cell d n) as -> by congruence. simpl.
    destruct (Nat.leb_spec n 1) as [Hle|Hgt]; simpl.
    + eexists _, _. repeat (split; [reflexivity|]). split.
      * unfold size, get_var, mbind, M_bind. simpl.
        now rewrite lookup_insert_eq.
      * exists (Cell d n). split; [reflexivity|]. simpl.
        now replace n with 1 by lia.
    + eexists _, _. repeat (split; [reflexivity|]). split.
      * unfold size, get_var, mbind, M_bind. simpl.
        now rewrite lookup_insert_eq.
      * exists (Cell d n). split; [reflexivity|]. simpl.
        destruct (Nat.eqb_spec n 1); [lia|reflexivity].
  - eexists _, _. repeat (split; [reflexivity|]). split; [|reflexivity].
    unfold size, get_var, mbind, M_bind. simpl. now rewrite lookup_insert_eq.
Qed.

(** X24.  [cbegin()] and [cend()] of a binder compare equal exactly when
    its size is 0, be it a binder without object or one whose list is
    empty; an iterator is equal to itself, and none of the three calls
    changes the state. *)
Theorem begin_is_end_iff_empty (this : var) (s : state) :
  inv (heap s) (vars s) -> is_Some (vars s !! this) ->
  exists i e n,
    cbegin this s = Return i s /\ cend this s = Return e s /\
    size this s = Return n s /\
    (iterator_eqb i e = true <-> n = 0) /\
    iterator_eqb i i = true /\ iterator_eqb e e = true.
Proof.
  intros Hinv [b Hb].
  unfold cbegin, cend, size, get_object, get_cell, get_var, mbind, M_bind,
    mret, M_ret. rewrite Hb.
  destruct (data b) as [p|] eqn:Hd.
  - destruct (inv_owner _ _ this b p Hinv Hb Hd) as (d & n & Hp & _).
    rewrite Hp. simpl. eexists _, _, _. repeat (split; [reflexivity|]).
    unfold iterator_eqb. simpl. rewrite Nat.eqb_refl.
    destruct (notes d) as [|m l]; simpl; rewrite ?Nat.eqb_refl; simpl.
    + repeat split; auto.
    + repeat split; auto; discriminate.
  - eexists _, _, _. repeat (split; [reflexivity|]).
    unfold iterator_eqb. simpl. repeat split; auto.
Qed.

(** *** Inserting, reading and removing a key *)

Lemma holds_keys h v this (l : list (K * V)) :
  inv h v -> holds h v this (entry_of <$> l) -> NoDup (fst <$> l).
Proof.
  intros Hinv Hh. assert (Hh' := Hh). destruct Hh' as (b & Hb & Hm).
  destruct (data b) as [p|] eqn:Hd.
  - destruct (holds_owner h v this b p _ Hinv Hh Hb Hd)
      as (d & n & _ & _ & Hwf & He).
    exact (entries_keys d l Hwf He).
  - apply fmap_nil_inv in Hm. subst l. constructor.
Qed.

Lemma insert_fresh this e k x l h v :
  inv h v -> holds h v this (entry_of <$> l) ->
  e = EInsertFront k x \/ (exists prev_k, e = EInsertAfter prev_k k x) ->
  wp (exec (edit_call this e))
     (fun _ _ _ => value_of k l = None) (fun _ _ _ => True) h v.
Proof.
  intros Hinv Hh He. assert (Hh' := Hh). destruct Hh' as (b & Hb & Hm).
  assert (Hidx : forall p d n, data b = Some p -> h !! p = Some (Cell d n) ->
            data_wf d /\ (index d !! k = None -> value_of k l = None)).
  { intros p d n Hd Hp.
    destruct (holds_owner h v this b p _ Hinv Hh Hb Hd)
      as (d0 & n0 & Hp0 & _ & Hwf & He0).
    assert (d0 = d) as -> by congruence. split; [exact Hwf|].
    intros Hk. assert (Hv := index_value d l k Hwf He0).
    now rewrite Hk in Hv. }
  destruct He as [->|[prev_k ->]]; cbn [edit_call exec].
  - destruct (data b) as [p|] eqn:Hd.
    + destruct (inv_owner h v this b p Hinv Hb Hd)
        as (d & n & Hp & _ & Hn & Hwf).
      apply (wp_insert_front this b p d n); auto.
      intros Hk. split; [exact I|]. intros h' v' _.
      now apply (Hidx p d n).
    + apply fmap_nil_inv in Hm. subst l.
      apply (wp_insert_front_null this b); [exact Hb|exact Hd|exact I|].
      intros p Hp. split; [exact I|reflexivity].
  - apply (wp_insert_after this b); [exact Hb|auto|].
    intros p Hd.
    destruct (inv_owner h v this b p Hinv Hb Hd)
      as (d & n & Hp & _ & Hn & Hwf).
    exists d, n. split; [exact Hp|]. split; [exact Hn|]. split; [exact Hwf|].
    split; [auto|]. split; [auto|].
    intros prev _ Hk. split; [exact I|]. intros h' v' _.
    now apply (Hidx p d n).
Qed.

Lemma place_after_elem prev_k (kx : K * V) (l : list (K * V)) :
  length (place_after prev_k kx l) = S (length l) ->
  kx ∈ place_after prev_k kx l.
Proof.
  induction l as [|e l IH]; simpl; [discriminate|].
  destruct (decide (e.1 = prev_k)); simpl.
  - intros _. right. left.
  - intros [= Hlen]. right. now apply IH.
Qed.

Lemma drop_key_place_after prev_k k x (l : list (K * V)) :
  (forall e, e ∈ l -> e.1 <> k) ->
  drop_key k (place_after prev_k (k, x) l) = l.
Proof.
  unfold drop_key. induction l as [|e l IH]; intros Hl; [reflexivity|].
  assert (He : e.1 <> k) by (apply Hl; left).
  assert (Hl' : forall e', e' ∈ l -> e'.1 <> k)
    by (intros e' He'; apply Hl; now right).
  simpl. destruct (decide (e.1 = prev_k)).
  - rewrite filter_cons_True by exact He.
    rewrite filter_cons_False by (simpl; tauto).
    fold (drop_key k l). now rewrite drop_key_absent.
  - rewrite filter_cons_True by exact He. now rewrite IH.
Qed.

(** X25.  An insertion that returns was given a key the binder did not
    hold.  Afterwards the const [read] of that key returns the value
    inserted and the size is one more.  A [remove(k)] of the key that then
    returns, and after [insert_front] a [remove()] as well, leaves the
    binder with the entries it had before the insertion, in their order. *)
Theorem insert_read_remove
    (this : var) (e : edit) (k : K) (x : V) (l : list (K * V))
    (s s1 : state) :
  inv (heap s) (vars s) ->
  result (contents this s) = Some (entry_of <$> l) ->
  e = EInsertFront k x \/ (exists prev_k, e = EInsertAfter prev_k k x) ->
  exec (edit_call this e) s = Return () s1 ->
  value_of k l = None /\
  read_const_value this k s1 = Return x s1 /\
  result (size this s1) = Some (S (length l)) /\
  (forall s2, exec (RemoveKey this k) s1 = Return () s2 ->
     result (contents this s2) = Some (entry_of <$> l)) /\
  (e = EInsertFront k x ->
   forall s2, exec (Remove this) s1 = Return () s2 ->
     result (contents this s2) = Some (entry_of <$> l)).
Proof.
  intros Hinv Hc He Hexec. apply holds_contents in Hc.
  assert (Hstep := wp_run _ _ _ s (edit_step this e l _ _ Hinv Hc)).
  assert (Hfresh := wp_run _ _ _ s (insert_fresh this e k x l _ _ Hinv Hc He)).
  rewrite Hexec in Hstep, Hfresh. destruct Hstep as (Hinv1 & Hh1 & Hlen).
  assert (Habsent : forall e', e' ∈ l -> e'.1 <> k)
    by now apply value_of_None.
  assert (Hlen1 : length (logical e l) = S (length l)).
  { destruct He as [->|[prev_k ->]]; unfold inserted, removed in Hlen;
      simpl in *; lia. }
  assert (Hin : (k, x) ∈ logical e l).
  { destruct He as [->|[prev_k ->]]; [left|]. now apply place_after_elem. }
  assert (Hval : value_of k (logical e l) = Some x).
  { apply value_of_elem; [|exact Hin]. exact (holds_keys _ _ this _ Hinv1 Hh1). }
  assert (Hdrop : drop_key k (logical e l) = l).
  { destruct He as [->|[prev_k ->]]; simpl.
    - unfold drop_key. rewrite filter_cons_False by (simpl; tauto).
      now apply drop_key_absent.
    - now apply drop_key_place_after. }
  split; [exact Hfresh|]. split; [|split; [|split]].
  - assert (Hr := read_const_lookup this k (logical e l) s1 Hinv1
                    (proj1 (holds_contents _ _ _) Hh1)).
    rewrite Hval in Hr. apply Hr.
  - rewrite (size_result this s1 _ Hh1), length_fmap, Hlen1. reflexivity.
  - intros s2 Hrem.
    assert (H2 := wp_run _ _ _ s1
                    (edit_step this (ERemoveKey k) (logical e l) _ _ Hinv1 Hh1)).
    cbn [edit_call] in H2. rewrite Hrem in H2. destruct H2 as (_ & Hh2 & _).
    apply holds_contents. cbn [logical] in Hh2. now rewrite Hdrop in Hh2.
  - intros -> s2 Hrem.
    assert (H2 := wp_run _ _ _ s1
                    (edit_step this ERemove (logical (EInsertFront k x) l)
                       _ _ Hinv1 Hh1)).
    cbn [edit_call] in H2. rewrite Hrem in H2. destruct H2 as (_ & Hh2 & _).
    apply holds_contents. exact Hh2.
Qed.

(** *** Writing through the reference of [read] *)

Lemma read_spec this b k h v :
  inv h v -> v !! this = Some b ->
  wp (read this k)
     (fun r h1 v1 => exists p d n,
        data b = Some p /\ h !! p = Some (Cell d n) /\ data_wf d /\
        index d !! k = Some r.2 /\
        edited h v this p d n d true h1 v1 /\
        v1 !! this = Some (Binder (Some r.1) true))
     (fun _ _ _ => True) h v.
Proof.
  intros Hinv Hb. apply (wp_read this b); auto.
  intros p Hd.
  destruct (inv_owner h v this b p Hinv Hb Hd) as (d & n & Hp & _ & Hn & Hwf).
  exists d, n. split; [exact Hp|]. split; [exact Hn|]. split; [exact Hwf|].
  split; [auto|].
  intros it_notes Hk. split; [exact I|]. intros q h' v' Hed Hq.
  exists p, d, n. auto 10.
Qed.

Lemma edited_cell h v this p d n d' fl h1 v1 q fl' :
  h !! p = Some (Cell d n) ->
  edited h v this p d n d' fl h1 v1 ->
  v1 !! this = Some (Binder (Some q) fl') ->
  h1 !! q = Some (Cell d' 1).
Proof.
  intros Hp [(_ & p' & Hp' & -> & ->)|(_ & -> & ->)] Hq;
    rewrite lookup_insert_eq in Hq; injection Hq as <- _.
  - rewrite lookup_insert_ne by (intros ->; congruence).
    apply lookup_insert_eq.
  - apply lookup_insert_eq.
Qed.

Lemma set_second_entries it k w (ns : list note) (l : list (K * V)) :
  (forall n, n ∈ ns -> node n = it <-> first n = Some k) ->
  (fun n => (first n, second n)) <$> ns = entry_of <$> l ->
  (fun n => (first n, second n)) <$> set_second it w ns
  = entry_of <$> set_value k w l.
Proof.
  unfold set_second, set_value. revert l.
  induction ns as [|n ns IH]; intros l Hkey Hl.
  - symmetry in Hl. apply fmap_nil_inv in Hl. now subst l.
  - destruct l as [|e l]; [discriminate|].
    rewrite !fmap_cons in *. injection Hl as Hf Hs Hl.
    rewrite (IH l); [|intros m Hm; apply Hkey; now right|exact Hl].
    f_equal. specialize (Hkey n ltac:(left)).
    destruct (Nat.eqb_spec (node n) it) as [Hn|Hn].
    + apply Hkey in Hn. rewrite Hn in Hf. injection Hf as Hf.
      rewrite decide_True by congruence. unfold entry_of. simpl.
      now rewrite Hn, Hf.
    + rewrite decide_False.
      * unfold entry_of. simpl. now rewrite Hf, Hs.
      * intros Hk. apply Hn. apply Hkey. now rewrite Hf, Hk.
Qed.

Lemma value_of_set_value k w (l : list (K * V)) :
  is_Some (value_of k l) -> value_of k (set_value k w l) = Some w.
Proof.
  unfold value_of, set_value. induction l as [|e l IH]; intros [x Hx];
    [discriminate|].
  rewrite fmap_cons. cbn [List.find] in *.
  destruct (decide (e.1 = k)) as [He|He].
  - simpl. rewrite bool_decide_true by exact He. reflexivity.
  - rewrite bool_decide_false in * by exact He. apply IH. eauto.
Qed.

(** X26.  The reference that the mutable [read(k)] returns designates the
    value stored with [k].  A write through it changes that value in this
    binder, so that [read(k) const] then returns the value written, and
    changes nothing else: the other entries of the binder and their order
    are as before, and every other binder, also one that shared the object
    before the [read], holds the entries it held. *)
Theorem write_through_reference
    (this : var) (k : K) (w : V) (r : ref) (l : list (K * V))
    (s s1 s2 : state) :
  inv (heap s) (vars s) ->
  result (contents this s) = Some (entry_of <$> l) ->
  read this k s = Return r s1 ->
  ref_set r w s1 = Return () s2 ->
  is_Some (value_of k l) /\
  result (ref_get r s1) = value_of k l /\
  result (contents this s1) = Some (entry_of <$> l) /\
  result (contents this s2) = Some (entry_of <$> set_value k w l) /\
  read_const_value this k s2 = Return w s2 /\
  forall y es, y <> this ->
    result (contents y s) = Some es -> result (contents y s2) = Some es.
Proof.
  intros Hinv Hc Hread Hset. apply holds_contents in Hc.
  destruct (read_defined this k s s1 r Hread) as [b Hb].
  assert (H1 := wp_run _ _ _ s (read_spec this b k _ _ Hinv Hb)).
  rewrite Hread in H1.
  destruct H1 as (p & d & n & Hd & Hp & Hwf & Hk & Hed & Hq).
  destruct r as [q it_notes]. cbn [fst snd] in *.
  assert (He : entries d = entry_of <$> l).
  { destruct (holds_owner _ _ this b p _ Hinv Hc Hb Hd)
      as (d0 & n0 & Hp0 & _ & _ & He0). congruence. }
  assert (Hinv1 : inv (heap s1) (vars s1))
    by exact (inv_edited _ _ this b p d n d true _ _ Hinv Hb Hd Hp Hwf Hed).
  assert (Hq1 : heap s1 !! q = Some (Cell d 1))
    by exact (edited_cell _ _ this p d n d true _ _ q true Hp Hed Hq).
  assert (Hv := index_value d l k Hwf He). rewrite Hk in Hv.
  destruct Hv as (m & Hm & Hnode & Hfirst & Hval).
  assert (Hin : it_notes ∈ node <$> notes d) by now apply (index_node d k).
  assert (H3 := wp_run (ref_set (q, it_notes) w)
                  (fun _ h3 v3 =>
                     h3 = <[q := Cell (Data (set_second it_notes w (notes d))
                                            (index d)) 1]> (heap s1) /\
                     v3 = vars s1)
                  (fun _ _ _ => True) s1
                  (wp_ref_set q (Cell d 1) it_notes w _ _ _ _ Hq1 Hin
                     (conj eq_refl eq_refl))).
  rewrite Hset in H3. destruct H3 as [Hh2 Hv2].
  assert (Hwf2 : data_wf (Data (set_second it_notes w (notes d)) (index d)))
    by now apply data_wf_set_second.
  assert (Hinv2 : inv (heap s2) (vars s2)).
  { rewrite Hh2, Hv2.
    exact (inv_set_object [] _ _ q (Cell d 1) _ Hinv1 Hq1 Hwf2). }
  assert (Hthis2 : holds (heap s2) (vars s2) this (entry_of <$> set_value k w l)).
  { exists (Binder (Some q) true). split; [now rewrite Hv2|]. simpl.
    eexists. split; [rewrite Hh2; apply lookup_insert_eq|].
    unfold entries. simpl. apply set_second_entries; [|exact He].
    intros m0 Hm0. split.
    - intros Hn0. exact (wf_node_key d k it_notes m0 Hwf Hk Hm0 Hn0).
    - intros Hf0. destruct Hwf as (_ & _ & _ & Hidx).
      assert (Hi : index d !! k = Some (node m0)).
      { apply Hidx. exists (second m0). now rewrite <- Hf0, note_eta. }
      congruence. }
  split; [rewrite Hval; eauto|]. split; [|split; [|split; [|split]]].
  - unfold ref_get, get_object, get_cell, mbind, M_bind, mret, M_ret. simpl.
    rewrite Hq1. simpl. rewrite Hm. simpl. now rewrite Hval.
  - apply holds_contents. rewrite <- He.
    exact (edited_holds _ _ this p d n d true _ _ Hp Hed).
  - now apply holds_contents.
  - assert (Hr := read_const_lookup this k (set_value k w l) s2 Hinv2
                    (proj1 (holds_contents _ _ _) Hthis2)).
    rewrite value_of_set_value in Hr by (rewrite Hval; eauto). apply Hr.
  - intros y es Hy Hes. apply holds_contents. apply holds_contents in Hes.
    assert (Hy1 : holds (heap s1) (vars s1) y es).
    { refine (edited_frame _ _ this b p d n d true _ _ Hinv Hb Hd Hp Hed
                y es _ Hes).
      intros Hin'. apply list_elem_of_singleton in Hin'. contradiction. }
    destruct Hy1 as (b0 & Hb0 & Hm0). exists b0.
    split; [now rewrite Hv2|].
    destruct (data b0) as [q0|] eqn:Hq0; [|exact Hm0].
    destruct Hm0 as (c0 & Hc0 & He0). exists c0. split; [|exact He0].
    rewrite Hh2, lookup_insert_ne; [exact Hc0|]. intros <-.
    destruct (inv_owner _ _ this _ q Hinv1 Hq eq_refl)
      as (d1 & n1 & Hp1 & Hn1 & _).
    assert (n1 = 1) by congruence.
    assert (1 < owners (vars s1) q); [|lia].
    apply (owners_two (vars s1) this y (Binder (Some q) true) b0); auto.
Qed.

End Container.

Arguments Return {K V _ _ A} a s.
Arguments Throw {K V _ _ A} e s.
Arguments Undefined {K V _ _ A}.

(** ** Programs with integer keys and string values *)

Local Open Scope Z_scope.

(** C7: from an empty binder [b], [insert_front(1, "a")] gives the order
    [1], [insert_front(2, "b")] the order [2, 1], [insert_after(2, 3, "c")]
    the order [2, 3, 1], and [read(3)] returns ["c"]; after [b2 = b] and
    [b.remove(1)], [b] has size 2 and the order [2, 3] while [b2] has size 3
    and still holds the key 1 with the value ["a"].  [s5] follows the
    mutable [read], [s5'] the const one. *)
Example scenario :
  let s0 := fresh_b (K := Z) (V := string) [] in
  let s1 := run [InsertFront "b" 1 "a"] s0 in
  let s2 := run [InsertFront "b" 2 "b"] s1 in
  let s3 := run [InsertAfter "b" 2 3 "c"] s2 in
  let rd := read_value "b" 3 s3 in
  let s5 := run [CopyConstruct "b2" "b"; RemoveKey "b" 1] (after rd s3) in
  let s5' := run [CopyConstruct "b2" "b"; RemoveKey "b" 1] s3 in
  result (keys "b" s0) = Some [] /\
  result (keys "b" s1) = Some [Some 1] /\
  result (keys "b" s2) = Some [Some 2; Some 1] /\
  result (keys "b" s3) = Some [Some 2; Some 3; Some 1] /\
  result rd = Some "c" /\
  result (read_const_value "b" 3 s3) = Some "c" /\
  (result (size "b" s5) = Some 2%nat /\
   result (keys "b" s5) = Some [Some 2; Some 3] /\
   result (iterate "b" s5) = Some ["b"; "c"] /\
   result (size "b2" s5) = Some 3%nat /\
   result (keys "b2" s5) = Some [Some 2; Some 3; Some 1] /\
   result (read_const_value "b2" 1 s5) = Some "a") /\
  (result (size "b" s5') = Some 2%nat /\
   result (keys "b" s5') = Some [Some 2; Some 3] /\
   result (size "b2" s5') = Some 3%nat /\
   result (keys "b2" s5') = Some [Some 2; Some 3; Some 1] /\
   result (read_const_value "b2" 1 s5') = Some "a").
Proof. vm_compute. repeat split; reflexivity. Qed.

(** C1 at the input where the code departs from it: [b] has no object;
    [insert_front(1, "a")] allocates an empty object, assigns it to [data]
    and then fails while inserting.  The exception leaves [b] referencing
    the empty object instead of no object. *)
Example insert_front_failure_on_empty_binder :
  let s := fresh_b (K := Z) (V := string) [false; true] in
  let o := insert_front "b" 1 "a" s in
  vars s !! "b" = Some (Binder None false) /\
  heap s = ∅ /\
  thrown o = Some bad_alloc /\
  vars (after o s) !! "b" = Some (Binder (Some 0%nat) false) /\
  heap (after o s) !! 0%nat = Some (Cell (Data [] ∅) 1).
Proof. vm_compute. repeat split; reflexivity. Qed.

(** C4 at the input where the code departs from it: [b] is marked
    unsharable after a mutable [read].  [d = std::move(b)] hands the object
    to [d] and empties [b], but leaves the flag of [d] cleared; the move
    constructor, from the same state, hands the flag over to [e]. *)
Example move_assignment_clears_flag :
  let s := run [DefaultConstruct "d"] (b_read 1 "a") in
  let o := move_assign "d" "b" s in
  let o' := exec (MoveConstruct "e" "b") s in
  vars s !! "b" = Some (Binder (Some 0%nat) true) /\
  result o = Some () /\
  vars (after o s) !! "d" = Some (Binder (Some 0%nat) false) /\
  vars (after o s) !! "b" = Some (Binder None true) /\
  result o' = Some () /\
  vars (after o' s) !! "e" = Some (Binder (Some 0%nat) true) /\
  vars (after o' s) !! "b" = Some (Binder None true).
Proof. vm_compute. repeat split; reflexivity. Qed.

(** C2, as the specification states it, fails: [b] is the only owner of its
    object and is marked unsharable after a mutable [read]; [insert_front]
    then edits that very object, which holds two entries afterwards, and
    [b] goes on referencing it: no clone was made. *)
Lemma unsharable_object_is_edited_in_place :
  ~ clones_when_shared_or_unsharable (b_read 1 "a") "b" (InsertFront "b" 2 "c").
Proof.
  intros Hclaim.
  destruct (Hclaim (Binder (Some 0%nat) true) 0%nat (Cell (single 1 "a") 1)
              (run [InsertFront "b" 2 "c"] (b_read 1 "a"))) as [Hsame Hother].
  - vm_compute. reflexivity.
  - reflexivity.
  - vm_compute. reflexivity.
  - right. reflexivity.
  - vm_compute. reflexivity.
  - apply Hother. vm_compute. reflexivity.
Qed.

Lemma mutation_copies_shared_object_witness :
  exists d' fl,
    edit_object (InsertFront "b" 2 "c") (single 1 "a") = Some (d', fl) /\
    (forall e l, InsertFront "b" 2 "c" = edit_call "b" e ->
       entries (single 1 "a") = entry_of <$> l ->
       entries d' = entry_of <$> logical e l) /\
    (forall k, InsertFront "b" 2 "c" = Read "b" k -> d' = single 1 "a") /\
    edited (heap (b_shared 1 "a")) (vars (b_shared 1 "a")) "b" 0%nat
      (single 1 "a") 2 d' fl
      (heap (run [InsertFront "b" 2 "c"] (b_shared 1 "a")))
      (vars (run [InsertFront "b" 2 "c"] (b_shared 1 "a"))) /\
    ((1 < 2)%nat ->
       heap (run [InsertFront "b" 2 "c"] (b_shared 1 "a")) !! 0%nat
       = Some (Cell (single 1 "a") (2 - 1)) /\
       exists p', p' <> 0%nat /\ heap (b_shared 1 "a") !! p' = None /\
         vars (run [InsertFront "b" 2 "c"] (b_shared 1 "a")) !! "b"
         = Some (Binder (Some p') fl) /\
         heap (run [InsertFront "b" 2 "c"] (b_shared 1 "a")) !! p'
         = Some (Cell d' 1)) /\
    (2%nat = 1%nat ->
       vars (run [InsertFront "b" 2 "c"] (b_shared 1 "a")) !! "b"
       = Some (Binder (Some 0%nat) fl) /\
       heap (run [InsertFront "b" 2 "c"] (b_shared 1 "a"))
       = <[0%nat := Cell d' 1]> (heap (b_shared 1 "a"))).
Proof.
  apply (mutation_copies_shared_object "b" (InsertFront "b" 2 "c")
           (Binder (Some 0%nat) false) 0%nat (single 1 "a") 2 (b_shared 1 "a")
           (run [InsertFront "b" 2 "c"] (b_shared 1 "a"))).
  - repeat apply run_inv. apply initial_inv.
  - vm_compute. reflexivity.
  - reflexivity.
  - vm_compute. reflexivity.
  - left. exists (EInsertFront 2 "c"). reflexivity.
  - vm_compute. reflexivity.
Defined.


(** C5, as the specification states it, fails: [b] holds the key 1 and not
    the key 2; [insert_after(2, 1, "z")] finds the key 1 present, yet the
    error is "Prev_key not found". *)
Lemma insert_after_reports_missing_anchor_first :
  ~ insert_after_rejects_duplicate (b_with 1 "a") "b" 2 1 "z".
Proof.
  intros Hclaim.
  assert (Hk : result (key_in "b" 1 (b_with 1 "a")) = Some true)
    by (vm_compute; reflexivity).
  specialize (Hclaim Hk). vm_compute in Hclaim. discriminate Hclaim.
Qed.

Lemma rejected_call_keeps_state_witness :
  remove_key "b" 7 (b_with 1 "a")
  = Throw (invalid_argument "Key not found") (b_with 1 "a") /\
  insert_front "b" 1 "z" (b_with 1 "a")
  = Throw (invalid_argument "Key already exists") (b_with 1 "a") /\
  insert_after "b" 1 1 "z" (b_with 1 "a")
  = Throw (invalid_argument "Key already exists") (b_with 1 "a") /\
  insert_after "b" 7 1 "z" (b_with 1 "a")
  = Throw (invalid_argument "Prev_key not found") (b_with 1 "a") /\
  remove "b" (fresh_b (K := Z) (V := string) []) = Throw (invalid_argument "Empty binder") (fresh_b (K := Z) (V := string) []).
Proof.
  destruct (rejected_call_keeps_state "b" 7 7 "z" (b_with 1 "a")) as (H1 & _).
  destruct (rejected_call_keeps_state "b" 1 1 "z" (b_with 1 "a"))
    as (_ & H2 & H3 & _).
  destruct (rejected_call_keeps_state "b" 1 7 "z" (b_with 1 "a"))
    as (_ & _ & _ & H4 & _).
  destruct (rejected_call_keeps_state "b" 1 1 "z" (fresh_b (K := Z) (V := string) []))
    as (_ & _ & _ & _ & H5).
  split; [|split; [|split; [|split]]].
  - apply H1. vm_compute. reflexivity.
  - apply H2. vm_compute. reflexivity.
  - apply H3; vm_compute; reflexivity.
  - apply H4. vm_compute. reflexivity.
  - apply H5. vm_compute. reflexivity.
Defined.

Lemma iteration_follows_logical_order_witness :
  result (contents "b" (run (edit_call "b" <$> (scenario_edits 1 2 3 "a" "b" "c")) (fresh_b (K := Z) (V := string) [])))
  = Some (entry_of <$> logical_all (scenario_edits 1 2 3 "a" "b" "c") []) /\
  result (iterate "b" (run (edit_call "b" <$> (scenario_edits 1 2 3 "a" "b" "c")) (fresh_b (K := Z) (V := string) [])))
  = Some (snd <$> logical_all (scenario_edits 1 2 3 "a" "b" "c") []) /\
  result (size "b" (run (edit_call "b" <$> (scenario_edits 1 2 3 "a" "b" "c")) (fresh_b (K := Z) (V := string) [])))
  = Some (length (logical_all (scenario_edits 1 2 3 "a" "b" "c") [])) /\
  (length (logical_all (scenario_edits 1 2 3 "a" "b" "c") []) + removed (scenario_edits 1 2 3 "a" "b" "c")
   = length ([] : list (Z * string)) + inserted (scenario_edits 1 2 3 "a" "b" "c"))%nat.
Proof.
  refine (iteration_follows_logical_order "b"
            (scenario_edits 1 2 3 "a" "b" "c") [] (fresh_b [])
            (run (edit_call "b" <$> scenario_edits 1 2 3 "a" "b" "c")
                 (fresh_b [])) _ _ _).
  - repeat apply run_inv. apply initial_inv.
  - vm_compute. reflexivity.
  - vm_compute. reflexivity.
Defined.

Example scenario_edits_order :
  logical_all (scenario_edits 1 2 3 "a" "b" "c") [] = [(3, "c")] /\
  result (iterate "b" (run (edit_call "b" <$> (scenario_edits 1 2 3 "a" "b" "c")) (fresh_b (K := Z) (V := string) [])))
  = Some ["c"].
Proof. vm_compute. split; reflexivity. Qed.

(** ** The further properties on small programs *)

Lemma member_call_is_defined_witness :
  (member_call (InsertFront "b" 2 "c") (vars (b_shared 1 "a")) ->
   exec (InsertFront "b" 2 "c") (b_shared 1 "a") <> Undefined) /\
  (is_Some (vars (b_shared 1 "a") !! "b") ->
   is_Some (result (iterate "b" (b_shared 1 "a")))).
Proof.
  apply (member_call_is_defined (InsertFront "b" 2 "c") "b" (b_shared 1 "a")).
  repeat apply run_inv. apply initial_inv.
Defined.

Lemma thrown_call_rolls_back_witness :
  allowed (InsertFront "b" 2 "c") bad_alloc /\
  rolled_back (InsertFront "b" 2 "c")
    (heap (failing_copy 1 "a")) (vars (failing_copy 1 "a"))
    (heap (after (exec (InsertFront "b" 2 "c") (failing_copy 1 "a")) (failing_copy 1 "a")))
    (vars (after (exec (InsertFront "b" 2 "c") (failing_copy 1 "a")) (failing_copy 1 "a"))) /\
  forall y es,
    result (contents y (failing_copy 1 "a")) = Some es ->
    result (contents y (after (exec (InsertFront "b" 2 "c") (failing_copy 1 "a"))
                              (failing_copy 1 "a"))) = Some es.
Proof.
  apply (thrown_call_rolls_back (InsertFront "b" 2 "c") (failing_copy 1 "a")
           (after (exec (InsertFront "b" 2 "c") (failing_copy 1 "a")) (failing_copy 1 "a"))
           bad_alloc).
  - repeat apply run_inv. apply initial_inv.
  - vm_compute. eauto.
  - vm_compute. reflexivity.
Defined.

Lemma untouched_binders_keep_entries_witness :
  result (contents "b2" (after (exec (InsertFront "b" 2 "c") (b_shared 1 "a"))
                               (b_shared 1 "a")))
  = Some [(Some 1, "a")] /\
  result (size "b2" (after (exec (InsertFront "b" 2 "c") (b_shared 1 "a"))
                           (b_shared 1 "a")))
  = Some (length [(Some 1, "a")]) /\
  result (iterate "b2" (after (exec (InsertFront "b" 2 "c") (b_shared 1 "a"))
                              (b_shared 1 "a")))
  = Some (snd <$> [(Some 1, "a")]).
Proof.
  apply (untouched_binders_keep_entries (InsertFront "b" 2 "c") "b2"
           [(Some 1, "a")] (b_shared 1 "a")).
  - repeat apply run_inv. apply initial_inv.
  - vm_compute. eauto.
  - vm_compute. intros Hin. inversion Hin as [|? ? ? Hin']. inversion Hin'.
  - vm_compute. reflexivity.
Defined.

Lemma read_const_finds_value_witness :
  match value_of 1 [(1, "a")] with
  | Some x => read_const_value "b" 1 (b_with 1 "a") = Return x (b_with 1 "a") /\
              key_in "b" 1 (b_with 1 "a") = Return true (b_with 1 "a")
  | None => read_const "b" 1 (b_with 1 "a")
            = Throw (invalid_argument "Key not found") (b_with 1 "a") /\
            key_in "b" 1 (b_with 1 "a") = Return false (b_with 1 "a")
  end.
Proof.
  apply (read_const_finds_value "b" 1 [(1, "a")] (b_with 1 "a")).
  - repeat apply run_inv. apply initial_inv.
  - vm_compute. reflexivity.
Defined.

Lemma copy_holds_source_entries_witness :
  (vars (b_shared 1 "a") !! "b3" = None ->
   forall s', exec (CopyConstruct "b3" "b") (b_shared 1 "a") = Return () s' ->
     result (contents "b3" s') = Some [(Some 1, "a")] /\
     result (contents "b" s') = Some [(Some 1, "a")]) /\
  (is_Some (vars (b_shared 1 "a") !! "b2") ->
   forall s', exec (CopyAssign "b2" "b") (b_shared 1 "a") = Return () s' ->
     result (contents "b2" s') = Some [(Some 1, "a")] /\
     result (contents "b" s') = Some [(Some 1, "a")]).
Proof.
  apply (copy_holds_source_entries "b3" "b2" "b" [(Some 1, "a")]
           (b_shared 1 "a")).
  - repeat apply run_inv. apply initial_inv.
  - vm_compute. reflexivity.
Defined.

Lemma move_transfers_entries_witness :
  (vars (b_shared 1 "a") !! "b3" = None ->
   exists s', exec (MoveConstruct "b3" "b") (b_shared 1 "a") = Return () s' /\
     heap s' = heap (b_shared 1 "a") /\
     result (contents "b3" s') = Some [(Some 1, "a")] /\
     result (contents "b" s') = Some []) /\
  (is_Some (vars (b_shared 1 "a") !! "b2") -> "b2" <> "b" ->
   exists s', exec (MoveAssign "b2" "b") (b_shared 1 "a") = Return () s' /\
     result (contents "b2" s') = Some [(Some 1, "a")] /\
     result (contents "b" s') = Some []).
Proof.
  apply (move_transfers_entries "b3" "b2" "b" [(Some 1, "a")] (b_shared 1 "a")).
  - repeat apply run_inv. apply initial_inv.
  - vm_compute. reflexivity.
Defined.

Lemma clear_releases_object_witness :
  exists s1 s2,
    clear "b" (b_shared 1 "a") = Return () s1 /\
    destroy "b" (b_shared 1 "a") = Return () s2 /\
    vars s1 = <["b" := Binder None false]> (vars (b_shared 1 "a")) /\
    vars s2 = delete "b" (vars (b_shared 1 "a")) /\
    heap s1 = heap s2 /\
    result (size "b" s1) = Some 0%nat /\
    match data (Binder (Some 0%nat) false) with
    | None => heap s1 = heap (b_shared 1 "a")
    | Some p => exists c, heap (b_shared 1 "a") !! p = Some c /\
        if (use_count c =? 1)%nat then heap s1 = delete p (heap (b_shared 1 "a"))
        else heap s1 = <[p := Cell (object c) (use_count c - 1)]>
                         (heap (b_shared 1 "a"))
    end.
Proof.
  apply (clear_releases_object "b" (Binder (Some 0%nat) false) (b_shared 1 "a")).
  - repeat apply run_inv. apply initial_inv.
  - vm_compute. reflexivity.
Defined.

Lemma begin_is_end_iff_empty_witness :
  exists i e n,
    cbegin "b" (b_with 1 "a") = Return i (b_with 1 "a") /\
    cend "b" (b_with 1 "a") = Return e (b_with 1 "a") /\
    size "b" (b_with 1 "a") = Return n (b_with 1 "a") /\
    (iterator_eqb i e = true <-> n = 0%nat) /\
    iterator_eqb i i = true /\ iterator_eqb e e = true.
Proof.
  apply (begin_is_end_iff_empty "b" (b_with 1 "a")).
  - repeat apply run_inv. apply initial_inv.
  - vm_compute. eauto.
Defined.

Lemma insert_read_remove_witness :
  value_of 2 [(1, "a")] = None /\
  read_const_value "b" 2 (run [InsertFront "b" 2 "c"] (b_with 1 "a"))
  = Return "c" (run [InsertFront "b" 2 "c"] (b_with 1 "a")) /\
  result (size "b" (run [InsertFront "b" 2 "c"] (b_with 1 "a")))
  = Some (S (length [(1, "a")])) /\
  (forall s2,
     exec (RemoveKey "b" 2) (run [InsertFront "b" 2 "c"] (b_with 1 "a"))
     = Return () s2 ->
     result (contents "b" s2) = Some (entry_of <$> [(1, "a")])) /\
  (EInsertFront 2 "c" = EInsertFront 2 "c" ->
   forall s2,
     exec (Remove "b") (run [InsertFront "b" 2 "c"] (b_with 1 "a"))
     = Return () s2 ->
     result (contents "b" s2) = Some (entry_of <$> [(1, "a")])).
Proof.
  apply (insert_read_remove "b" (EInsertFront 2 "c") 2 "c" [(1, "a")]
           (b_with 1 "a") (run [InsertFront "b" 2 "c"] (b_with 1 "a"))).
  - repeat apply run_inv. apply initial_inv.
  - vm_compute. reflexivity.
  - left. reflexivity.
  - vm_compute. reflexivity.
Defined.

Lemma write_through_reference_witness :
  let s := b_shared 1 "a" in
  let s1 := after (read "b" 1 s) s in
  let s2 := after (ref_set (1%nat, 1%nat) "z" s1) s1 in
  is_Some (value_of 1 [(1, "a")]) /\
  result (ref_get (1%nat, 1%nat) s1) = value_of 1 [(1, "a")] /\
  result (contents "b" s1) = Some (entry_of <$> [(1, "a")]) /\
  result (contents "b" s2) = Some (entry_of <$> set_value 1 "z" [(1, "a")]) /\
  read_const_value "b" 1 s2 = Return "z" s2 /\
  forall y es, y <> "b" ->
    result (contents y s) = Some es -> result (contents y s2) = Some es.
Proof.
  apply (write_through_reference "b" 1 "z" (1%nat, 1%nat) [(1, "a")]
           (b_shared 1 "a")
           (after (read "b" 1 (b_shared 1 "a")) (b_shared 1 "a"))
           (after (ref_set (1%nat, 1%nat) "z"
                     (after (read "b" 1 (b_shared 1 "a")) (b_shared 1 "a")))
                  (after (read "b" 1 (b_shared 1 "a")) (b_shared 1 "a")))).
  - repeat apply run_inv. apply initial_inv.
  - vm_compute. reflexivity.
  - vm_compute. reflexivity.
  - vm_compute. reflexivity.
Defined.

End Binder.
